(** * tkGAME: the Sudoku matrix model and its propagation solver

    A shallow embedding of [lib/widgets/sudoku_matrix.py]: the matrix
    cell ([SudokuMatrixCell]), the matrix ([Matrix] and [SudokuMatrix])
    and the solver ([SudokuMatrixSolver]), followed by the properties
    of the specification that concern them.

    Conventions of the embedding.
    - A cell is a Python list carrying attributes; the record
      [SudokuMatrixCell.t] keeps the list contents in the field [items].
    - A matrix is a Python list of cell objects.  A cell object is
      identified by its position in that list: wherever the program
      holds a reference to a cell (a slice of the matrix, the set built
      by [get_unit_cells], the [cleanups] set) the model holds that
      position.  [SudokuMatrixCell.__hash__] is [id(self)], so Python
      sets of cells are sets of identities, here [gset nat].
    - Methods that mutate an object or raise are functions in the monad
      [M St A]: they take the state, return the state, and either a
      value or the exception raised.  State changes made before an
      exception is raised are kept, as in Python.
    - Row and column numbers are natural numbers; negative locations,
      which [ensure_inbounds] rejects, are outside the model.
    - [print] calls and [update_display] only write to the terminal and
      are left out. *)

From Stdlib Require Import ZArith Lia.
From stdpp Require Import base decidable option list sorting gmap strings.

Open Scope nat_scope.

(** ** Python values that occur in a cell *)

(** Items of a base sequence: [None], integers and strings. *)
Inductive item : Type :=
  | INone
  | IInt (z : Z)
  | IStr (s : string).

#[global] Instance item_eq_dec : EqDecision item.
Proof. solve_decision. Defined.

(** Python truth value of an item. *)
Definition truthy (i : item) : bool :=
  match i with
  | INone => false
  | IInt z => negb (Z.eqb z 0)
  | IStr EmptyString => false
  | IStr (String _ _) => true
  end.

(** What [get_value] returns and what [set_value] / [strip_value]
    receive: an item, or a cell object itself (a list of items). *)
Inductive pyvalue : Type :=
  | PItem (i : item)
  | PCell (l : list item).

#[global] Instance pyvalue_eq_dec : EqDecision pyvalue.
Proof. solve_decision. Defined.

(** ** Exceptions and the state-and-exception monad *)

Inductive exn : Type :=
  | IndexError
  | ZeroDivisionError
  | AttributeError
  | SudokuMatrixError
  | SystemExit.

#[global] Instance exn_eq_dec : EqDecision exn.
Proof. solve_decision. Defined.

(** [except Exception] catches everything but [SystemExit]. *)
Definition is_Exception (e : exn) : bool :=
  match e with SystemExit => false | _ => true end.

(** Outcome of a call: a value, an exception, or the bound on the
    number of loop iterations of the model was reached. *)
Inductive result (A : Type) : Type :=
  | Ok (a : A)
  | Raise (e : exn)
  | OutOfFuel.
Arguments Ok {A} a.
Arguments Raise {A} e.
Arguments OutOfFuel {A}.

Definition M (St A : Type) : Type := St → result A * St.

#[global] Instance M_ret {St} : MRet (M St) := λ A a s, (Ok a, s).
#[global] Instance M_bind {St} : MBind (M St) := λ A B k m s,
  match m s with
  | (Ok a, s') => k a s'
  | (Raise e, s') => (Raise e, s')
  | (OutOfFuel, s') => (OutOfFuel, s')
  end.

Definition raise {St A} (e : exn) : M St A := λ s, (Raise e, s).
Definition get {St} : M St St := λ s, (Ok s, s).
Definition modify {St} (f : St → St) : M St unit := λ s, (Ok tt, f s).

(** A pure, possibly failing, query of the state. *)
Definition query {St A} (f : St → result A) : M St A := λ s, (f s, s).

(** [for x in l: body(x)] *)
Fixpoint for_each {St A} (l : list A) (body : A → M St unit) : M St unit :=
  match l with
  | [] => mret tt
  | x :: l' => body x ;; for_each l' body
  end.

(** [try: m  except Exception as e: handler(e)] *)
Definition try_except {St A} (m : M St A) (handler : exn → M St A) : M St A :=
  λ s, match m s with
       | (Raise e, s') => if is_Exception e then handler e s' else (Raise e, s')
       | r => r
       end.

(** [list.remove(x)]: drops the first element equal to [x]; [None]
    stands for the [ValueError] raised when there is none. *)
Fixpoint list_remove_first (x : item) (l : list item) : option (list item) :=
  match l with
  | [] => None
  | y :: l' =>
      if decide (y = x) then Some l'
      else match list_remove_first x l' with
           | Some r => Some (y :: r)
           | None => None
           end
  end.

(** [list.pop()]: the last element and the elements before it;
    [None] stands for the [IndexError] raised on an empty list. *)
Definition list_pop {A} (l : list A) : option (A * list A) :=
  match last l with
  | Some x => Some (x, take (length l - 1) l)
  | None => None
  end.

(** ** Module functions *)

(** [rotate_left(sequence, inplace)] and [rotate_right(sequence,
    inplace)].  Each returns a pair: the value returned, and the
    contents of the object [sequence] after the call.  With [inplace]
    the object itself is rotated ([sequence.append(sequence.pop(0))],
    [sequence.insert(0, sequence.pop(-1))], when it is not empty) and
    returned; without it a rotated copy is built from slices and the
    object is left as it is. *)
Definition rotate_left {A : Type} (sequence : list A) (inplace : bool) : list A * list A :=
  if inplace then
    match sequence with
    | [] => ([], [])
    | x :: rest => (rest ++ [x], rest ++ [x])
    end
  else (drop 1 sequence ++ take 1 sequence, sequence).

Definition rotate_right {A : Type} (sequence : list A) (inplace : bool) : list A * list A :=
  if inplace then
    match last sequence with
    | None => (sequence, sequence)
    | Some x =>
        let rotated := x :: take (length sequence - 1) sequence in
        (rotated, rotated)
    end
  else (drop (length sequence - 1) sequence ++ take (length sequence - 1) sequence,
        sequence).

(** ** SudokuMatrixCell *)

Module SudokuMatrixCell.

Record t : Type := mk {
  row : nat;
  column : nat;
  answer : item;
  base_sequence : list item;
  base_len : nat;
  solved : bool;
  items : list item
}.

Definition with_items (l : list item) (c : t) : t :=
  mk (row c) (column c) (answer c) (base_sequence c) (base_len c) (solved c) l.
Definition with_solved (b : bool) (c : t) : t :=
  mk (row c) (column c) (answer c) (base_sequence c) (base_len c) b (items c).
Definition with_answer (a : item) (c : t) : t :=
  mk (row c) (column c) a (base_sequence c) (base_len c) (solved c) (items c).
Definition with_location (r k : nat) (c : t) : t :=
  mk r k (answer c) (base_sequence c) (base_len c) (solved c) (items c).
Definition with_base_sequence (b : list item) (c : t) : t :=
  mk (row c) (column c) (answer c) b (length b) (solved c) (items c).

(** [len(self) == 1 and self[0] or self] *)
Definition get_value (c : t) : pyvalue :=
  match items c with
  | [x] => if truthy x then PItem x else PCell (items c)
  | _ => PCell (items c)
  end.

(** The cell methods below return [true] when they called the hook
    [self.on_unique_value()]; the owner of the cell runs the hook. *)

Definition set_value (value : pyvalue) : M t bool := λ c,
  if solved c then (Ok false, c)
  else match value with
       | PItem INone => (Ok false, with_items [INone] c)
       | PItem v =>
           if decide (v ∈ base_sequence c)
           then (Ok true, with_items [v] c)
           else (Raise SudokuMatrixError, c)
       | PCell _ => (Raise SudokuMatrixError, c)
       end.

Definition set_values (values : list item) : M t bool := λ c,
  if solved c then (Ok false, c)
  else (Ok false, with_items values c).

Definition strip_value (value : pyvalue) : M t bool := λ c,
  if solved c then (Ok false, c)
  else match value with
       | PItem v =>
           match list_remove_first v (items c) with
           | Some l' => (Ok (length l' =? 1), with_items l' c)
           | None => (Ok false, c)
           end
       | PCell _ => (Ok false, c)
       end.

(** The [answer] property setter. *)
Definition set_answer (value : item) : M t unit := λ c,
  if decide (value = INone ∨ value ∈ base_sequence c)
  then (Ok tt, with_answer value c)
  else (Raise SudokuMatrixError, c).

(** [x or y] on an optional number / sequence argument.  The sequence
    is a tuple or a list, which is false in the Python sense exactly
    when it is empty; an iterable that is true and yields nothing is
    not a value of the model. *)
Definition or_nat (kw : option nat) (default : nat) : nat :=
  match kw with
  | Some (S n) => S n
  | _ => default
  end.
Definition or_seq (kw : option (list item)) (default : list item) : list item :=
  match kw with
  | Some (x :: l) => x :: l
  | _ => default
  end.

(** [reset] with its keyword arguments; an absent keyword is [None]. *)
Definition reset (kw_row kw_column : option nat) (kw_answer : option item)
    (kw_base_sequence : option (list item)) : M t bool :=
  modify (λ c, with_location (or_nat kw_row (row c)) (or_nat kw_column (column c)) c) ;;
  c ← get ;
  set_answer (default (answer c) kw_answer) ;;
  modify (λ c, with_base_sequence (or_seq kw_base_sequence (base_sequence c)) c) ;;
  modify (with_solved false) ;;
  c ← get ;
  set_values (base_sequence c).

(** [range(1, 10)] *)
Definition default_base_sequence : list item :=
  IInt <$> [1; 2; 3; 4; 5; 6; 7; 8; 9]%Z.

(** The constructor [SudokuMatrixCell]: the state of the fresh object
    after [__init__], or the exception [__init__] raised. *)
Definition init (kw_row kw_column : option nat) (kw_answer : option item)
    (kw_base_sequence : option (list item)) : result t :=
  let c0 := mk 0 0 INone default_base_sequence 0 false [] in
  match reset kw_row kw_column kw_answer kw_base_sequence c0 with
  | (Ok _, c) => Ok c
  | (Raise e, _) => Raise e
  | (OutOfFuel, _) => OutOfFuel
  end.

End SudokuMatrixCell.

(** ** Matrix and SudokuMatrix *)

(** References to the elements of the slice [self[start:stop]] of a
    list of length [len]: a slice is clipped to the list. *)
Definition slice_refs (len start stop : nat) : list nat :=
  seq start (min stop len - start).

(** References to the elements of the slice [self[start::step]]; the
    program only takes it with [0 <= start < step]. *)
Definition stride_refs (len start step : nat) : list nat :=
  (λ k, start + k * step) <$> seq 0 ((len - start + (step - 1)) / step).

(** The hook [on_unique_value] of the cells of a matrix acts on the
    part [Q] of the owner that lies outside the cells; its argument is
    the cell that calls it. *)
Class CellHook (Q : Type) := on_unique_value : nat → Q → Q.

(** [SudokuMatrixCell.on_unique_value]: [pass]. *)
#[global] Instance plain_hook : CellHook unit := λ _ q, q.

Module SudokuMatrix.

Record t : Type := mk {
  rows : nat;
  columns : nat;
  base_sequence : list item;
  base_len : nat;
  box_size : nat;
  chutes : nat;
  cells : list SudokuMatrixCell.t
}.

Definition with_cells (l : list SudokuMatrixCell.t) (m : t) : t :=
  mk (rows m) (columns m) (base_sequence m) (base_len m) (box_size m) (chutes m) l.

(** The object a reference designates.  Every reference the program
    holds comes from a slice of the matrix and is valid; the default
    only makes the function total. *)
Definition deref (m : t) (i : nat) : SudokuMatrixCell.t :=
  default (SudokuMatrixCell.mk 0 0 INone [] 0 false []) (cells m !! i).

(** *** Methods inherited from [Matrix] *)

Definition ensure_inbounds (row column : nat) (m : t) : result unit :=
  if (row <? rows m) && (column <? columns m) then Ok tt else Raise IndexError.

Definition at_ (row column : nat) (m : t) : result nat :=
  match ensure_inbounds row column m with
  | Ok _ =>
      let i := row * columns m + column in
      if i <? length (cells m) then Ok i else Raise IndexError
  | Raise e => Raise e
  | OutOfFuel => OutOfFuel
  end.

Definition get_column_cells (column : nat) (m : t) : result (list nat) :=
  match ensure_inbounds 0 column m with
  | Ok _ => Ok (stride_refs (length (cells m)) column (columns m))
  | Raise e => Raise e
  | OutOfFuel => OutOfFuel
  end.

Definition get_row_cells (row : nat) (m : t) : result (list nat) :=
  match ensure_inbounds row 0 m with
  | Ok _ => Ok (slice_refs (length (cells m)) (row * columns m) ((row + 1) * columns m))
  | Raise e => Raise e
  | OutOfFuel => OutOfFuel
  end.

(** [get_rows] and [get_columns]: list comprehensions over slices. *)
Definition get_rows (m : t) : list (list nat) :=
  (λ i, slice_refs (length (cells m)) (i * columns m) ((i + 1) * columns m))
  <$> seq 0 (rows m).

Definition get_columns (m : t) : list (list nat) :=
  (λ i, stride_refs (length (cells m)) i (columns m)) <$> seq 0 (columns m).

(** *** Methods of [SudokuMatrix] *)

Definition get_box_cells (row column : nat) (m : t) : result (list nat) :=
  match ensure_inbounds row column m with
  | Ok _ =>
      let bs := box_size m in
      if bs =? 0 then Raise ZeroDivisionError
      else
        let row0 := bs * (row / bs) in
        let column0 := bs * (column / bs) in
        Ok (r ← seq row0 bs;
            let index := r * columns m + column0 in
            slice_refs (length (cells m)) index (index + bs))
  | Raise e => Raise e
  | OutOfFuel => OutOfFuel
  end.

Definition get_unit_cells (row column : nat) (m : t) : result (gset nat) :=
  match get_row_cells row m with
  | Ok r =>
      match get_column_cells column m with
      | Ok c =>
          match get_box_cells row column m with
          | Ok b => Ok (list_to_set (r ++ c ++ b))
          | Raise e => Raise e
          | OutOfFuel => OutOfFuel
          end
      | Raise e => Raise e
      | OutOfFuel => OutOfFuel
      end
  | Raise e => Raise e
  | OutOfFuel => OutOfFuel
  end.

(** The list comprehension of [get_boxes]: the boxes of the given
    locations, up to the first call that raises. *)
Fixpoint boxes_of (locations : list (nat * nat)) (m : t) : result (list (list nat)) :=
  match locations with
  | [] => Ok []
  | (r, c) :: rest =>
      match get_box_cells r c m with
      | Ok b =>
          match boxes_of rest m with
          | Ok bs => Ok (b :: bs)
          | Raise e => Raise e
          | OutOfFuel => OutOfFuel
          end
      | Raise e => Raise e
      | OutOfFuel => OutOfFuel
      end
  end.

(** [get_boxes]; the division by [box_size] comes first. *)
Definition get_boxes (m : t) : result (list (list nat)) :=
  let bs := box_size m in
  if bs =? 0 then Raise ZeroDivisionError
  else boxes_of (r ← seq 0 (rows m / bs); c ← seq 0 (columns m / bs); [(r * bs, c * bs)]) m.

Section Owner.
Context {Q : Type} `{!CellHook Q}.

(** A method call on the cell object [i]: the cell is updated in
    place and its hook, when it was called, runs on the owner. *)
Definition cell_call (i : nat) (method : M SudokuMatrixCell.t bool) : M (t * Q) unit :=
  λ s,
    let c := deref s.1 i in
    let m' := with_cells (<[i := (method c).2]> (cells s.1)) s.1 in
    match (method c).1 with
    | Ok true => (Ok tt, (m', on_unique_value i s.2))
    | Ok false => (Ok tt, (m', s.2))
    | Raise e => (Raise e, (m', s.2))
    | OutOfFuel => (OutOfFuel, (m', s.2))
    end.

(** [fill_with]: builds the cell of a location. *)
Definition fill_with (row column : nat) (m : t) : result SudokuMatrixCell.t :=
  SudokuMatrixCell.init (Some row) (Some column) None (Some (base_sequence m)).

(** The list comprehension of [reset_contents]. *)
Fixpoint fill_all (locations : list (nat * nat)) (m : t)
    : result (list SudokuMatrixCell.t) :=
  match locations with
  | [] => Ok []
  | (r, c) :: rest =>
      match fill_with r c m with
      | Ok x =>
          match fill_all rest m with
          | Ok xs => Ok (x :: xs)
          | Raise e => Raise e
          | OutOfFuel => OutOfFuel
          end
      | Raise e => Raise e
      | OutOfFuel => OutOfFuel
      end
  end.

Definition reset_contents : M (t * Q) unit :=
  modify (λ s, (with_cells [] s.1, s.2)) ;;
  new ← query (λ s, fill_all (r ← seq 0 (rows s.1); c ← seq 0 (columns s.1); [(r, c)]) s.1) ;
  modify (λ s, (with_cells new s.1, s.2)).

(** [reset_values]; [None] or an empty sequence does nothing. *)
Definition reset_values (values : option (list item)) : M (t * Q) unit :=
  match values with
  | Some (v :: vs) =>
      n ← query (λ s, Ok (length (cells s.1))) ;
      for_each (zip (seq 0 n) (v :: vs))
        (λ p, cell_call p.1 (SudokuMatrixCell.set_value (PItem p.2)))
  | _ => mret tt
  end.

(** The assignment [_cell.answer = x] never calls the hook. *)
Definition set_answer_values (answer_list : option (list item)) : M (t * Q) unit :=
  match answer_list with
  | Some (v :: vs) =>
      n ← query (λ s, Ok (length (cells s.1))) ;
      for_each (zip (seq 0 n) (v :: vs))
        (λ p, cell_call p.1 (SudokuMatrixCell.set_answer p.2 ;; mret false))
  | _ => mret tt
  end.

Definition set_column_values (column : nat) (values : option (list item)) : M (t * Q) unit :=
  match values with
  | Some (v :: vs) =>
      cs ← query (λ s, get_column_cells column s.1) ;
      for_each (zip cs (v :: vs))
        (λ p, cell_call p.1 (SudokuMatrixCell.set_value (PItem p.2)))
  | _ => mret tt
  end.

Definition set_row_values (row : nat) (values : option (list item)) : M (t * Q) unit :=
  match values with
  | Some (v :: vs) =>
      cs ← query (λ s, get_row_cells row s.1) ;
      for_each (zip cs (v :: vs))
        (λ p, cell_call p.1 (SudokuMatrixCell.set_value (PItem p.2)))
  | _ => mret tt
  end.

(** [strip_value(value, row, column)].  The iteration order of the
    Python set is that of [elements]; the cells of the set are all
    distinct, so the order does not show in the result. *)
Definition strip_value (value : pyvalue) (row column : nat) : M (t * Q) unit :=
  u ← query (λ s, get_unit_cells row column s.1) ;
  for_each (elements u) (λ i, cell_call i (SudokuMatrixCell.strip_value value)) ;;
  i ← query (λ s, at_ row column s.1) ;
  cell_call i (SudokuMatrixCell.set_value value).

(** [strip_value] with the cells of the set taken in a given order:
    [strip_value] is [strip_value_in_order] with the order of
    [elements].  It serves to state that the order does not matter. *)
Definition strip_value_in_order (order : gset nat → list nat) (value : pyvalue)
    (row column : nat) : M (t * Q) unit :=
  u ← query (λ s, get_unit_cells row column s.1) ;
  for_each (order u) (λ i, cell_call i (SudokuMatrixCell.strip_value value)) ;;
  i ← query (λ s, at_ row column s.1) ;
  cell_call i (SudokuMatrixCell.set_value value).

(** [math.sqrt(n)] is a whole number: for the lengths a tuple can
    have this is the case exactly when [n] is a perfect square. *)
Definition has_integer_sqrt (n : nat) : bool :=
  Nat.sqrt n * Nat.sqrt n =? n.

(** [reset_matrix] with the keywords [base_sequence], [values] and
    [answer_list]; an absent keyword is [None].  When the length is not
    a square the program has already stored the fractional root in
    [box_size] before it raises; the model leaves [box_size] as it was
    in that case. *)
Definition reset_matrix (kw_base_sequence kw_values kw_answer_list : option (list item))
    : M (t * Q) unit :=
  modify (λ s,
    let b := SudokuMatrixCell.or_seq kw_base_sequence (base_sequence s.1) in
    (mk (rows s.1) (columns s.1) b (length b) (box_size s.1) (chutes s.1) (cells s.1), s.2)) ;;
  n ← query (λ s, Ok (base_len s.1)) ;
  if n =? 0 then raise SudokuMatrixError
  else if negb (has_integer_sqrt n) then raise SudokuMatrixError
  else
    modify (λ s,
      (mk n n (base_sequence s.1) n (Nat.sqrt n) (n / Nat.sqrt n) (cells s.1), s.2)) ;;
    reset_contents ;;
    reset_values kw_values ;;
    set_answer_values kw_answer_list.

(** The state of a matrix object when [__init__] calls
    [reset_matrix]: an empty [Matrix] with the default base
    sequence. *)
Definition blank : t :=
  mk 0 0 SudokuMatrixCell.default_base_sequence 0 0 0 [].

End Owner.

(** [SudokuMatrix(base_sequence=..., values=..., answer_list=...)] *)
Definition init (kw_base_sequence kw_values kw_answer_list : option (list item))
    : result unit * (t * unit) :=
  reset_matrix kw_base_sequence kw_values kw_answer_list (blank, tt).

End SudokuMatrix.

(** ** SudokuMatrixSolver *)

(** [sorted(l, key=key)]: the sort is stable, so its result is the one
    of any stable sort; insertion from the right is one. *)
Fixpoint insert_by_key (key : nat → nat) (x : nat) (l : list nat) : list nat :=
  match l with
  | [] => [x]
  | y :: l' => if key x <=? key y then x :: y :: l' else y :: insert_by_key key x l'
  end.

Definition sorted_by_key (key : nat → nat) (l : list nat) : list nat :=
  foldr (insert_by_key key) [] l.

Module SudokuMatrixSolver.

(** The attributes the solver adds to the matrix.  [step] is the
    number [n] of the method [do_step_n] that [do_solve] runs next:
    [do_solve] sets it to 1 and each step moves it by one.  It is kept
    as a natural number, so the [self.step -= 1] of [do_step_3] is
    modelled for a step of at least 1 only. *)
Record ext : Type := mk_ext {
  cleanups : gset nat;
  step : nat
}.

Definition t : Type := SudokuMatrix.t * ext.

Definition register_for_cleanups (cell : nat) (q : ext) : ext :=
  mk_ext ({[cell]} ∪ cleanups q) (step q).

(** [SudokuMatrixSolverCell.on_unique_value] *)
#[global] Instance solver_hook : CellHook ext := register_for_cleanups.

Definition with_step (n : nat) (q : ext) : ext := mk_ext (cleanups q) n.

Definition do_finished (s : t) : bool :=
  forallb SudokuMatrixCell.solved (SudokuMatrix.cells s.1).

(** [len(cell)] for the cell object [i]. *)
Definition len (m : SudokuMatrix.t) (i : nat) : nat :=
  length (SudokuMatrixCell.items (SudokuMatrix.deref m i)).

Definition do_step_1 : M t unit :=
  n ← query (λ s, Ok (length (SudokuMatrix.cells s.1))) ;
  for_each (seq 0 n) (λ i,
    c ← query (λ s, Ok (SudokuMatrix.deref s.1 i)) ;
    if negb (length (SudokuMatrixCell.items c) =? 1)
    then SudokuMatrix.cell_call i (SudokuMatrixCell.reset None None None None)
    else if negb (SudokuMatrixCell.solved c)
    then modify (λ s, (s.1, register_for_cleanups i s.2))
    else mret tt) ;;
  modify (λ s, (s.1, with_step (step s.2 + 1) s.2)).

(** [_cell.solved = True] *)
Definition lock (i : nat) : M t unit :=
  modify (λ s,
    (SudokuMatrix.with_cells
       (alter (SudokuMatrixCell.with_solved true) i (SudokuMatrix.cells s.1)) s.1,
     s.2)).

Section Pop.
(** Which element [set.pop()] removes depends on the layout of the
    hash table; [pop_order] stands for that choice.  It is used
    when it names a member of the set. *)
Variable pop_order : gset nat → nat.

Definition pop (X : gset nat) : option (nat * gset nat) :=
  match elements X with
  | [] => None
  | x :: _ =>
      let y := if decide (pop_order X ∈ X) then pop_order X else x in
      Some (y, X ∖ {[y]})
  end.

(** The [while self.cleanups:] loop of [do_step_2]. *)
Fixpoint drain_cleanups (fuel : nat) : M t unit :=
  match fuel with
  | 0 => λ s, (OutOfFuel, s)
  | S fuel' =>
      X ← query (λ s, Ok (cleanups s.2)) ;
      match pop X with
      | None => mret tt
      | Some (i, X') =>
          modify (λ s, (s.1, mk_ext X' (step s.2))) ;;
          c ← query (λ s, Ok (SudokuMatrix.deref s.1 i)) ;
          (if length (SudokuMatrixCell.items c) =? 1
           then
             lock i ;;
             c ← query (λ s, Ok (SudokuMatrix.deref s.1 i)) ;
             SudokuMatrix.strip_value (SudokuMatrixCell.get_value c)
               (SudokuMatrixCell.row c) (SudokuMatrixCell.column c)
           else mret tt) ;;
          drain_cleanups fuel'
      end
  end.

Definition do_step_2 (fuel : nat) : M t unit :=
  drain_cleanups fuel ;;
  modify (λ s, (s.1, with_step (step s.2 + 1) s.2)).

(** [_c == cell and _c is not cell] *)
Definition get_similar_cells (cell : nat) (cells : list nat) (m : SudokuMatrix.t)
    : list nat :=
  filter (λ c, SudokuMatrixCell.items (SudokuMatrix.deref m c)
                 = SudokuMatrixCell.items (SudokuMatrix.deref m cell)
               ∧ c ≠ cell) cells.

(** [_c in _sims]: identity or equality with a member. *)
Definition cell_in (c : nat) (sims : list nat) (m : SudokuMatrix.t) : bool :=
  existsb (λ k, bool_decide (c = k)
                || bool_decide (SudokuMatrixCell.items (SudokuMatrix.deref m c)
                                = SudokuMatrixCell.items (SudokuMatrix.deref m k)))
          sims.

(** The three lookups of [do_step_3], evaluated one after the other. *)
Inductive lookup_expr : Type := RowLookup | ColumnLookup | BoxLookup.

Definition eval_lookup (e : lookup_expr) (cell : nat) (m : SudokuMatrix.t)
    : result (list nat) :=
  let c := SudokuMatrix.deref m cell in
  match e with
  | RowLookup => SudokuMatrix.get_row_cells (SudokuMatrixCell.row c) m
  | ColumnLookup => SudokuMatrix.get_column_cells (SudokuMatrixCell.column c) m
  | BoxLookup =>
      SudokuMatrix.get_box_cells (SudokuMatrixCell.row c) (SudokuMatrixCell.column c) m
  end.

(** [[_c.strip_value(v) for v in _cell]] *)
Definition strip_all (c cell : nat) : M t unit :=
  vs ← query (λ s, Ok (SudokuMatrixCell.items (SudokuMatrix.deref s.1 cell))) ;
  for_each vs (λ v, SudokuMatrix.cell_call c (SudokuMatrixCell.strip_value (PItem v))).

(** The body of [for _expr in _lookups]. *)
Definition simplify_lookup (cell : nat) (e : lookup_expr) : M t unit :=
  cs ← query (λ s, eval_lookup e cell s.1) ;
  sims ← query (λ s, Ok (get_similar_cells cell cs s.1)) ;
  match sims with
  | [] => mret tt
  | _ :: _ =>
      for_each cs (λ c,
        member ← query (λ s, Ok (cell_in c (sims ++ [cell]) s.1)) ;
        if negb member then strip_all c cell else mret tt)
  end.

(** The [for _cell in _sorted] loop, with its [continue] and [break]. *)
Fixpoint simplify_cells (sorted : list nat) : M t unit :=
  match sorted with
  | [] => mret tt
  | cell :: rest =>
      n ← query (λ s, Ok (len s.1 cell)) ;
      if n =? 1 then simplify_cells rest
      else
        bs ← query (λ s, Ok (SudokuMatrix.box_size s.1)) ;
        if n <=? bs
        then
          for_each [RowLookup; ColumnLookup; BoxLookup] (simplify_lookup cell) ;;
          simplify_cells rest
        else mret tt
  end.

Definition do_step_3 : M t unit :=
  sorted ← query (λ s,
    Ok (sorted_by_key (len s.1) (seq 0 (length (SudokuMatrix.cells s.1))))) ;
  simplify_cells sorted ;;
  X ← query (λ s, Ok (cleanups s.2)) ;
  if decide (X ≠ ∅)
  then modify (λ s, (s.1, with_step (step s.2 - 1) s.2))
  else modify (λ s, (s.1, with_step (step s.2 + 1) s.2)).

(** [exec("self.do_step_{}(_kw)".format(self.step))]: the solver
    has the methods [do_step_1], [do_step_2] and [do_step_3]. *)
Definition do_step (fuel : nat) : M t unit :=
  n ← query (λ s, Ok (step s.2)) ;
  match n return M t unit with
  | 1 => do_step_1
  | 2 => do_step_2 fuel
  | 3 => do_step_3
  | _ => raise AttributeError
  end.

(** The [while not self.do_finished():] loop of [do_solve]. *)
Fixpoint solving_loop (fuel : nat) : M t unit :=
  match fuel with
  | 0 => λ s, (OutOfFuel, s)
  | S fuel' =>
      finished ← query (λ s, Ok (do_finished s)) ;
      if (finished : bool) then mret tt
      else do_step fuel' ;; solving_loop fuel'
  end.

Definition do_solve (fuel : nat) : M t unit :=
  modify (λ s, (s.1, with_step 1 s.2)) ;;
  solving_loop fuel.

(** [failed_solving]: prints the exception, then [exit(1)]. *)
Definition failed_solving (exception : exn) : M t unit :=
  raise SystemExit.

Definition solve (fuel : nat) : M t unit :=
  try_except (do_solve fuel) failed_solving.

(** The loop [for _cell in cells: _cell.set_value(_seq.pop())] of
    [generate]. *)
Fixpoint assign_popped (cs : list nat) (seq : list item) : M t unit :=
  match cs with
  | [] => mret tt
  | c :: cs' =>
      match list_pop seq with
      | None => raise IndexError
      | Some (v, seq') =>
          SudokuMatrix.cell_call c (SudokuMatrixCell.set_value (PItem v)) ;;
          assign_popped cs' seq'
      end
  end.

(** [generate].  [shuffle] stands for what [random.shuffle] makes of
    the list it is given.  [reset_contents] puts new cells in the
    matrix and leaves [cleanups] as it is, so the cells [cleanups]
    held would not be cells of the matrix any more; a reference being
    a position here, the definition follows the program when
    [cleanups] is empty at the call, as it is after the constructor
    was called without values. *)
Definition generate (shuffle : list item → list item) (fuel : nat) : M t unit :=
  SudokuMatrix.reset_contents ;;
  seq ← query (λ s, Ok (shuffle (SudokuMatrix.base_sequence s.1))) ;
  cs ← query (λ s, SudokuMatrix.get_row_cells 0 s.1) ;
  assign_popped cs seq ;;
  solve fuel.

End Pop.

(** [reset_matrix]: empties [cleanups], then the inherited method. *)
Definition reset_matrix (kw_base_sequence kw_values kw_answer_list : option (list item))
    : M t unit :=
  modify (λ s, (s.1, mk_ext ∅ (step s.2))) ;;
  SudokuMatrix.reset_matrix kw_base_sequence kw_values kw_answer_list.

(** [SudokuMatrixSolver(base_sequence=..., values=..., answer_list=...)] *)
Definition init (kw_base_sequence kw_values kw_answer_list : option (list item))
    : result unit * t :=
  reset_matrix kw_base_sequence kw_values kw_answer_list
    (SudokuMatrix.blank, mk_ext ∅ 0).

End SudokuMatrixSolver.

(** ** Well-formed matrices and the quantities used in the statements *)

Module Grid.

(** The attributes of the cell at position [i] that say where it is
    and which base sequence it uses. *)
Definition cell_placed (m : SudokuMatrix.t) (i : nat) (c : SudokuMatrixCell.t) : Prop :=
  SudokuMatrixCell.row c = i / SudokuMatrix.columns m
  ∧ SudokuMatrixCell.column c = i `mod` SudokuMatrix.columns m
  ∧ SudokuMatrixCell.base_sequence c = SudokuMatrix.base_sequence m.

(** The data-model invariant of a Sudoku matrix: a square of side
    [N = box_size * box_size] whose cells know their location and
    share the base sequence of the matrix. *)
Definition wf (m : SudokuMatrix.t) : Prop :=
  0 < SudokuMatrix.box_size m
  ∧ SudokuMatrix.rows m = SudokuMatrix.box_size m * SudokuMatrix.box_size m
  ∧ SudokuMatrix.columns m = SudokuMatrix.rows m
  ∧ length (SudokuMatrix.cells m) = SudokuMatrix.rows m * SudokuMatrix.columns m
  ∧ Forall (λ p, cell_placed m p.1 p.2) (imap pair (SudokuMatrix.cells m)).

#[global] Instance wf_dec m : Decision (wf m).
Proof. unfold wf, cell_placed. apply _. Defined.

(** The data-model invariant of a cell: its answer is [None] or an
    item of its base sequence (the [answer] setter checks it). *)
Definition answer_ok (c : SudokuMatrixCell.t) : Prop :=
  SudokuMatrixCell.answer c = INone
  ∨ SudokuMatrixCell.answer c ∈ SudokuMatrixCell.base_sequence c.

(** A cell the solver has not locked and that has no item left. *)
Definition contradiction (m : SudokuMatrix.t) (i : nat) : Prop :=
  ∃ c, SudokuMatrix.cells m !! i = Some c
       ∧ SudokuMatrixCell.solved c = false
       ∧ SudokuMatrixCell.items c = [].

(** Number of items left in the cells that are not locked. *)
Definition open_items (c : SudokuMatrixCell.t) : nat :=
  if SudokuMatrixCell.solved c then 0 else length (SudokuMatrixCell.items c).

Definition total (m : SudokuMatrix.t) : nat :=
  sum_list (open_items <$> SudokuMatrix.cells m).

(** The quantity that bounds the work left to the solving loop: every
    iteration of the loop of step 2 makes it smaller. *)
Definition measure (s : SudokuMatrixSolver.t) : nat :=
  size (SudokuMatrixSolver.cleanups s.2) + 2 * total s.1.

(** The part of the bound that depends on the step the solver is at. *)
Definition weight (s : SudokuMatrixSolver.t) : nat :=
  match SudokuMatrixSolver.step s.2 with
  | 2 => 2
  | 3 => if decide (SudokuMatrixSolver.cleanups s.2 = ∅) then 1 else 3
  | _ => 0
  end.

(** The cell at [(row, column)] of a matrix. *)
Definition ref (m : SudokuMatrix.t) (row column : nat) : nat :=
  row * SudokuMatrix.columns m + column.

Definition items_at (m : SudokuMatrix.t) (i : nat) : list item :=
  SudokuMatrixCell.items (SudokuMatrix.deref m i).

Definition solved_at (m : SudokuMatrix.t) (i : nat) : bool :=
  SudokuMatrixCell.solved (SudokuMatrix.deref m i).


(** *** How the solver changes a matrix *)

(** The attributes of a matrix that no method of the solving loop
    assigns. *)
Definition same_frame (m m' : SudokuMatrix.t) : Prop :=
  SudokuMatrix.rows m' = SudokuMatrix.rows m
  ∧ SudokuMatrix.columns m' = SudokuMatrix.columns m
  ∧ SudokuMatrix.base_sequence m' = SudokuMatrix.base_sequence m
  ∧ SudokuMatrix.box_size m' = SudokuMatrix.box_size m.

(** A cell after some calls of [strip_value]: items were removed,
    nothing else changed, and nothing at all if the cell was locked. *)
Definition cell_shrinks (c c' : SudokuMatrixCell.t) : Prop :=
  c' = SudokuMatrixCell.with_items (SudokuMatrixCell.items c') c
  ∧ SudokuMatrixCell.items c' `sublist_of` SudokuMatrixCell.items c
  ∧ (SudokuMatrixCell.solved c = true → c' = c).

(** A cell after some steps of the solving loop that follow step 1:
    items were removed and the cell may have been locked; a locked
    cell and a cell without items stay as they are. *)
Definition cell_evolves (c c' : SudokuMatrixCell.t) : Prop :=
  SudokuMatrixCell.row c' = SudokuMatrixCell.row c
  ∧ SudokuMatrixCell.column c' = SudokuMatrixCell.column c
  ∧ SudokuMatrixCell.base_sequence c' = SudokuMatrixCell.base_sequence c
  ∧ SudokuMatrixCell.items c' `sublist_of` SudokuMatrixCell.items c
  ∧ (SudokuMatrixCell.solved c = true → c' = c)
  ∧ (SudokuMatrixCell.items c = [] → c' = c).

Definition related (P : SudokuMatrixCell.t → SudokuMatrixCell.t → Prop)
    (m m' : SudokuMatrix.t) : Prop :=
  same_frame m m' ∧ Forall2 P (SudokuMatrix.cells m) (SudokuMatrix.cells m').

(** Every cell that joins [cleanups] is paid for by an item removed
    from an unlocked cell. *)
Definition pays (s s' : SudokuMatrixSolver.t) : Prop :=
  size (SudokuMatrixSolver.cleanups s'.2) + total s'.1
  ≤ size (SudokuMatrixSolver.cleanups s.2) + total s.1.

(** The effect of calls of [strip_value] on the cells of a solver. *)
Definition shrinks (s s' : SudokuMatrixSolver.t) : Prop :=
  related cell_shrinks s.1 s'.1 ∧ pays s s'
  ∧ SudokuMatrixSolver.cleanups s.2 ⊆ SudokuMatrixSolver.cleanups s'.2
  ∧ SudokuMatrixSolver.step s'.2 = SudokuMatrixSolver.step s.2.

(** The effect of steps 2 and 3 on a solver. *)
Definition evolves (s s' : SudokuMatrixSolver.t) : Prop :=
  related cell_evolves s.1 s'.1 ∧ pays s s'.

(** *** Two cells with the same two items *)



(** The references the three lookups return on a well-formed matrix. *)
Definition row_refs (m : SudokuMatrix.t) (r : nat) : list nat :=
  seq (r * SudokuMatrix.columns m) (SudokuMatrix.columns m).

Definition column_refs (m : SudokuMatrix.t) (c : nat) : list nat :=
  (λ k, c + k * SudokuMatrix.columns m) <$> seq 0 (SudokuMatrix.rows m).

Definition box_refs (m : SudokuMatrix.t) (r c : nat) : list nat :=
  i ← seq (SudokuMatrix.box_size m * (r / SudokuMatrix.box_size m)) (SudokuMatrix.box_size m);
  seq (i * SudokuMatrix.columns m
       + SudokuMatrix.box_size m * (c / SudokuMatrix.box_size m))
      (SudokuMatrix.box_size m).

(** The cells of the row and of the column that lie outside the box. *)
Definition row_rest (m : SudokuMatrix.t) (r c : nat) : list nat :=
  let c0 := SudokuMatrix.box_size m * (c / SudokuMatrix.box_size m) in
  (λ j, r * SudokuMatrix.columns m + j) <$> (seq 0 c0 ++ seq (c0 + SudokuMatrix.box_size m) (SudokuMatrix.columns m - (c0 + SudokuMatrix.box_size m))).

Definition column_rest (m : SudokuMatrix.t) (r c : nat) : list nat :=
  let r0 := SudokuMatrix.box_size m * (r / SudokuMatrix.box_size m) in
  (λ i, i * SudokuMatrix.columns m + c) <$> (seq 0 r0 ++ seq (r0 + SudokuMatrix.box_size m) (SudokuMatrix.rows m - (r0 + SudokuMatrix.box_size m))).

(** On a well-formed matrix the lookups of a cell return the row, the
    column and the box of its location. *)
Definition unit_refs (m : SudokuMatrix.t) (e : SudokuMatrixSolver.lookup_expr) (cell : nat) : list nat :=
  let c := SudokuMatrix.deref m cell in
  match e with
  | SudokuMatrixSolver.RowLookup => row_refs m (SudokuMatrixCell.row c)
  | SudokuMatrixSolver.ColumnLookup => column_refs m (SudokuMatrixCell.column c)
  | SudokuMatrixSolver.BoxLookup => box_refs m (SudokuMatrixCell.row c) (SudokuMatrixCell.column c)
  end.

(** The cell [fill_with] builds for a location. *)
Definition fresh_cell (b : list item) (p : nat * nat) : SudokuMatrixCell.t :=
  SudokuMatrixCell.mk p.1 p.2 INone b (length b) false b.

(** The locations [reset_contents] goes through, in its order. *)
Definition locations (n k : nat) : list (nat * nat) :=
  r ← seq 0 n; c ← seq 0 k; [(r, c)].

(** The matrix [reset_matrix] builds from a base sequence of length
    [b * b]. *)
Definition built (b : nat) (l : list item) : SudokuMatrix.t :=
  SudokuMatrix.mk (b * b) (b * b) l (b * b) b b
    (fresh_cell l <$> locations (b * b) (b * b)).

(** The set [get_unit_cells] returns on a well-formed matrix. *)
Definition unit_of (m : SudokuMatrix.t) (r c : nat) : gset nat :=
  list_to_set (row_refs m r ++ column_refs m c ++ box_refs m r c).

(** What a loop of [cell.strip_value(value)] over the cells [l] leaves:
    the cells of [l] stripped, the others as they were, and the hook
    run for each cell of [l] that came down to one item. *)
Definition strip_fired (value : pyvalue) (m : SudokuMatrix.t) (j : nat) : bool :=
  match (SudokuMatrixCell.strip_value value (SudokuMatrix.deref m j)).1 with
  | Ok true => true
  | _ => false
  end.

Definition strip_cells (value : pyvalue) (l : list nat) (m : SudokuMatrix.t)
    : SudokuMatrix.t :=
  SudokuMatrix.with_cells
    (imap (λ j c, if decide (j ∈ l) then (SudokuMatrixCell.strip_value value c).2 else c)
          (SudokuMatrix.cells m)) m.

Definition strip_hooks {Q} `{CellHook Q} (value : pyvalue) (l : list nat)
    (m : SudokuMatrix.t) (q : Q) : Q :=
  foldl (λ q j, if strip_fired value m j then on_unique_value j q else q) q l.

(** The hooks a loop of [cell.set_value(value)] over the pairs [l]
    runs: one for each cell that is not locked and is given a value
    other than [None]. *)
Definition assign_hooks {Q} `{CellHook Q} (l : list (nat * item))
    (m : SudokuMatrix.t) (q : Q) : Q :=
  foldl (λ q p, if solved_at m p.1 then q
                else if decide (p.2 = INone) then q else on_unique_value p.1 q) q l.

(** *** Step 1 of the solver *)

(** The cell [reset()] leaves when it is called without keywords. *)
Definition reset_cell (c : SudokuMatrixCell.t) : SudokuMatrixCell.t :=
  SudokuMatrixCell.mk (SudokuMatrixCell.row c) (SudokuMatrixCell.column c)
    (SudokuMatrixCell.answer c) (SudokuMatrixCell.base_sequence c)
    (length (SudokuMatrixCell.base_sequence c)) false (SudokuMatrixCell.base_sequence c).

(** What step 1 does to a cell. *)
Definition step_1_cell (c : SudokuMatrixCell.t) : SudokuMatrixCell.t :=
  if length (SudokuMatrixCell.items c) =? 1 then c else reset_cell c.

Definition step_1_cells (l : list nat) (m : SudokuMatrix.t) : SudokuMatrix.t :=
  SudokuMatrix.with_cells
    (imap (λ j c, if decide (j ∈ l) then step_1_cell c else c) (SudokuMatrix.cells m)) m.

(** The cells step 1 resets can be reset: their answer passes the
    check of the [answer] setter. *)
Definition resettable (m : SudokuMatrix.t) : Prop :=
  Forall (λ c, length (SudokuMatrixCell.items c) ≠ 1 → answer_ok c) (SudokuMatrix.cells m).

(** The body of the loop of [do_step_1]. *)
Definition step_1_body (i : nat) : M SudokuMatrixSolver.t unit :=
  c ← query (λ s, Ok (SudokuMatrix.deref s.1 i)) ;
  if negb (length (SudokuMatrixCell.items c) =? 1)
  then SudokuMatrix.cell_call i (SudokuMatrixCell.reset None None None None)
  else if negb (SudokuMatrixCell.solved c)
  then modify (λ s, (s.1, SudokuMatrixSolver.register_for_cleanups i s.2))
  else mret tt.

(** *** Step 2 of the solver *)

(** The matrix after [_cell.solved = True] for the cell [i]. *)
Definition locked (i : nat) (m : SudokuMatrix.t) : SudokuMatrix.t :=
  SudokuMatrix.with_cells
    (alter (SudokuMatrixCell.with_solved true) i (SudokuMatrix.cells m)) m.

(** The state after the body of the loop of step 2 has locked the
    cell [i] and stripped its value from its unit. *)
Definition after_lock_strip (i : nat) (s : SudokuMatrixSolver.t) : SudokuMatrixSolver.t :=
  let m2 := locked i s.1 in
  let c := SudokuMatrix.deref m2 i in
  let value := SudokuMatrixCell.get_value c in
  let l := elements (unit_of m2 (SudokuMatrixCell.row c) (SudokuMatrixCell.column c)) in
  (strip_cells value l m2, strip_hooks value l m2 s.2).

(** Every cell that is not locked and holds exactly one item is
    registered for cleanups, as it is after step 1. *)
Definition singles_registered (s : SudokuMatrixSolver.t) : Prop :=
  ∀ j, j < length (SudokuMatrix.cells s.1) →
       solved_at s.1 j = false → length (items_at s.1 j) = 1 →
       j ∈ SudokuMatrixSolver.cleanups s.2.

(** *** Termination and soundness of the solver *)

(** A number of iterations that is enough for [solve] from any state
    of a solver: step 1 leaves at most [max 1 L] items in each of the
    [n] cells, for a base sequence of length [L], and registers at
    most [n] cells. *)
Definition bound (s : SudokuMatrixSolver.t) : nat :=
  let n := length (SudokuMatrix.cells s.1) in
  3 * (size (SudokuMatrixSolver.cleanups s.2) + n
       + 2 * (n * max 1 (length (SudokuMatrix.base_sequence s.1)))) + 6.

(** The states in which the loop of [do_solve] tests
    [self.do_finished()], in the order of the run, for at most [fuel]
    iterations from the state [s]. *)
Fixpoint loop_states (pop_order : gset nat → nat) (fuel : nat)
    (s : SudokuMatrixSolver.t) : list SudokuMatrixSolver.t :=
  match fuel with
  | 0 => []
  | S fuel' =>
      s :: (if SudokuMatrixSolver.do_finished s then []
            else match SudokuMatrixSolver.do_step pop_order fuel' s with
                 | (Ok _, s1) => loop_states pop_order fuel' s1
                 | _ => []
                 end)
  end.

(** The cell [j] is another cell of the row, of the column or of the
    box of the cell [i]. *)
Definition peer (m : SudokuMatrix.t) (i j : nat) : Prop :=
  j ≠ i
  ∧ j ∈ unit_of m (i / SudokuMatrix.columns m) (i `mod` SudokuMatrix.columns m).

(** What the solver keeps true of the cells from step 2 on: no item
    occurs twice in a cell, every item is true in the Python sense, and
    the item of a locked cell is in no other cell of its row, column
    and box. *)
Definition consistent (m : SudokuMatrix.t) : Prop :=
  (∀ i, NoDup (items_at m i))
  ∧ (∀ i v, v ∈ items_at m i → truthy v = true)
  ∧ (∀ i, solved_at m i = true →
       ∃ v, items_at m i = [v] ∧ ∀ j, peer m i j → v ∉ items_at m j).

(** *** [generate] *)

(** The number of cells of the first row that are locked and in the
    column or in the box of the cell [j]. *)
Definition locked_above (m : SudokuMatrix.t) (j : nat) : nat :=
  length (filter (λ i, solved_at m i = true ∧ peer m j i) (seq 0 (SudokuMatrix.rows m))).

(** What the loop of step 2 keeps true after [generate] has filled the
    first row: only cells of the first row wait for cleanups, none of
    them locked; the cells of the first row hold at most one item; a
    cell below is not locked and has lost at most one item for each
    locked cell of the first row in its column or box. *)
Definition first_row_only (s : SudokuMatrixSolver.t) : Prop :=
  (∀ i, i ∈ SudokuMatrixSolver.cleanups s.2 →
        i < SudokuMatrix.rows s.1 ∧ solved_at s.1 i = false)
  ∧ (∀ i, i < SudokuMatrix.rows s.1 → length (items_at s.1 i) ≤ 1)
  ∧ (∀ j, SudokuMatrix.rows s.1 ≤ j → j < length (SudokuMatrix.cells s.1) →
          solved_at s.1 j = false
          ∧ SudokuMatrix.rows s.1 ≤ length (items_at s.1 j) + locked_above s.1 j).

(** The invariant of the loop of step 2 when [generate] runs on a
    matrix of box size 3 or more. *)
Definition generating (s : SudokuMatrixSolver.t) : Prop :=
  3 ≤ SudokuMatrix.box_size s.1 ∧ first_row_only s.

(** A number of iterations that is enough for [generate]. *)
Definition generate_bound (m : SudokuMatrix.t) : nat :=
  let n := SudokuMatrix.rows m * SudokuMatrix.columns m in
  3 * (SudokuMatrix.rows m + 2 * (n * length (SudokuMatrix.base_sequence m))) + 10.

End Grid.

(** ** Concrete matrices used as examples *)

Module Examples.

Definition digits (l : list Z) : list item := IInt <$> l.

(** A cell, not locked, of a matrix over [1..4]. *)
Definition cell4 (l : list item) : SudokuMatrixCell.t :=
  SudokuMatrixCell.mk 0 0 INone (digits [1; 2; 3; 4]%Z) 4 false l.

(** [SudokuMatrix(base_sequence=(1, 2, 3, 4))] *)
Definition matrix4 : SudokuMatrix.t :=
  (SudokuMatrix.init (Some (digits [1; 2; 3; 4]%Z)) None None).2.1.

(** [SudokuMatrix()] *)
Definition matrix9 : SudokuMatrix.t :=
  (SudokuMatrix.init None None None).2.1.

(** [SudokuMatrixSolver(base_sequence=(1, 2, 3, 4), values=values)] *)
Definition solver4 (values : list Z) : SudokuMatrixSolver.t :=
  (SudokuMatrixSolver.init (Some (digits [1; 2; 3; 4]%Z)) (Some (digits values)) None).2.

(** [cell.set_values(values)] on the cell [i] of a solver. *)
Definition set_values_at (i : nat) (values : list Z) (s : SudokuMatrixSolver.t)
    : SudokuMatrixSolver.t :=
  (SudokuMatrix.cell_call i (SudokuMatrixCell.set_values (digits values)) s).2.

(** The choice of [set.pop()] used in the examples: the first
    element of the set. *)
Definition pop_first : gset nat → nat := λ X, default 0 (head (elements X)).

(** The solver over [1..4] built with the value 1 for its first cell,
    after [do_step_1] and [do_step_2]: the first cell is locked on 1. *)
Definition locked4 : SudokuMatrixSolver.t :=
  let s1 := (SudokuMatrixSolver.do_step_1 (solver4 [1]%Z)).2 in
  (SudokuMatrixSolver.do_step_2 pop_first 100 s1).2.

(** The solver over [1..4] built with the value 1 for its first two
    cells, which lie in the same row, after [do_solve] has run steps 1
    and 2: one of the two cells is locked on 1, the other one has lost
    its only item. *)
Definition stuck4 : SudokuMatrixSolver.t :=
  let s0 := ((solver4 [1; 1]%Z).1, SudokuMatrixSolver.with_step 1 (solver4 [1; 1]%Z).2) in
  let s1 := (SudokuMatrixSolver.do_step_1 s0).2 in
  (SudokuMatrixSolver.do_step_2 pop_first 100 s1).2.

(** The solver [idle4] below after [set_values] has given the first
    three cells of its first row the items [1, 2], [1, 2] and
    [1, 2, 3]. *)
Definition pair4_of (s : SudokuMatrixSolver.t) : SudokuMatrixSolver.t :=
  set_values_at 0 [1; 2]%Z (set_values_at 1 [1; 2]%Z (set_values_at 2 [1; 2; 3]%Z s)).

(** The solver over [1..4] built without values, after [do_solve] has
    run steps 1 and 2. *)
Definition idle4 : SudokuMatrixSolver.t :=
  let s0 := ((solver4 []).1, SudokuMatrixSolver.with_step 1 (solver4 []).2) in
  let s1 := (SudokuMatrixSolver.do_step_1 s0).2 in
  (SudokuMatrixSolver.do_step_2 pop_first 100 s1).2.

Definition pair4 : SudokuMatrixSolver.t := pair4_of idle4.




(** A solver over [1..4] whose cell 0 was given the answer 4 and then
    the base sequence [(1, 2, 3)]:
    [cell.reset(answer=4); cell.reset(base_sequence=(1, 2, 3))]. *)
Definition stale_answer4 : SudokuMatrixSolver.t :=
  let s1 := (SudokuMatrix.cell_call 0
               (SudokuMatrixCell.reset None None (Some (IInt 4)) None) (solver4 [])).2 in
  (SudokuMatrix.cell_call 0
     (SudokuMatrixCell.reset None None None (Some (digits [1; 2; 3]%Z))) s1).2.

(** The solver over [1..4] given the first three rows of a solved
    grid. *)
Definition three_rows4 : SudokuMatrixSolver.t :=
  solver4 [1; 2; 3; 4; 3; 4; 1; 2; 2; 1; 4; 3]%Z.

(** The solver [three_rows4] after [do_solve] has run step 1. *)
Definition stepped4 : SudokuMatrixSolver.t :=
  (SudokuMatrixSolver.do_step_1
     (three_rows4.1, SudokuMatrixSolver.with_step 1 three_rows4.2)).2.

(** [SudokuMatrixSolver()] *)
Definition solver9 : SudokuMatrixSolver.t :=
  (SudokuMatrixSolver.init None None None).2.

End Examples.

(** * Properties *)

(** Closes a decidable closed goal by evaluating its decision
    procedure. *)
Ltac by_compute :=
  apply (bool_decide_eq_true_1 _); vm_compute; reflexivity.

(** ** The monad *)

Section MonadFacts.
Context {St : Type}.

Lemma bind_unfold {A B} (m : M St A) (k : A → M St B) s :
  (m ≫= k) s = match m s with
                | (Ok a, s') => k a s'
                | (Raise e, s') => (Raise e, s')
                | (OutOfFuel, s') => (OutOfFuel, s')
                end.
Proof. reflexivity. Qed.

(** A loop whose body, in the states that satisfy [I], never raises,
    keeps [I] and relates the states by a reflexive and transitive
    relation [R], does so as a whole. *)
Lemma for_each_keeps {A} (I : St → Prop) (R : St → St → Prop) (l : list A)
    (body : A → M St unit) :
  (∀ s, R s s) → (∀ s1 s2 s3, R s1 s2 → R s2 s3 → R s1 s3) →
  (∀ x s, x ∈ l → I s → ∃ s', body x s = (Ok tt, s') ∧ I s' ∧ R s s') →
  ∀ s, I s → ∃ s', for_each l body s = (Ok tt, s') ∧ I s' ∧ R s s'.
Proof.
  intros Hrefl Htrans. induction l as [|x l IH]; intros Hbody s Hs; simpl.
  - exists s. split; [reflexivity | split; [assumption | apply Hrefl]].
  - destruct (Hbody x s) as (s1 & E1 & I1 & R1); [left | assumption |].
    destruct (IH (λ y s0 Hy, Hbody y s0 (list_elem_of_further _ _ _ Hy)) s1 I1)
      as (s2 & E2 & I2 & R2).
    exists s2. split; [| split; [assumption | eapply Htrans; eassumption]].
    rewrite bind_unfold, E1. exact E2.
Qed.

(** The same, with a property [P x] that the body establishes for its
    argument and that [R] preserves. *)
Lemma for_each_establishes {A} (I : St → Prop) (R : St → St → Prop)
    (P : A → St → Prop) (l : list A) (body : A → M St unit) :
  (∀ s, R s s) → (∀ s1 s2 s3, R s1 s2 → R s2 s3 → R s1 s3) →
  (∀ x s s', R s s' → P x s → P x s') →
  (∀ x s, x ∈ l → I s → ∃ s', body x s = (Ok tt, s') ∧ I s' ∧ R s s' ∧ P x s') →
  ∀ s, I s → ∃ s', for_each l body s = (Ok tt, s') ∧ I s' ∧ R s s' ∧ ∀ x, x ∈ l → P x s'.
Proof.
  intros Hrefl Htrans Hstable. induction l as [|x l IH]; intros Hbody s Hs; simpl.
  - exists s. split; [reflexivity|]. split; [assumption|]. split; [apply Hrefl|].
    intros x Hx. inversion Hx.
  - destruct (Hbody x s) as (s1 & E1 & I1 & R1 & P1); [left | assumption |].
    destruct (IH (λ y s0 Hy, Hbody y s0 (list_elem_of_further _ _ _ Hy)) s1 I1)
      as (s2 & E2 & I2 & R2 & P2).
    exists s2. split; [rewrite bind_unfold, E1; exact E2|].
    split; [assumption|]. split; [eapply Htrans; eassumption|].
    intros y Hy. apply elem_of_cons in Hy as [->|Hy]; [|apply P2, Hy].
    eapply Hstable; eassumption.
Qed.

End MonadFacts.

(** ** Cells *)

Section CellFacts.
Import SudokuMatrixCell.

Lemma list_remove_first_None x l :
  list_remove_first x l = None ↔ x ∉ l.
Proof.
  induction l as [|y l IH]; simpl.
  - split; [intros _; apply not_elem_of_nil | reflexivity].
  - destruct (decide (y = x)) as [->|Hne].
    + split; [discriminate | intros H; destruct H; left].
    + destruct (list_remove_first x l) eqn:E.
      * split; [discriminate|]. intros H. exfalso. apply H. right.
        destruct (decide (x ∈ l)) as [Hin|Hnin]; [assumption|].
        apply IH in Hnin. discriminate.
      * split; [|reflexivity]. intros _ Hin.
        apply elem_of_cons in Hin as [->|Hin]; [congruence|].
        revert Hin. apply IH. reflexivity.
Qed.

Lemma list_remove_first_Some x l l' :
  list_remove_first x l = Some l' →
  l' `sublist_of` l ∧ length l = S (length l') ∧ (NoDup l → x ∉ l').
Proof.
  revert l'. induction l as [|y l IH]; intros l'; simpl; [discriminate|].
  destruct (decide (y = x)) as [->|Hne].
  - intros [= <-]. split; [apply sublist_cons, reflexivity|].
    split; [reflexivity|]. intros Hnd. apply NoDup_cons in Hnd. tauto.
  - destruct (list_remove_first x l) as [r|] eqn:E; [|discriminate].
    intros [= <-]. destruct (IH r eq_refl) as (Hs & Hl & Hn).
    split; [apply sublist_skip, Hs|]. split; [simpl; lia|].
    intros Hnd. apply NoDup_cons in Hnd as [_ Hnd].
    intros Hin. apply elem_of_cons in Hin as [->|Hin]; [congruence|].
    exact (Hn Hnd Hin).
Qed.

(** What [strip_value] does to a cell: nothing if the cell is locked
    or the value absent, otherwise one item less. *)
Lemma strip_value_spec value c :
  ∃ b l', strip_value value c = (Ok b, with_items l' c)
          ∧ l' `sublist_of` items c
          ∧ (solved c = true → l' = items c ∧ b = false)
          ∧ (items c = [] → l' = [] ∧ b = false)
          ∧ (b = true → length (items c) = 2 ∧ length l' = 1)
          ∧ (l' = items c ∧ b = false ∨ length (items c) = S (length l') ∧ solved c = false)
          ∧ (∀ v, value = PItem v → solved c = false → NoDup (items c) → v ∉ l').
Proof.
  unfold strip_value. destruct c as [r k a bs bl sv it]; simpl.
  destruct sv.
  { exists false, it. unfold with_items; simpl.
    repeat split; try reflexivity; try tauto; try discriminate. }
  destruct value as [v|l].
  2:{ exists false, it. unfold with_items; simpl.
      repeat split; try reflexivity; try tauto; try discriminate. }
  destruct (list_remove_first v it) as [l'|] eqn:E.
  - destruct (list_remove_first_Some _ _ _ E) as (Hs & Hl & Hn).
    exists (length l' =? 1), l'. unfold with_items; simpl.
    split; [reflexivity|]. split; [assumption|]. split; [discriminate|].
    split; [intros ->; discriminate|].
    split; [intros Hb; apply Nat.eqb_eq in Hb; lia|].
    split; [right; split; [assumption | reflexivity]|].
    intros v' [= <-] _ Hnd. exact (Hn Hnd).
  - apply list_remove_first_None in E. exists false, it. unfold with_items; simpl.
    split; [reflexivity|]. split; [reflexivity|].
    split; [tauto|]. split; [tauto|]. split; [discriminate|]. split; [tauto|].
    intros v' [= <-] _ _. exact E.
Qed.

End CellFacts.

(** C7. A locked cell is immutable: on a cell whose [solved] flag is
    set, [set_value], [set_values] and [strip_value] return without
    changing the cell, without calling the hook and without raising,
    whatever their argument. *)
Theorem solved_cell_is_immutable (c : SudokuMatrixCell.t) (value : pyvalue)
    (values : list item) :
  SudokuMatrixCell.solved c = true →
  SudokuMatrixCell.set_value value c = (Ok false, c)
  ∧ SudokuMatrixCell.set_values values c = (Ok false, c)
  ∧ SudokuMatrixCell.strip_value value c = (Ok false, c).
Proof.
  intros H. unfold SudokuMatrixCell.set_value, SudokuMatrixCell.set_values,
    SudokuMatrixCell.strip_value. rewrite H. auto.
Qed.

Lemma solved_cell_is_immutable_witness :
  let c := SudokuMatrixCell.with_solved true (Examples.cell4 [IInt 3]) in
  SudokuMatrixCell.set_value (PItem (IInt 3)) c = (Ok false, c)
  ∧ SudokuMatrixCell.set_values (Examples.digits [1; 2]%Z) c = (Ok false, c)
  ∧ SudokuMatrixCell.strip_value (PItem (IInt 3)) c = (Ok false, c).
Proof.
  intros c. apply (solved_cell_is_immutable c). reflexivity.
Defined.

(** C10, as the program has it.  On a cell whose answer is [None] or
    an item of its base sequence, locked or not, [reset()] without
    keyword returns normally, leaves [solved] false and the items
    equal to the whole base sequence, which it keeps.  On any other
    cell [reset()] raises [SudokuMatrixError] when it assigns the
    answer, which comes before it clears [solved]: the cell is left as
    it was, locked if it was locked. *)
Theorem reset_unlocks_cell (c : SudokuMatrixCell.t) :
  (Grid.answer_ok c →
   ∃ c', SudokuMatrixCell.reset None None None None c = (Ok false, c')
         ∧ SudokuMatrixCell.solved c' = false
         ∧ SudokuMatrixCell.items c' = SudokuMatrixCell.base_sequence c
         ∧ SudokuMatrixCell.base_sequence c' = SudokuMatrixCell.base_sequence c)
  ∧ (¬ Grid.answer_ok c →
     SudokuMatrixCell.reset None None None None c = (Raise SudokuMatrixError, c)).
Proof.
  unfold SudokuMatrixCell.reset.
  destruct c as [r k a bs bl sv it]. unfold Grid.answer_ok. simpl.
  split; intros Ha.
  - cbn -[decide]. unfold mbind, M_bind, modify, get, SudokuMatrixCell.set_answer.
    cbn -[decide]. rewrite decide_True by assumption. cbn.
    eexists. split; [reflexivity|]. cbn. auto.
  - cbn -[decide]. unfold mbind, M_bind, modify, get, SudokuMatrixCell.set_answer.
    cbn -[decide]. rewrite decide_False by assumption. reflexivity.
Qed.

Lemma reset_unlocks_cell_witness :
  let c := SudokuMatrixCell.with_solved true (Examples.cell4 [IInt 3]) in
  SudokuMatrixCell.solved c = true
  ∧ ∃ c', SudokuMatrixCell.reset None None None None c = (Ok false, c')
          ∧ SudokuMatrixCell.solved c' = false
          ∧ SudokuMatrixCell.items c' = SudokuMatrixCell.base_sequence c
          ∧ SudokuMatrixCell.base_sequence c' = SudokuMatrixCell.base_sequence c.
Proof.
  intros c. split; [reflexivity|].
  apply (proj1 (reset_unlocks_cell c)). left. reflexivity.
Defined.

(** C10 as stated fails.  The cell
    [SudokuMatrixCell(answer=5, base_sequence=(1, 2, 3, 4))] is built
    without error, since the answer is checked against the base
    sequence [1..9] the cell has before its own is assigned.  Once it
    holds the value 3 and [solved] is set, [reset()] raises
    [SudokuMatrixError] and the cell is still locked on 3. *)
Lemma reset_keeps_locked_cell :
  ∃ c0 c1,
    SudokuMatrixCell.init None None (Some (IInt 5)) (Some (Examples.digits [1; 2; 3; 4]%Z))
    = Ok c0
    ∧ SudokuMatrixCell.set_value (PItem (IInt 3)) c0 = (Ok true, c1)
    ∧ let c := SudokuMatrixCell.with_solved true c1 in
      SudokuMatrixCell.reset None None None None c = (Raise SudokuMatrixError, c)
      ∧ SudokuMatrixCell.solved c = true
      ∧ SudokuMatrixCell.items c = [IInt 3]
      ∧ SudokuMatrixCell.items c ≠ SudokuMatrixCell.base_sequence c.
Proof.
  eexists _, _. split; [vm_compute; reflexivity|]. split; [vm_compute; reflexivity|].
  intros c. split; [vm_compute; reflexivity|]. split; [reflexivity|].
  split; [reflexivity | discriminate].
Qed.

(** C4, as the program has it.  On a cell that is not locked:
    [set_value] with an item of the base sequence other than [None]
    leaves that single item and calls [on_unique_value];
    [strip_value] calls the hook exactly when it takes the list from
    two items to one; [set_values] and [set_value(None)] never call
    it, whatever the length of the list they leave. *)
Theorem hook_on_unique_value (c : SudokuMatrixCell.t) :
  SudokuMatrixCell.solved c = false →
  (∀ v, v ≠ INone → v ∈ SudokuMatrixCell.base_sequence c →
        SudokuMatrixCell.set_value (PItem v) c
        = (Ok true, SudokuMatrixCell.with_items [v] c))
  ∧ (∀ value, ∃ called c',
        SudokuMatrixCell.strip_value value c = (Ok called, c')
        ∧ (called = true ↔
           length (SudokuMatrixCell.items c) ≠ 1
           ∧ length (SudokuMatrixCell.items c') = 1))
  ∧ (∀ values, SudokuMatrixCell.set_values values c
               = (Ok false, SudokuMatrixCell.with_items values c))
  ∧ SudokuMatrixCell.set_value (PItem INone) c
    = (Ok false, SudokuMatrixCell.with_items [INone] c).
Proof.
  intros Hs. split; [|split; [|split]].
  - intros v Hv Hin. unfold SudokuMatrixCell.set_value. rewrite Hs.
    destruct v; [congruence | |]; rewrite decide_True by assumption; reflexivity.
  - intros value. destruct (strip_value_spec value c) as (b & l' & E & _ & _ & _ & Hb & Hch & _).
    exists b, (SudokuMatrixCell.with_items l' c). split; [exact E|]. simpl.
    split.
    + intros Hb'. destruct (Hb Hb') as [H2 H1]. lia.
    + intros [Hne H1]. destruct Hch as [[-> _]|[Hlen _]]; [contradiction|].
      unfold SudokuMatrixCell.strip_value in E. rewrite Hs in E.
      destruct value as [v|l];
        [destruct (list_remove_first v (SudokuMatrixCell.items c)) as [r|] eqn:Er|];
        pose proof (f_equal (λ p, SudokuMatrixCell.items p.2) E) as Hc;
        pose proof (f_equal fst E) as Hb'; simpl in Hc, Hb'.
      * subst r. injection Hb' as <-. apply Nat.eqb_eq. exact H1.
      * rewrite <- Hc in Hlen. lia.
      * rewrite <- Hc in Hlen. lia.
  - intros values. unfold SudokuMatrixCell.set_values. rewrite Hs. reflexivity.
  - unfold SudokuMatrixCell.set_value. rewrite Hs. reflexivity.
Qed.

Lemma hook_on_unique_value_witness :
  let c := Examples.cell4 (Examples.digits [2; 3]%Z) in
  SudokuMatrixCell.set_value (PItem (IInt 4)) c
  = (Ok true, SudokuMatrixCell.with_items [IInt 4] c)
  ∧ SudokuMatrixCell.strip_value (PItem (IInt 2)) c
    = (Ok true, SudokuMatrixCell.with_items [IInt 3] c).
Proof.
  intros c. split.
  - apply (hook_on_unique_value c); [reflexivity | discriminate | by_compute].
  - reflexivity.
Defined.

(** C4 as stated fails: [set_values] with a one-item sequence takes an
    unlocked cell from four items to one and does not call the hook. *)
Lemma set_values_makes_unique_without_hook :
  let c := Examples.cell4 (Examples.digits [1; 2; 3; 4]%Z) in
  SudokuMatrixCell.solved c = false
  ∧ length (SudokuMatrixCell.items c) = 4
  ∧ ∃ c', SudokuMatrixCell.set_values [IInt 1] c = (Ok false, c')
          ∧ length (SudokuMatrixCell.items c') = 1.
Proof.
  intros c. split; [reflexivity|]. split; [reflexivity|].
  eexists. split; reflexivity.
Qed.

(** C8, the part the program has: [get_value] returns the cell itself
    when the list has not exactly one item, and the single item when
    that item is true in the Python sense. *)
Lemma get_value_spec (c : SudokuMatrixCell.t) :
  (length (SudokuMatrixCell.items c) ≠ 1 →
   SudokuMatrixCell.get_value c = PCell (SudokuMatrixCell.items c))
  ∧ (∀ x, SudokuMatrixCell.items c = [x] → truthy x = true →
          SudokuMatrixCell.get_value c = PItem x)
  ∧ (∀ x, SudokuMatrixCell.items c = [x] → truthy x = false →
          SudokuMatrixCell.get_value c = PCell [x]).
Proof.
  unfold SudokuMatrixCell.get_value. repeat split.
  - destruct (SudokuMatrixCell.items c) as [|x [|y l]]; simpl; congruence.
  - intros x -> ->. reflexivity.
  - intros x -> ->. reflexivity.
Qed.

(** C8 at the failing input: in the matrix built over [0..3] with the
    value 0 for its first cell, that cell holds the single item [0]
    and [get_value] returns the cell (the list [[0]]), not the item
    [0]. *)
Theorem get_value_of_zero_is_the_cell :
  let m := (SudokuMatrix.init (Some (Examples.digits [0; 1; 2; 3]%Z))
              (Some [IInt 0]) None).2.1 in
  let c := SudokuMatrix.deref m 0 in
  SudokuMatrixCell.items c = [IInt 0]
  ∧ SudokuMatrixCell.get_value c = PCell [IInt 0]
  ∧ SudokuMatrixCell.get_value c ≠ PItem (IInt 0).
Proof.
  intros m c. split; [reflexivity|]. split; [reflexivity|]. discriminate.
Qed.


(** ** Construction of a matrix *)

Section Construction.
Import SudokuMatrix Grid.
Context {Q : Type} `{!CellHook Q}.

Lemma or_nat_Some n : SudokuMatrixCell.or_nat (Some n) 0 = n.
Proof. destruct n; reflexivity. Qed.

Lemma fill_with_ok r c m :
  base_sequence m ≠ [] →
  fill_with r c m = Ok (fresh_cell (base_sequence m) (r, c)).
Proof.
  intros Hne. unfold fill_with, SudokuMatrixCell.init, SudokuMatrixCell.reset.
  destruct (base_sequence m) as [|x l] eqn:E; [congruence|].
  cbn -[decide]. unfold mbind, M_bind, modify, get, SudokuMatrixCell.set_answer.
  cbn -[decide]. rewrite decide_True by (left; reflexivity). cbn.
  destruct r, c; reflexivity.
Qed.

Lemma fill_all_ok locations m :
  base_sequence m ≠ [] →
  fill_all locations m = Ok (fresh_cell (base_sequence m) <$> locations).
Proof.
  intros Hne. induction locations as [|[r c] l IH]; [reflexivity|].
  cbn [fill_all]. rewrite fill_with_ok by assumption. rewrite IH. reflexivity.
Qed.

Lemma row_locations (a k : nat) :
  (seq 0 k ≫= λ c, [(a, c)]) = pair a <$> seq 0 k.
Proof.
  generalize 0. induction k as [|k IH]; intros j; [reflexivity|].
  simpl. f_equal; apply IH.
Qed.

Lemma locations_lookup_from (a n k i : nat) (p : nat * nat) :
  (seq a n ≫= λ r, seq 0 k ≫= λ c, [(r, c)]) !! i = Some p →
  p = (a + i / k, i `mod` k) ∧ i < n * k.
Proof.
  revert a i. induction n as [|n IH]; intros a i; simpl; [discriminate|].
  rewrite row_locations. intros H.
  destruct (decide (i < k)) as [Hlt|Hge].
  - rewrite lookup_app_l in H by (rewrite length_fmap, length_seq; exact Hlt).
    rewrite list_lookup_fmap, lookup_seq_lt in H by exact Hlt. simpl in H.
    injection H as <-. rewrite Nat.div_small, Nat.mod_small by exact Hlt.
    split; [f_equal; lia | lia].
  - rewrite lookup_app_r in H by (rewrite length_fmap, length_seq; lia).
    rewrite length_fmap, length_seq in H. apply IH in H as [-> Hi].
    assert (Hk : k ≠ 0) by (intros ->; lia).
    replace i with ((i - k) + 1 * k) at 3 4 by lia.
    rewrite Nat.div_add, Nat.Div0.mod_add by exact Hk.
    split; [f_equal; lia | lia].
Qed.

Lemma length_locations n k : length (locations n k) = n * k.
Proof.
  unfold locations.
  enough (H : ∀ a, length (seq a n ≫= λ r, seq 0 k ≫= λ c, [(r, c)]) = n * k)
    by apply H.
  induction n as [|n IH]; intros a; [reflexivity|].
  simpl. rewrite row_locations, length_app, length_fmap, length_seq, IH. reflexivity.
Qed.

Lemma reset_contents_ok (m : t) (q : Q) :
  base_sequence m ≠ [] →
  reset_contents (m, q)
  = (Ok tt, (with_cells (fresh_cell (base_sequence m) <$> locations (rows m) (columns m)) m, q)).
Proof.
  intros Hne. unfold reset_contents, mbind, M_bind, modify, query. simpl.
  rewrite fill_all_ok by assumption. reflexivity.
Qed.

Lemma has_integer_sqrt_spec n :
  has_integer_sqrt n = true ↔ ∃ b, n = b * b.
Proof.
  unfold has_integer_sqrt. rewrite Nat.eqb_eq. split.
  - intros H. exists (Nat.sqrt n). symmetry. exact H.
  - intros [b ->]. rewrite Nat.sqrt_square. reflexivity.
Qed.

Lemma built_wf b l : 0 < b → Grid.wf (built b l).
Proof.
  intros Hb. unfold Grid.wf, built; simpl.
  split; [exact Hb|]. split; [reflexivity|]. split; [reflexivity|].
  split; [rewrite length_fmap, length_locations; reflexivity|].
  apply Forall_lookup. intros i [j c] H.
  rewrite list_lookup_imap, list_lookup_fmap in H.
  destruct (locations (b * b) (b * b) !! i) as [p|] eqn:E; [|discriminate].
  injection H as <- <-. apply locations_lookup_from in E as [-> _].
  unfold Grid.cell_placed; simpl. auto.
Qed.

Lemma reset_matrix_ok (m : t) (q : Q) kw b :
  0 < b → length (SudokuMatrixCell.or_seq kw (base_sequence m)) = b * b →
  reset_matrix kw None None (m, q)
  = (Ok tt, (built b (SudokuMatrixCell.or_seq kw (base_sequence m)), q)).
Proof.
  intros Hb Hlen. unfold reset_matrix.
  unfold mbind, M_bind, modify, query. cbn -[reset_contents Nat.sqrt Nat.div].
  remember (SudokuMatrixCell.or_seq kw (base_sequence m)) as l eqn:El in *. clear El.
  rewrite Hlen.
  assert (Hn0 : (b * b =? 0) = false) by (apply Nat.eqb_neq; nia).
  rewrite Hn0.
  assert (Hsq : has_integer_sqrt (b * b) = true) by (apply has_integer_sqrt_spec; eauto).
  rewrite Hsq. cbn -[reset_contents Nat.sqrt Nat.div].
  rewrite reset_contents_ok.
  2:{ simpl. intros E. rewrite E in Hlen. simpl in Hlen. nia. }
  cbn -[Nat.sqrt Nat.div]. rewrite Nat.sqrt_square.
  rewrite Nat.div_mul by lia. reflexivity.
Qed.

Lemma reset_matrix_fails (m : t) (q : Q) kw :
  (∀ b, 0 < b → length (SudokuMatrixCell.or_seq kw (base_sequence m)) ≠ b * b) →
  (reset_matrix kw None None (m, q)).1 = Raise SudokuMatrixError.
Proof.
  intros Hno. unfold reset_matrix.
  unfold mbind, M_bind, modify, query. cbn -[reset_contents Nat.sqrt Nat.div].
  remember (SudokuMatrixCell.or_seq kw (base_sequence m)) as l eqn:El in *. clear El.
  destruct (length l =? 0) eqn:E0; [reflexivity|].
  destruct (has_integer_sqrt (length l)) eqn:Es; [|reflexivity].
  apply has_integer_sqrt_spec in Es as [b Eb]. apply Nat.eqb_neq in E0.
  exfalso. apply (Hno b); [nia | exact Eb].
Qed.

End Construction.

(** The constructor on a base sequence that is not empty.  A base
    sequence whose length is a square [b * b] with [b >= 1] gives a
    well-formed matrix of side [b * b] and box size [b]; a base
    sequence that is not empty and whose length is not a square makes
    the constructor raise [SudokuMatrixError]. *)
Theorem constructor_of_matrix (base_sequence : list item) :
  (∀ b, 0 < b → length base_sequence = b * b →
        SudokuMatrix.init (Some base_sequence) None None
        = (Ok tt, (Grid.built b base_sequence, tt))
        ∧ Grid.wf (Grid.built b base_sequence))
  ∧ (base_sequence ≠ [] → (∀ b, length base_sequence ≠ b * b) →
     (SudokuMatrix.init (Some base_sequence) None None).1 = Raise SudokuMatrixError).
Proof.
  split.
  - intros b Hb Hlen. split; [|apply built_wf, Hb].
    unfold SudokuMatrix.init.
    assert (E : SudokuMatrixCell.or_seq (Some base_sequence)
                  (SudokuMatrix.base_sequence SudokuMatrix.blank) = base_sequence).
    { destruct base_sequence; [simpl in Hlen; nia | reflexivity]. }
    rewrite (reset_matrix_ok _ _ _ b);
      [rewrite E; reflexivity | exact Hb | rewrite E; exact Hlen].
  - intros Hne Hno. unfold SudokuMatrix.init. apply reset_matrix_fails.
    destruct base_sequence; [congruence|]. intros b _. apply Hno.
Qed.

Lemma constructor_of_matrix_witness :
  SudokuMatrix.init (Some (Examples.digits [1; 2; 3; 4]%Z)) None None
  = (Ok tt, (Grid.built 2 (Examples.digits [1; 2; 3; 4]%Z), tt))
  ∧ (SudokuMatrix.init (Some (Examples.digits [1; 2; 3; 4; 5]%Z)) None None).1
    = Raise SudokuMatrixError.
Proof.
  split.
  - apply (constructor_of_matrix (Examples.digits [1; 2; 3; 4]%Z)); [lia | reflexivity].
  - apply (constructor_of_matrix (Examples.digits [1; 2; 3; 4; 5]%Z)); [discriminate|].
    intros b. simpl. destruct b as [|[|[|b]]]; lia.
Defined.

(** C9.  [reset_matrix] has a guard that raises [SudokuMatrixError]
    when the base sequence has length 0, and the empty tuple never
    reaches it: [kw.get("base_sequence") or self.base_sequence]
    replaces it by the base sequence the matrix had before.
    [SudokuMatrix(base_sequence=())] does not raise; it returns what
    [SudokuMatrix()] returns, the 9 x 9 matrix over [1..9]. *)
Theorem empty_base_sequence_is_accepted :
  SudokuMatrix.init (Some []) None None = SudokuMatrix.init None None None
  ∧ ∃ m, SudokuMatrix.init (Some []) None None = (Ok tt, (m, tt))
         ∧ Grid.wf m
         ∧ SudokuMatrix.rows m = 9
         ∧ SudokuMatrix.base_sequence m = Examples.digits [1; 2; 3; 4; 5; 6; 7; 8; 9]%Z
         ∧ length (SudokuMatrix.cells m) = 81.
Proof.
  split; [reflexivity|].
  exists (Grid.built 3 SudokuMatrixCell.default_base_sequence).
  split; [|split; [apply built_wf; lia | vm_compute; auto]].
  unfold SudokuMatrix.init.
  rewrite (reset_matrix_ok _ _ _ 3); [reflexivity | lia | reflexivity].
Qed.

(** ** Rows, columns, boxes and units *)

Section Units.
Import SudokuMatrix Grid.

Lemma coords (n i j : nat) :
  j < n → (i * n + j) / n = i ∧ (i * n + j) `mod` n = j.
Proof.
  intros Hj. split.
  - symmetry. apply (Nat.div_unique _ _ _ j); [exact Hj | lia].
  - symmetry. apply (Nat.mod_unique _ _ i); [exact Hj | lia].
Qed.

Lemma box_origin (b x : nat) :
  0 < b → x < b * b →
  b * (x / b) ≤ x ∧ x < b * (x / b) + b ∧ b * (x / b) + b ≤ b * b.
Proof.
  intros Hb Hx.
  assert (H1 := Nat.Div0.mul_div_le x b).
  assert (H2 := Nat.mul_succ_div_gt x b ltac:(lia)).
  assert (H3 : x / b < b) by (apply Nat.Div0.div_lt_upper_bound; lia).
  nia.
Qed.

Lemma div_iff (b y q : nat) :
  0 < b → y / b = q ↔ b * q ≤ y < b * q + b.
Proof.
  intros Hb. split.
  - intros <-. assert (H1 := Nat.Div0.mul_div_le y b).
    assert (H2 := Nat.mul_succ_div_gt y b ltac:(lia)). lia.
  - intros [H1 H2]. symmetry. apply (Nat.div_unique _ _ _ (y - b * q)); lia.
Qed.

Lemma slice_refs_inside len start stop :
  start ≤ stop → stop ≤ len → slice_refs len start stop = seq start (stop - start).
Proof. intros H1 H2. unfold slice_refs. f_equal. lia. Qed.

Lemma stride_refs_column (n c : nat) :
  c < n → stride_refs (n * n) c n = (λ k, c + k * n) <$> seq 0 n.
Proof.
  intros Hc. unfold stride_refs. f_equal. f_equal.
  symmetry. apply (Nat.div_unique _ _ _ (n - 1 - c)); [lia | nia].
Qed.

Lemma length_bind_const {A B} (f : A → list B) (l : list A) (k : nat) :
  (∀ x, x ∈ l → length (f x) = k) → length (l ≫= f) = length l * k.
Proof.
  induction l as [|x l IH]; intros H; [reflexivity|].
  rewrite bind_cons, length_app, IH, H; [simpl; lia | left |].
  intros y Hy. apply H. right. exact Hy.
Qed.

Lemma get_row_cells_wf m r :
  Grid.wf m → r < rows m → get_row_cells r m = Ok (row_refs m r).
Proof.
  intros (Hb & HN & Hc & Hlen & _) Hr. unfold get_row_cells, ensure_inbounds.
  assert (E1 : (r <? rows m) = true) by (apply Nat.ltb_lt; exact Hr).
  assert (E2 : (0 <? columns m) = true) by (apply Nat.ltb_lt; nia).
  rewrite E1, E2. simpl. f_equal. rewrite slice_refs_inside by nia.
  unfold row_refs. f_equal. lia.
Qed.

Lemma get_column_cells_wf m c :
  Grid.wf m → c < columns m → get_column_cells c m = Ok (column_refs m c).
Proof.
  intros (Hb & HN & Hc & Hlen & _) Hcc. unfold get_column_cells, ensure_inbounds.
  assert (E1 : (0 <? rows m) = true) by (apply Nat.ltb_lt; nia).
  assert (E2 : (c <? columns m) = true) by (apply Nat.ltb_lt; exact Hcc).
  rewrite E1, E2. simpl. f_equal. unfold column_refs. rewrite Hlen, Hc.
  rewrite stride_refs_column by lia. reflexivity.
Qed.

Lemma get_box_cells_wf m r c :
  Grid.wf m → r < rows m → c < columns m → get_box_cells r c m = Ok (box_refs m r c).
Proof.
  intros (Hb & HN & Hc & Hlen & _) Hr Hcc. unfold get_box_cells, ensure_inbounds.
  assert (E1 : (r <? rows m) = true) by (apply Nat.ltb_lt; exact Hr).
  assert (E2 : (c <? columns m) = true) by (apply Nat.ltb_lt; exact Hcc).
  assert (E3 : (box_size m =? 0) = false) by (apply Nat.eqb_neq; lia).
  rewrite E1, E2, E3. simpl. f_equal. unfold box_refs.
  destruct (box_origin (box_size m) r Hb) as (_ & _ & Hr0); [lia|].
  destruct (box_origin (box_size m) c Hb) as (_ & _ & Hc0); [lia|].
  apply Forall_bind_ext, Forall_forall. intros i Hi%elem_of_seq.
  rewrite slice_refs_inside by nia. f_equal. lia.
Qed.

Lemma get_unit_cells_wf m r c :
  Grid.wf m → r < rows m → c < columns m →
  get_unit_cells r c m
  = Ok (list_to_set (row_refs m r ++ column_refs m c ++ box_refs m r c)).
Proof.
  intros Hwf Hr Hc. unfold get_unit_cells.
  rewrite get_row_cells_wf, get_column_cells_wf, get_box_cells_wf by assumption.
  reflexivity.
Qed.

(** Where the cells of a row, a column and a box lie. *)
Lemma elem_of_row_refs m r x :
  Grid.wf m → r < rows m →
  x ∈ row_refs m r ↔ x < length (cells m) ∧ x / columns m = r.
Proof.
  intros (Hb & HN & Hc & Hlen & _) Hr. unfold row_refs. rewrite elem_of_seq.
  assert (Hn : columns m ≠ 0) by nia. split.
  - intros [H1 H2]. split; [nia|].
    replace x with (r * columns m + (x - r * columns m)) by lia.
    apply coords. lia.
  - intros [H1 <-].
    assert (H := Nat.div_mod_eq x (columns m)).
    assert (H' := Nat.mod_upper_bound x (columns m) Hn). nia.
Qed.

Lemma elem_of_column_refs m c x :
  Grid.wf m → c < columns m →
  x ∈ column_refs m c ↔ x < length (cells m) ∧ x `mod` columns m = c.
Proof.
  intros (Hb & HN & Hc & Hlen & _) Hcc. unfold column_refs.
  rewrite list_elem_of_fmap. assert (Hn : columns m ≠ 0) by nia. split.
  - intros (k & -> & Hk%elem_of_seq). split; [nia|].
    replace (c + k * columns m) with (k * columns m + c) by lia.
    apply coords. exact Hcc.
  - intros [H1 <-]. exists (x / columns m). rewrite elem_of_seq.
    assert (H := Nat.div_mod_eq x (columns m)).
    assert (H' := Nat.mod_upper_bound x (columns m) Hn).
    split; [lia|]. split; [lia|]. simpl.
    apply Nat.Div0.div_lt_upper_bound. nia.
Qed.

Lemma elem_of_box_refs m r c x :
  Grid.wf m → r < rows m → c < columns m →
  x ∈ box_refs m r c ↔
  x < length (cells m)
  ∧ x / columns m / box_size m = r / box_size m
  ∧ x `mod` columns m / box_size m = c / box_size m.
Proof.
  intros (Hb & HN & Hc & Hlen & _) Hr Hcc. unfold box_refs.
  rewrite list_elem_of_bind. assert (Hn : columns m ≠ 0) by nia.
  destruct (box_origin (box_size m) r Hb) as (Hr1 & Hr2 & Hr3); [lia|].
  destruct (box_origin (box_size m) c Hb) as (Hc1 & Hc2 & Hc3); [lia|].
  set (b := box_size m) in *. set (n := columns m) in *.
  assert (Hdiv := λ y q, div_iff b y q Hb).
  split.
  - intros (i & Hx%elem_of_seq & Hi%elem_of_seq).
    destruct (coords n i (x - i * n)) as [E1 E2]; [lia|].
    replace (i * n + (x - i * n)) with x in * by lia.
    split; [nia|]. rewrite E1, E2. split; apply Hdiv; lia.
  - intros (Hx & H1 & H2). exists (x / n). rewrite !elem_of_seq.
    apply Hdiv in H1, H2.
    assert (H := Nat.div_mod_eq x n). lia.
Qed.

Lemma elem_of_row_rest m r c x :
  Grid.wf m → r < rows m → c < columns m →
  x ∈ row_rest m r c ↔ x ∈ row_refs m r ∧ x ∉ box_refs m r c.
Proof.
  intros Hwf Hr Hcc. rewrite elem_of_row_refs, elem_of_box_refs by assumption.
  destruct Hwf as (Hb & HN & Hc & Hlen & _). unfold row_rest.
  rewrite list_elem_of_fmap. assert (Hn : columns m ≠ 0) by nia.
  destruct (box_origin (box_size m) c Hb) as (Hc1 & Hc2 & Hc3); [lia|].
  set (b := box_size m) in *. set (n := columns m) in *.
  assert (Hdiv := λ y q, div_iff b y q Hb). split.
  - intros (j & -> & Hj). rewrite elem_of_app, !elem_of_seq in Hj.
    destruct (coords n r j) as [E1 E2]; [lia|]. rewrite E1, E2.
    split; [split; [nia | reflexivity]|].
    intros (_ & _ & H%Hdiv). lia.
  - intros [[Hx <-] Hnb]. exists (x `mod` n).
    assert (H := Nat.div_mod_eq x n).
    assert (H' := Nat.mod_upper_bound x n Hn).
    split; [lia|]. rewrite elem_of_app, !elem_of_seq.
    destruct (decide (x `mod` n / b = c / b)) as [E|E]; [tauto|].
    rewrite Hdiv in E. lia.
Qed.

Lemma elem_of_column_rest m r c x :
  Grid.wf m → r < rows m → c < columns m →
  x ∈ column_rest m r c ↔ x ∈ column_refs m c ∧ x ∉ box_refs m r c.
Proof.
  intros Hwf Hr Hcc. rewrite elem_of_column_refs, elem_of_box_refs by assumption.
  destruct Hwf as (Hb & HN & Hc & Hlen & _). unfold column_rest.
  rewrite list_elem_of_fmap. assert (Hn : columns m ≠ 0) by nia.
  destruct (box_origin (box_size m) r Hb) as (Hr1 & Hr2 & Hr3); [lia|].
  set (b := box_size m) in *. set (n := columns m) in *.
  assert (Hdiv := λ y q, div_iff b y q Hb). split.
  - intros (i & -> & Hi). rewrite elem_of_app, !elem_of_seq in Hi.
    destruct (coords n i c) as [E1 E2]; [lia|]. rewrite E1, E2.
    split; [split; [nia | reflexivity]|].
    intros (_ & H%Hdiv & _). lia.
  - intros [[Hx <-] Hnb]. exists (x / n).
    assert (H := Nat.div_mod_eq x n).
    assert (H' := Nat.mod_upper_bound x n Hn).
    split; [lia|]. rewrite elem_of_app, !elem_of_seq.
    assert (Hq : x / n < n) by (apply Nat.Div0.div_lt_upper_bound; nia).
    destruct (decide (x / n / b = r / b)) as [E|E]; [tauto|].
    rewrite Hdiv in E. lia.
Qed.

Lemma NoDup_rest (f : nat → nat) (a k d : nat) :
  Inj (=) (=) f → NoDup (f <$> (seq 0 a ++ seq (a + k) d)).
Proof.
  intros Hf. apply (NoDup_fmap_2 f). apply NoDup_app.
  split; [apply NoDup_seq|]. split; [|apply NoDup_seq].
  intros x. rewrite !elem_of_seq. lia.
Qed.

Lemma NoDup_box_refs m r c : Grid.wf m → r < rows m → c < columns m → NoDup (box_refs m r c).
Proof.
  intros (Hb & HN & Hc & Hlen & _) Hr Hcc. unfold box_refs.
  destruct (box_origin (box_size m) c Hb) as (Hc1 & Hc2 & Hc3); [lia|].
  apply NoDup_bind; [| intros; apply NoDup_seq | apply NoDup_seq].
  intros i1 i2 y _ _ H1%elem_of_seq H2%elem_of_seq. nia.
Qed.

Lemma size_unit m r c :
  Grid.wf m → r < rows m → c < columns m →
  size (list_to_set (C:=gset nat) (row_refs m r ++ column_refs m c ++ box_refs m r c))
  = 3 * rows m - 2 * box_size m.
Proof.
  intros Hwf Hr Hcc.
  assert (HB := NoDup_box_refs m r c Hwf Hr Hcc).
  assert (ER := λ x, elem_of_row_rest m r c x Hwf Hr Hcc).
  assert (EC := λ x, elem_of_column_rest m r c x Hwf Hr Hcc).
  assert (Hcross : ∀ x, x ∈ row_refs m r → x ∈ column_refs m c → x ∈ box_refs m r c).
  { intros x. rewrite elem_of_row_refs, elem_of_column_refs, elem_of_box_refs by assumption.
    intros [H1 <-] [_ <-]. auto. }
  assert (E : list_to_set (C:=gset nat) (row_refs m r ++ column_refs m c ++ box_refs m r c)
              = list_to_set (box_refs m r c)
                ∪ (list_to_set (row_rest m r c) ∪ list_to_set (column_rest m r c))).
  { apply set_eq. intros x.
    rewrite !elem_of_union, !elem_of_list_to_set, !elem_of_app, ER, EC.
    destruct (decide (x ∈ box_refs m r c)); tauto. }
  rewrite E. rewrite size_union.
  2:{ apply elem_of_disjoint. intros x.
      rewrite elem_of_union, !elem_of_list_to_set, ER, EC. tauto. }
  rewrite size_union.
  2:{ apply elem_of_disjoint. intros x.
      rewrite !elem_of_list_to_set, ER, EC. intros [H1 H2] [H3 _]. auto. }
  destruct Hwf as (Hb & HN & Hc & Hlen & _).
  assert (Hn : columns m ≠ 0) by nia.
  rewrite !size_list_to_set.
  - unfold box_refs, row_rest, column_rest.
    rewrite (length_bind_const _ _ (box_size m)) by (intros; apply length_seq).
    rewrite !length_fmap, !length_app, !length_seq.
    destruct (box_origin (box_size m) r Hb) as (Hr1 & Hr2 & Hr3); [lia|].
    destruct (box_origin (box_size m) c Hb) as (Hc1 & Hc2 & Hc3); [lia|].
    nia.
  - apply NoDup_rest. intros i j. nia.
  - apply NoDup_rest. intros i j. lia.
  - exact HB.
Qed.

End Units.

(** C6, as the program has it.  On a well-formed matrix of side [N]
    and box size [b], [get_unit_cells] returns, for every location
    inside the matrix, a set of exactly [3 * N - 2 * b] cells: the row,
    the column and the box of the location, the cell of the location
    included. *)
Theorem unit_has_3N_minus_2b_cells (m : SudokuMatrix.t) (row column : nat) :
  Grid.wf m → row < SudokuMatrix.rows m → column < SudokuMatrix.columns m →
  ∃ u, SudokuMatrix.get_unit_cells row column m = Ok u
       ∧ size u = 3 * SudokuMatrix.rows m - 2 * SudokuMatrix.box_size m
       ∧ Grid.ref m row column ∈ u
       ∧ ∀ x, x ∈ u ↔ x ∈ Grid.row_refs m row ∨ x ∈ Grid.column_refs m column
                       ∨ x ∈ Grid.box_refs m row column.
Proof.
  intros Hwf Hr Hc. eexists. split; [apply get_unit_cells_wf; assumption|].
  split; [apply size_unit; assumption|]. split.
  - rewrite elem_of_list_to_set, elem_of_app. left.
    unfold Grid.row_refs, Grid.ref. apply elem_of_seq. lia.
  - intros x. rewrite elem_of_list_to_set, !elem_of_app. reflexivity.
Qed.

Lemma unit_has_3N_minus_2b_cells_witness :
  ∃ u, SudokuMatrix.get_unit_cells 4 5 Examples.matrix9 = Ok u
       ∧ size u = 21
       ∧ 41 ∈ u
       ∧ ∀ x, x ∈ u ↔ x ∈ Grid.row_refs Examples.matrix9 4
                       ∨ x ∈ Grid.column_refs Examples.matrix9 5
                       ∨ x ∈ Grid.box_refs Examples.matrix9 4 5.
Proof.
  apply (unit_has_3N_minus_2b_cells Examples.matrix9 4 5).
  - by_compute.
  - vm_compute. lia.
  - vm_compute. lia.
Defined.

(** C6 as stated fails: the unit of the location (0, 0) of the 9 x 9
    matrix has 21 cells, not [3 * 9 - 2 * 3 - 1 = 20]. *)
Lemma unit_of_9x9_has_21_cells :
  ∃ u, SudokuMatrix.get_unit_cells 0 0 Examples.matrix9 = Ok u
       ∧ size u = 21
       ∧ size u ≠ 3 * 9 - 2 * 3 - 1.
Proof.
  eexists. split; [vm_compute; reflexivity|]. split; [reflexivity | discriminate].
Qed.

(** ** How the cells of a matrix change *)

Section Relations.
Import SudokuMatrix Grid.

Lemma with_items_id c : SudokuMatrixCell.with_items (SudokuMatrixCell.items c) c = c.
Proof. destruct c; reflexivity. Qed.

Lemma with_cells_id m : with_cells (cells m) m = m.
Proof. destruct m; reflexivity. Qed.

Lemma cell_shrinks_refl c : cell_shrinks c c.
Proof.
  split; [symmetry; apply with_items_id|]. split; [reflexivity | auto].
Qed.

Lemma cell_shrinks_trans c1 c2 c3 :
  cell_shrinks c1 c2 → cell_shrinks c2 c3 → cell_shrinks c1 c3.
Proof.
  intros (E1 & S1 & L1) (E2 & S2 & L2). split; [|split].
  - rewrite E2, E1. reflexivity.
  - etransitivity; eassumption.
  - intros H. rewrite <- (L1 H) in *. apply L2. rewrite (L1 H). exact H.
Qed.

Lemma cell_shrinks_empty c c' :
  cell_shrinks c c' → SudokuMatrixCell.items c = [] → c' = c.
Proof.
  intros (E & S & _) H. rewrite H in S. apply sublist_nil_r in S.
  rewrite E, S, <- H. apply with_items_id.
Qed.

Lemma cell_shrinks_evolves c c' : cell_shrinks c c' → cell_evolves c c'.
Proof.
  intros Hs. pose proof Hs as (E & S & L).
  repeat split; try (rewrite E; reflexivity); auto.
  apply cell_shrinks_empty, Hs.
Qed.

Lemma cell_evolves_refl c : cell_evolves c c.
Proof. repeat split; auto. Qed.

Lemma cell_evolves_trans c1 c2 c3 :
  cell_evolves c1 c2 → cell_evolves c2 c3 → cell_evolves c1 c3.
Proof.
  intros (R1 & K1 & B1 & S1 & L1 & N1) (R2 & K2 & B2 & S2 & L2 & N2).
  repeat split; try congruence.
  - etransitivity; eassumption.
  - intros H. rewrite <- (L1 H) in *. apply L2. rewrite (L1 H). exact H.
  - intros H. rewrite <- (N1 H) in *. apply N2. rewrite (N1 H). exact H.
Qed.

Lemma same_frame_refl m : same_frame m m.
Proof. repeat split. Qed.

Lemma same_frame_trans m1 m2 m3 :
  same_frame m1 m2 → same_frame m2 m3 → same_frame m1 m3.
Proof. unfold same_frame. intuition congruence. Qed.

Lemma related_refl P m : (∀ c, P c c) → related P m m.
Proof.
  intros HP. split; [apply same_frame_refl|].
  apply Forall2_same_length_lookup. split; [reflexivity|].
  intros i x y H1 H2. rewrite H1 in H2. injection H2 as <-. apply HP.
Qed.

Lemma related_trans P m1 m2 m3 :
  (∀ a b c, P a b → P b c → P a c) →
  related P m1 m2 → related P m2 m3 → related P m1 m3.
Proof.
  intros HP [F1 H1] [F2 H2]. split; [eapply same_frame_trans; eassumption|].
  eapply Forall2_trans; [|eassumption..]. intros a b c. apply HP.
Qed.

Lemma related_weaken (P P' : SudokuMatrixCell.t → SudokuMatrixCell.t → Prop) m m' :
  (∀ c c', P c c' → P' c c') → related P m m' → related P' m m'.
Proof.
  intros HP [F H]. split; [exact F|]. eapply Forall2_impl; [exact H | exact HP].
Qed.

Lemma related_lookup P m m' i c :
  related P m m' → cells m !! i = Some c →
  ∃ c', cells m' !! i = Some c' ∧ P c c'.
Proof. intros [_ H] Hi. eapply Forall2_lookup_l; eassumption. Qed.

Lemma related_length P m m' : related P m m' → length (cells m') = length (cells m).
Proof. intros [_ H]. symmetry. eapply Forall2_length, H. Qed.

Lemma deref_lookup m i c : cells m !! i = Some c → deref m i = c.
Proof. intros H. unfold deref. rewrite H. reflexivity. Qed.

Lemma deref_valid m i :
  i < length (cells m) → cells m !! i = Some (deref m i).
Proof.
  intros H. destruct (lookup_lt_is_Some_2 _ _ H) as [c Hc].
  rewrite (deref_lookup _ _ _ Hc). exact Hc.
Qed.

Lemma wf_lookup m i c :
  wf m → cells m !! i = Some c → cell_placed m i c.
Proof.
  intros (_ & _ & _ & _ & H) Hi. rewrite Forall_lookup in H.
  apply (H i (i, c)). rewrite list_lookup_imap, Hi. reflexivity.
Qed.

Lemma wf_related m m' : wf m → related cell_evolves m m' → wf m'.
Proof.
  intros Hwf Hrel. pose proof Hwf as (Hb & HN & Hc & Hlen & _).
  pose proof Hrel as [(F1 & F2 & F3 & F4) HF].
  unfold wf. rewrite F1, F2, F4, (related_length _ _ _ Hrel).
  repeat split; try assumption.
  apply Forall_lookup. intros i p H. rewrite list_lookup_imap in H.
  destruct (cells m' !! i) as [c''|] eqn:E; [|discriminate]. injection H as <-.
  simpl. destruct (Forall2_lookup_r _ _ _ _ _ HF E) as (c & Hc0 & (R & K & B & _)).
  destruct (wf_lookup m i c Hwf Hc0) as (P1 & P2 & P3).
  unfold cell_placed. rewrite R, K, B, F2, F3. auto.
Qed.

(** The cell of a valid reference lies inside the matrix. *)
Lemma wf_location m i :
  wf m → i < length (cells m) →
  SudokuMatrixCell.row (deref m i) < rows m
  ∧ SudokuMatrixCell.column (deref m i) < columns m
  ∧ ref m (SudokuMatrixCell.row (deref m i)) (SudokuMatrixCell.column (deref m i)) = i.
Proof.
  intros Hwf Hi. destruct (wf_lookup m i _ Hwf (deref_valid m i Hi)) as (R & K & _).
  destruct Hwf as (Hb & HN & Hc & Hlen & _). rewrite R, K.
  assert (Hn : columns m ≠ 0) by nia.
  split; [apply Nat.Div0.div_lt_upper_bound; nia|].
  split; [apply Nat.mod_upper_bound; exact Hn|].
  unfold ref. assert (H := Nat.div_mod_eq i (columns m)). lia.
Qed.

Lemma total_insert m i c c' :
  cells m !! i = Some c →
  total (with_cells (<[i := c']> (cells m)) m) + open_items c = total m + open_items c'.
Proof.
  unfold total. simpl. generalize (cells m). clear m. intros l. revert i.
  induction l as [|x l IH]; intros i; [discriminate|].
  destruct i as [|i]; csimpl.
  - intros [= ->]. lia.
  - intros H. specialize (IH i H). lia.
Qed.

Lemma open_items_evolves c c' : cell_evolves c c' → open_items c' ≤ open_items c.
Proof.
  intros (_ & _ & _ & S & L & _). unfold open_items.
  destruct (SudokuMatrixCell.solved c) eqn:E.
  - rewrite (L eq_refl), E. lia.
  - apply sublist_length in S. destruct (SudokuMatrixCell.solved c'); lia.
Qed.

Lemma total_evolves m m' : related cell_evolves m m' → total m' ≤ total m.
Proof.
  intros [_ H]. unfold total. induction H as [|c c' l l' Hc _ IH]; csimpl; [lia|].
  apply open_items_evolves in Hc. lia.
Qed.

Lemma items_at_shrinks P m m' i x :
  (∀ c c', P c c' → SudokuMatrixCell.items c' `sublist_of` SudokuMatrixCell.items c) →
  related P m m' → x ∉ items_at m i → x ∉ items_at m' i.
Proof.
  intros HP Hrel Hx. unfold items_at, deref in *.
  destruct (cells m' !! i) as [c'|] eqn:E; simpl; [|apply not_elem_of_nil].
  destruct Hrel as [_ HF]. destruct (Forall2_lookup_r _ _ _ _ _ HF E) as (c & Hc & Hcc).
  rewrite Hc in Hx. simpl in Hx. intros Hin. apply Hx.
  eapply elem_of_sublist; [exact Hin | apply HP, Hcc].
Qed.

Lemma contradiction_evolves m m' i :
  related cell_evolves m m' → contradiction m i → contradiction m' i.
Proof.
  intros Hrel (c & Hc & Hs & Hi).
  destruct (related_lookup _ _ _ _ _ Hrel Hc) as (c' & Hc' & (_ & _ & _ & _ & _ & N)).
  exists c'. rewrite (N Hi) in *. auto.
Qed.

End Relations.

(** ** Method calls on the cells of a matrix *)

Section Calls.
Import SudokuMatrix Grid.
Context {Q : Type} `{!CellHook Q}.

Lemma cell_call_valid i method (s : t * Q) c called c' :
  cells s.1 !! i = Some c → method c = (Ok called, c') →
  cell_call i method s
  = (Ok tt, (with_cells (<[i := c']> (cells s.1)) s.1,
             if called then on_unique_value i s.2 else s.2)).
Proof.
  intros Hc Hm. unfold cell_call. rewrite (deref_lookup _ _ _ Hc), Hm. simpl.
  destruct called; reflexivity.
Qed.

Lemma related_insert (P : SudokuMatrixCell.t → SudokuMatrixCell.t → Prop) m i c c' :
  (∀ x, P x x) → cells m !! i = Some c → P c c' →
  related P m (with_cells (<[i := c']> (cells m)) m).
Proof.
  intros HP Hc Hcc. split; [repeat split|]. simpl.
  rewrite <- (list_insert_id (cells m) i c Hc) at 1.
  apply Forall2_insert; [|exact Hcc].
  apply Forall2_same_length_lookup. split; [reflexivity|].
  intros j x y H1 H2. rewrite H1 in H2. injection H2 as <-. apply HP.
Qed.

Lemma items_at_insert m i c' j :
  i < length (cells m) →
  items_at (with_cells (<[i := c']> (cells m)) m) j
  = if decide (i = j) then SudokuMatrixCell.items c' else items_at m j.
Proof.
  intros Hi. unfold items_at, deref. simpl. destruct (decide (i = j)) as [->|Hne].
  - rewrite list_lookup_insert_eq by exact Hi. reflexivity.
  - rewrite list_lookup_insert_ne by exact Hne. reflexivity.
Qed.

(** [strip_value] on the cell of a valid reference. *)
Lemma strip_call (s : t * Q) i value :
  i < length (cells s.1) →
  ∃ (called : bool) l',
    cell_call i (SudokuMatrixCell.strip_value value) s
    = (Ok tt, (with_cells (<[i := SudokuMatrixCell.with_items l' (deref s.1 i)]> (cells s.1)) s.1,
               if called then on_unique_value i s.2 else s.2))
    ∧ cell_shrinks (deref s.1 i) (SudokuMatrixCell.with_items l' (deref s.1 i))
    ∧ (called = true → solved_at s.1 i = false ∧ length (items_at s.1 i) = 2 ∧ length l' = 1)
    ∧ (∀ v, value = PItem v → solved_at s.1 i = false → NoDup (items_at s.1 i) → v ∉ l').
Proof.
  intros Hi. pose proof (deref_valid _ _ Hi) as Hc.
  destruct (strip_value_spec value (deref s.1 i))
    as (b & l' & E & Hsub & Hlock & _ & Hb & _ & Hv).
  exists b, l'. split; [apply (cell_call_valid _ _ _ _ _ _ Hc E)|].
  split; [|split; [|exact Hv]].
  - split; [reflexivity|]. split; [exact Hsub|].
    intros Hs. destruct (Hlock Hs) as [-> _]. apply with_items_id.
  - intros ->. split; [|apply Hb; reflexivity]. unfold solved_at.
    destruct (SudokuMatrixCell.solved (deref s.1 i)); [|reflexivity].
    destruct (Hlock eq_refl) as [_ ?]. discriminate.
Qed.

Lemma shrinks_solved_at m m' i :
  related cell_shrinks m m' → solved_at m' i = solved_at m i.
Proof.
  intros [_ HF]. unfold solved_at, deref.
  destruct (cells m !! i) as [c|] eqn:E.
  - destruct (Forall2_lookup_l _ _ _ _ _ HF E) as (c' & -> & (Ec & _)).
    simpl. rewrite Ec. reflexivity.
  - apply lookup_ge_None in E. rewrite (Forall2_length _ _ _ HF) in E.
    apply lookup_ge_None in E. rewrite E. reflexivity.
Qed.

Lemma shrinks_items_at m m' i :
  related cell_shrinks m m' → items_at m' i `sublist_of` items_at m i.
Proof.
  intros [_ HF]. unfold items_at, deref.
  destruct (cells m !! i) as [c|] eqn:E.
  - destruct (Forall2_lookup_l _ _ _ _ _ HF E) as (c' & -> & (_ & S & _)). exact S.
  - apply lookup_ge_None in E. rewrite (Forall2_length _ _ _ HF) in E.
    apply lookup_ge_None in E. rewrite E. reflexivity.
Qed.

Lemma shrinks_wf m m' : wf m → related cell_shrinks m m' → wf m'.
Proof.
  intros Hwf H. apply (wf_related m); [exact Hwf|].
  eapply related_weaken; [apply cell_shrinks_evolves | exact H].
Qed.

(** The loop of [SudokuMatrix.strip_value] over the cells of a set. *)
Lemma strip_loop (m : t) (q : Q) (l : list nat) (v : item) :
  (∀ j, j ∈ l → j < length (cells m)) →
  ∃ s', for_each l (λ i, cell_call i (SudokuMatrixCell.strip_value (PItem v))) (m, q)
        = (Ok tt, s')
        ∧ related cell_shrinks m s'.1
        ∧ ∀ j, j ∈ l → solved_at m j = false → NoDup (items_at m j) → v ∉ items_at s'.1 j.
Proof.
  intros Hl.
  destruct (for_each_establishes
              (λ s : t * Q, related cell_shrinks m s.1)
              (λ s s' : t * Q, related cell_shrinks s.1 s'.1)
              (λ j (s : t * Q), solved_at m j = false → NoDup (items_at m j) → v ∉ items_at s.1 j)
              l (λ i, cell_call i (SudokuMatrixCell.strip_value (PItem v))))
    with (s := (m, q)) as (s' & E & I' & _ & HP).
  - intros s. apply related_refl, cell_shrinks_refl.
  - intros s1 s2 s3. apply related_trans, cell_shrinks_trans.
  - intros j s s' Hrel HPj Hs Hnd.
    eapply items_at_shrinks; [| exact Hrel | exact (HPj Hs Hnd)].
    intros c c' (_ & S & _). exact S.
  - intros j s Hj Hrel.
    assert (Hlen : j < length (cells s.1)).
    { rewrite (related_length _ _ _ Hrel). apply Hl, Hj. }
    destruct (strip_call s j (PItem v) Hlen) as (b & l' & E & Hsh & _ & Hv).
    eexists. split; [exact E|].
    assert (Hstep : related cell_shrinks s.1
              (with_cells (<[j := SudokuMatrixCell.with_items l' (deref s.1 j)]> (cells s.1)) s.1)).
    { apply (related_insert _ _ _ (deref s.1 j));
        [apply cell_shrinks_refl | apply deref_valid, Hlen | exact Hsh]. }
    split; [eapply related_trans; [apply cell_shrinks_trans | exact Hrel | exact Hstep]|].
    split; [exact Hstep|].
    intros Hs Hnd. simpl. rewrite items_at_insert by exact Hlen.
    rewrite decide_True by reflexivity. simpl. apply (Hv v eq_refl).
    + rewrite (shrinks_solved_at _ _ _ Hrel). exact Hs.
    + eapply sublist_NoDup; [exact Hnd | apply shrinks_items_at, Hrel].
  - apply related_refl, cell_shrinks_refl.
  - exists s'. auto.
Qed.

Lemma unit_refs_valid m r c x :
  wf m → r < rows m → c < columns m →
  x ∈ row_refs m r ++ column_refs m c ++ box_refs m r c → x < length (cells m).
Proof.
  intros Hwf Hr Hc. rewrite !elem_of_app.
  rewrite elem_of_row_refs, elem_of_column_refs, elem_of_box_refs by assumption.
  tauto.
Qed.

Lemma at_wf m r c : wf m → r < rows m → c < columns m → at_ r c m = Ok (ref m r c).
Proof.
  intros (Hb & HN & Hc & Hlen & _) Hr Hcc. unfold at_, ensure_inbounds.
  assert (E1 : (r <? rows m) = true) by (apply Nat.ltb_lt; exact Hr).
  assert (E2 : (c <? columns m) = true) by (apply Nat.ltb_lt; exact Hcc).
  rewrite E1, E2. simpl.
  assert (E3 : (r * columns m + c <? length (cells m)) = true) by (apply Nat.ltb_lt; nia).
  rewrite E3. reflexivity.
Qed.

End Calls.

(** C1, as the program has it.  On a well-formed matrix, for a
    location inside it and an item [v] of the base sequence,
    [strip_value(v, row, column)] returns normally, whether the cell
    of the location is locked or not.  Afterwards [v] is in no other
    cell of the unit that was not locked and had no duplicate item.
    If the cell of the location was not locked it holds the single
    item [v], which is what [get_value] returns when [v] is true in
    the Python sense.  Locked cells, the cell of the location
    included, keep what they hold. *)
Theorem strip_value_commits {Q : Type} `{!CellHook Q} (m : SudokuMatrix.t) (q : Q)
    (row column : nat) (v : item) :
  Grid.wf m → row < SudokuMatrix.rows m → column < SudokuMatrix.columns m →
  v ∈ SudokuMatrix.base_sequence m →
  ∃ m' q' u,
    SudokuMatrix.strip_value (PItem v) row column (m, q) = (Ok tt, (m', q'))
    ∧ SudokuMatrix.get_unit_cells row column m = Ok u
    ∧ (Grid.solved_at m (Grid.ref m row column) = false →
       Grid.items_at m' (Grid.ref m row column) = [v]
       ∧ (truthy v = true →
          SudokuMatrixCell.get_value (SudokuMatrix.deref m' (Grid.ref m row column))
          = PItem v))
    ∧ (∀ j, j ∈ u → j ≠ Grid.ref m row column →
            Grid.solved_at m j = false → NoDup (Grid.items_at m j) →
            v ∉ Grid.items_at m' j)
    ∧ (∀ j, Grid.solved_at m j = true → SudokuMatrix.deref m' j = SudokuMatrix.deref m j).
Proof.
  intros Hwf Hr Hc Hv.
  set (u := list_to_set (C:=gset nat)
              (Grid.row_refs m row ++ Grid.column_refs m column ++ Grid.box_refs m row column)).
  assert (Hu : ∀ j, j ∈ elements u → j < length (SudokuMatrix.cells m)).
  { intros j Hj. apply elem_of_elements, elem_of_list_to_set in Hj.
    eapply unit_refs_valid; eassumption. }
  destruct (strip_loop m q (elements u) v Hu) as ([m1 q1] & E1 & Hrel & Hstripped).
  simpl in Hrel, Hstripped.
  pose proof (shrinks_wf _ _ Hwf Hrel) as Hwf1.
  pose proof Hrel as [(F1 & F2 & F3 & F4) _].
  set (t := Grid.ref m row column) in *.
  assert (Ht : t < length (SudokuMatrix.cells m1)).
  { rewrite (related_length _ _ _ Hrel). destruct Hwf as (Hb & HN & Hcc & Hlen & _).
    unfold t, Grid.ref. nia. }
  pose proof (deref_valid _ _ Ht) as Hc1.
  assert (Hs1 : SudokuMatrixCell.solved (SudokuMatrix.deref m1 t) = Grid.solved_at m t).
  { apply (shrinks_solved_at _ _ _ Hrel). }
  assert (Hb1 : v ∈ SudokuMatrixCell.base_sequence (SudokuMatrix.deref m1 t)).
  { destruct (wf_lookup _ _ _ Hwf1 Hc1) as (_ & _ & ->). rewrite F3. exact Hv. }
  assert (Hkeep : ∀ j, Grid.solved_at m j = true →
                       SudokuMatrix.deref m1 j = SudokuMatrix.deref m j).
  { intros j Hsj. unfold SudokuMatrix.deref. destruct Hrel as [_ HF].
    destruct (SudokuMatrix.cells m !! j) as [c|] eqn:E.
    - destruct (Forall2_lookup_l _ _ _ _ _ HF E) as (c' & -> & (_ & _ & L)).
      simpl. apply L. unfold Grid.solved_at in Hsj.
      rewrite (deref_lookup _ _ _ E) in Hsj. exact Hsj.
    - apply lookup_ge_None in E. rewrite (Forall2_length _ _ _ HF) in E.
      apply lookup_ge_None in E. rewrite E. reflexivity. }
  assert (Eset : ∃ b c', SudokuMatrixCell.set_value (PItem v) (SudokuMatrix.deref m1 t)
                         = (Ok b, c')
                         ∧ c' = if Grid.solved_at m t
                                then SudokuMatrix.deref m1 t
                                else SudokuMatrixCell.with_items [v] (SudokuMatrix.deref m1 t)).
  { unfold SudokuMatrixCell.set_value. rewrite Hs1.
    destruct (Grid.solved_at m t); [eauto|].
    destruct v; eauto; rewrite decide_True by exact Hb1; eauto. }
  destruct Eset as (b & c' & Eset & Ec').
  eexists _, _, u. split; [|split; [apply get_unit_cells_wf; assumption|]].
  - unfold SudokuMatrix.strip_value. rewrite bind_unfold. unfold query at 1. simpl.
    rewrite get_unit_cells_wf by assumption. fold u.
    rewrite bind_unfold, E1. rewrite bind_unfold. unfold query. simpl.
    rewrite at_wf by (rewrite ?F1, ?F2; assumption).
    unfold Grid.ref. rewrite F2. fold (Grid.ref m row column). fold t.
    apply (cell_call_valid _ _ (m1, q1) _ _ _ Hc1 Eset).
  - simpl. split; [|split].
    + intros Hs. rewrite Hs in Ec'. subst c'. split.
      * rewrite items_at_insert by exact Ht. rewrite decide_True by reflexivity. reflexivity.
      * intros Htr. unfold SudokuMatrix.deref. simpl.
        rewrite list_lookup_insert_eq by exact Ht. simpl.
        unfold SudokuMatrixCell.get_value. simpl. rewrite Htr. reflexivity.
    + intros j Hj Hne Hsj Hnd. rewrite items_at_insert by exact Ht.
      rewrite decide_False by congruence.
      apply Hstripped; [apply elem_of_elements, Hj | exact Hsj | exact Hnd].
    + intros j Hsj. rewrite <- (Hkeep j Hsj). unfold SudokuMatrix.deref at 1. simpl.
      destruct (decide (t = j)) as [<-|Hne].
      * rewrite list_lookup_insert_eq by exact Ht. simpl.
        rewrite Hsj in Ec'. exact Ec'.
      * rewrite list_lookup_insert_ne by exact Hne. reflexivity.
Qed.

(** On the solver whose cell (0, 0) is locked on 1, stripping 2 at
    (0, 0) still takes 2 out of the other cells of the unit. *)
Lemma strip_value_commits_witness :
  let s := Examples.locked4 in
  ∃ m' q' u,
    SudokuMatrix.strip_value (PItem (IInt 2)) 0 0 (s.1, s.2) = (Ok tt, (m', q'))
    ∧ SudokuMatrix.get_unit_cells 0 0 s.1 = Ok u
    ∧ (Grid.solved_at s.1 (Grid.ref s.1 0 0) = false →
       Grid.items_at m' (Grid.ref s.1 0 0) = [IInt 2]
       ∧ (truthy (IInt 2) = true →
          SudokuMatrixCell.get_value (SudokuMatrix.deref m' (Grid.ref s.1 0 0))
          = PItem (IInt 2)))
    ∧ (∀ j, j ∈ u → j ≠ Grid.ref s.1 0 0 →
            Grid.solved_at s.1 j = false → NoDup (Grid.items_at s.1 j) →
            IInt 2 ∉ Grid.items_at m' j)
    ∧ (∀ j, Grid.solved_at s.1 j = true →
            SudokuMatrix.deref m' j = SudokuMatrix.deref s.1 j).
Proof.
  intros s. apply (strip_value_commits s.1 s.2 0 0 (IInt 2)).
  - by_compute.
  - vm_compute. lia.
  - vm_compute. lia.
  - by_compute.
Defined.

(** C1 as stated fails in three ways.  On a solver whose cell (0, 0)
    is locked on 1, [strip_value(2, 0, 0)] returns normally and the
    cell still holds 1; on the same solver [strip_value(1, 0, 1)]
    leaves 1 both in the cell (0, 1) and in the locked cell (0, 0) of
    its unit; and when the cell (0, 1) holds [2, 2, 3],
    [strip_value(2, 0, 0)] leaves it with [2, 3]. *)
Lemma strip_value_keeps_locked_cell :
  let s := Examples.locked4 in
  Grid.wf s.1
  ∧ Grid.solved_at s.1 0 = true
  ∧ IInt 2 ∈ SudokuMatrix.base_sequence s.1
  ∧ (∃ s', SudokuMatrix.strip_value (PItem (IInt 2)) 0 0 s = (Ok tt, s')
           ∧ SudokuMatrixCell.get_value (SudokuMatrix.deref s'.1 0) = PItem (IInt 1)
           ∧ SudokuMatrixCell.get_value (SudokuMatrix.deref s'.1 0) ≠ PItem (IInt 2))
  ∧ (∃ s' u, SudokuMatrix.strip_value (PItem (IInt 1)) 0 1 s = (Ok tt, s')
             ∧ SudokuMatrix.get_unit_cells 0 1 s.1 = Ok u
             ∧ 0 ∈ elements u
             ∧ Grid.items_at s'.1 1 = [IInt 1]
             ∧ Grid.items_at s'.1 0 = [IInt 1])
  ∧ (let d := Examples.set_values_at 1 [2; 2; 3]%Z (Examples.solver4 []) in
     ∃ d' u, SudokuMatrix.strip_value (PItem (IInt 2)) 0 0 d = (Ok tt, d')
             ∧ SudokuMatrix.get_unit_cells 0 0 d.1 = Ok u
             ∧ 1 ∈ elements u
             ∧ Grid.solved_at d.1 1 = false
             ∧ Grid.items_at d'.1 0 = [IInt 2]
             ∧ Grid.items_at d'.1 1 = [IInt 2; IInt 3]).
Proof.
  intros s. split; [by_compute|]. split; [reflexivity|]. split; [by_compute|].
  split; [|split].
  - eexists. split; [vm_compute; reflexivity|]. split; [reflexivity | discriminate].
  - exists (SudokuMatrix.strip_value (PItem (IInt 1)) 0 1 s).2,
      (list_to_set (Grid.row_refs s.1 0 ++ Grid.column_refs s.1 1 ++ Grid.box_refs s.1 0 1)).
    split; [vm_compute; reflexivity|].
    split; [apply get_unit_cells_wf; [by_compute | vm_compute; lia | vm_compute; lia]|].
    split; [|split; vm_compute; reflexivity].
    apply elem_of_elements, elem_of_list_to_set. by_compute.
  - intros d.
    exists (SudokuMatrix.strip_value (PItem (IInt 2)) 0 0 d).2,
      (list_to_set (Grid.row_refs d.1 0 ++ Grid.column_refs d.1 0 ++ Grid.box_refs d.1 0 0)).
    split; [vm_compute; reflexivity|].
    split; [apply get_unit_cells_wf; [by_compute | vm_compute; lia | vm_compute; lia]|].
    split; [|split; [|split]; vm_compute; reflexivity].
    apply elem_of_elements, elem_of_list_to_set. by_compute.
Qed.

(** ** The solver: calls of [strip_value] *)

Section SolverCalls.
Import SudokuMatrix SudokuMatrixSolver Grid.

Lemma pays_refl s : pays s s.
Proof. unfold pays. lia. Qed.

Lemma pays_trans s1 s2 s3 : pays s1 s2 → pays s2 s3 → pays s1 s3.
Proof. unfold pays. lia. Qed.

Lemma shrinks_refl s : shrinks s s.
Proof.
  split; [apply related_refl, cell_shrinks_refl|]. split; [apply pays_refl|].
  split; reflexivity.
Qed.

Lemma shrinks_trans s1 s2 s3 : shrinks s1 s2 → shrinks s2 s3 → shrinks s1 s3.
Proof.
  intros (R1 & P1 & C1 & S1) (R2 & P2 & C2 & S2). split; [|split; [|split]].
  - eapply related_trans; [apply cell_shrinks_trans | eassumption..].
  - eapply pays_trans; eassumption.
  - etransitivity; eassumption.
  - congruence.
Qed.

Lemma evolves_refl s : evolves s s.
Proof. split; [apply related_refl, cell_evolves_refl | apply pays_refl]. Qed.

Lemma evolves_trans s1 s2 s3 : evolves s1 s2 → evolves s2 s3 → evolves s1 s3.
Proof.
  intros (R1 & P1) (R2 & P2). split.
  - eapply related_trans; [apply cell_evolves_trans | eassumption..].
  - eapply pays_trans; eassumption.
Qed.

Lemma shrinks_evolves s s' : shrinks s s' → evolves s s'.
Proof.
  intros (R & P & _). split; [|exact P].
  eapply related_weaken; [apply cell_shrinks_evolves | exact R].
Qed.

Lemma size_register (i : nat) (X : gset nat) : size ({[i]} ∪ X) ≤ S (size X).
Proof.
  rewrite size_union_alt, size_singleton.
  assert (Hle : size (X ∖ {[i]}) ≤ size X).
  { apply subseteq_size. intros x Hx. apply elem_of_difference in Hx. tauto. }
  lia.
Qed.

(** [strip_value] on a cell of the solver. *)
Lemma strip_call_solver (s : SudokuMatrixSolver.t) i value :
  i < length (cells s.1) →
  ∃ s', cell_call i (SudokuMatrixCell.strip_value value) s = (Ok tt, s')
        ∧ shrinks s s'
        ∧ (∀ v, value = PItem v → solved_at s.1 i = false → NoDup (items_at s.1 i) →
                v ∉ items_at s'.1 i)
        ∧ (∀ j, j ≠ i → items_at s'.1 j = items_at s.1 j).
Proof.
  intros Hi. destruct (strip_call s i value Hi) as (b & l' & E & Hsh & Hb & Hv).
  pose proof (deref_valid _ _ Hi) as Hc.
  eexists. split; [exact E|]. split; [|split].
  3:{ intros j Hj. simpl. rewrite items_at_insert by exact Hi.
      rewrite decide_False by congruence. reflexivity. }
  - split; [|split; [|split]]; simpl.
    + apply (related_insert _ _ _ (deref s.1 i));
        [apply cell_shrinks_refl | exact Hc | exact Hsh].
    + unfold pays. simpl.
      pose proof (total_insert s.1 i _ (SudokuMatrixCell.with_items l' (deref s.1 i)) Hc) as Ht.
      destruct b.
      * destruct (Hb eq_refl) as (Hs & H2 & H1).
        unfold solved_at in Hs. unfold items_at in H2.
        unfold open_items in Ht. simpl in Ht. rewrite Hs, H2, H1 in Ht.
        unfold on_unique_value, solver_hook, register_for_cleanups. simpl.
        pose proof (size_register i (cleanups s.2)). lia.
      * apply cell_shrinks_evolves, open_items_evolves in Hsh. lia.
    + destruct b; [|reflexivity].
      unfold on_unique_value, solver_hook, register_for_cleanups. simpl.
      apply union_subseteq_r.
    + destruct b; reflexivity.
  - intros v Ev Hs Hnd. simpl. rewrite items_at_insert by exact Hi.
    rewrite decide_True by reflexivity. simpl. exact (Hv v Ev Hs Hnd).
Qed.

Lemma shrinks_length s s' : shrinks s s' → length (cells s'.1) = length (cells s.1).
Proof. intros (R & _). apply (related_length _ _ _ R). Qed.

Lemma shrinks_wf_solver s s' : wf s.1 → shrinks s s' → wf s'.1.
Proof. intros Hwf (R & _). eapply shrinks_wf; eassumption. Qed.

(** A loop of calls of [strip_value] on valid references. *)
Lemma strip_loop_solver (s : SudokuMatrixSolver.t) (l : list nat) value :
  (∀ j, j ∈ l → j < length (cells s.1)) →
  ∃ s', for_each l (λ i, cell_call i (SudokuMatrixCell.strip_value value)) s = (Ok tt, s')
        ∧ shrinks s s'.
Proof.
  intros Hl.
  destruct (for_each_keeps (λ s0, shrinks s s0) shrinks l
              (λ i, cell_call i (SudokuMatrixCell.strip_value value))
              shrinks_refl shrinks_trans) with (s := s) as (s' & E & I' & _).
  - intros j s0 Hj Hs0.
    destruct (strip_call_solver s0 j value) as (s1 & E1 & H1 & _).
    { rewrite (shrinks_length _ _ Hs0). apply Hl, Hj. }
    exists s1. split; [exact E1|]. split; [|exact H1].
    eapply shrinks_trans; eassumption.
  - apply shrinks_refl.
  - exists s'. auto.
Qed.

(** [[_c.strip_value(v) for v in _cell]] removes from an unlocked
    cell without duplicates every item of [_cell]. *)
Lemma strip_all_spec (s : SudokuMatrixSolver.t) c cell :
  c < length (cells s.1) →
  ∃ s', strip_all c cell s = (Ok tt, s')
        ∧ shrinks s s'
        ∧ (solved_at s.1 c = false → NoDup (items_at s.1 c) →
           ∀ v, v ∈ items_at s.1 cell → v ∉ items_at s'.1 c)
        ∧ (∀ j, j ≠ c → items_at s'.1 j = items_at s.1 j).
Proof.
  intros Hc. unfold strip_all. rewrite bind_unfold. unfold query at 1. simpl.
  fold (items_at s.1 cell).
  set (R := λ s1 s2 : SudokuMatrixSolver.t,
              shrinks s1 s2 ∧ ∀ j, j ≠ c → items_at s2.1 j = items_at s1.1 j).
  destruct (for_each_establishes (λ s0, R s s0) R
              (λ v (s0 : SudokuMatrixSolver.t),
                 solved_at s.1 c = false → NoDup (items_at s.1 c) → v ∉ items_at s0.1 c)
              (items_at s.1 cell)
              (λ v, cell_call c (SudokuMatrixCell.strip_value (PItem v))))
    with (s := s) as (s' & E & I' & _ & HP).
  - intros s0. split; [apply shrinks_refl | reflexivity].
  - intros s1 s2 s3 [H12 F12] [H23 F23]. split; [eapply shrinks_trans; eassumption|].
    intros j Hj. rewrite (F23 j Hj). apply F12, Hj.
  - intros v s1 s2 ((R' & _) & _) HPv Hs Hnd. rename R' into R0.
    eapply items_at_shrinks; [| exact R0 | exact (HPv Hs Hnd)].
    intros x y (_ & S & _). exact S.
  - intros v s0 Hv Hs0.
    destruct Hs0 as [Hs0 Hfr0].
    destruct (strip_call_solver s0 c (PItem v)) as (s1 & E1 & H1 & Hv1 & Hfr1).
    { rewrite (shrinks_length _ _ Hs0). exact Hc. }
    exists s1. split; [exact E1|]. split; [|split; [split; [exact H1 | exact Hfr1]|]].
    + split; [eapply shrinks_trans; eassumption|].
      intros j Hj. rewrite (Hfr1 j Hj). apply Hfr0, Hj.
    + intros Hs Hnd. apply (Hv1 v eq_refl).
      * destruct Hs0 as (R0 & _). rewrite (shrinks_solved_at _ _ _ R0). exact Hs.
      * destruct Hs0 as (R0 & _).
        eapply sublist_NoDup; [exact Hnd | apply shrinks_items_at, R0].
  - split; [apply shrinks_refl | reflexivity].
  - exists s'. destruct I' as [I' Hfr]. split; [exact E|]. split; [exact I'|].
    split; [|exact Hfr]. intros Hs Hnd v Hv. exact (HP v Hv Hs Hnd).
Qed.

End SolverCalls.

(** ** The solver: step 3 *)

Section Step3.
Import SudokuMatrix SudokuMatrixSolver Grid.

Lemma elem_of_insert_by_key key x l y :
  y ∈ insert_by_key key x l ↔ y = x ∨ y ∈ l.
Proof.
  induction l as [|z l IH]; simpl.
  - rewrite list_elem_of_singleton. rewrite elem_of_nil. tauto.
  - destruct (key x <=? key z).
    + rewrite elem_of_cons. tauto.
    + rewrite !elem_of_cons, IH. tauto.
Qed.

Lemma elem_of_sorted_by_key key l y : y ∈ sorted_by_key key l ↔ y ∈ l.
Proof.
  unfold sorted_by_key. induction l as [|x l IH]; simpl; [reflexivity|].
  rewrite elem_of_insert_by_key, IH, elem_of_cons. tauto.
Qed.

Lemma eval_lookup_wf m e cell :
  wf m → cell < length (cells m) →
  eval_lookup e cell m = Ok (unit_refs m e cell)
  ∧ ∀ j, j ∈ unit_refs m e cell → j < length (cells m).
Proof.
  intros Hwf Hc. destruct (wf_location m cell Hwf Hc) as (Hr & Hk & _).
  unfold eval_lookup, unit_refs. destruct e.
  - split; [apply get_row_cells_wf; assumption|].
    intros j Hj. apply elem_of_row_refs in Hj; tauto.
  - split; [apply get_column_cells_wf; assumption|].
    intros j Hj. apply elem_of_column_refs in Hj; tauto.
  - split; [apply get_box_cells_wf; assumption|].
    intros j Hj. apply elem_of_box_refs in Hj; tauto.
Qed.

Lemma simplify_lookup_shrinks (s : SudokuMatrixSolver.t) cell e :
  wf s.1 → cell < length (cells s.1) →
  ∃ s', simplify_lookup cell e s = (Ok tt, s') ∧ shrinks s s'.
Proof.
  intros Hwf Hc. destruct (eval_lookup_wf s.1 e cell Hwf Hc) as [E Hvalid].
  unfold simplify_lookup. rewrite bind_unfold. unfold query at 1. rewrite E.
  rewrite bind_unfold. unfold query at 1.
  destruct (get_similar_cells cell (unit_refs s.1 e cell) s.1) as [|k sims].
  { exists s. split; [reflexivity | apply shrinks_refl]. }
  destruct (for_each_keeps (λ s0, shrinks s s0) shrinks (unit_refs s.1 e cell)
              (λ c, member ← query (λ s0 : SudokuMatrixSolver.t,
                                      Ok (cell_in c ((k :: sims) ++ [cell]) s0.1));
                    if negb member then strip_all c cell else mret tt)
              shrinks_refl shrinks_trans) with (s := s) as (s' & E' & I' & _).
  - intros c s0 Hcin Hs0. rewrite bind_unfold. unfold query at 1.
    destruct (negb (cell_in c ((k :: sims) ++ [cell]) s0.1)).
    + destruct (strip_all_spec s0 c cell) as (s1 & E1 & H1 & _).
      { rewrite (shrinks_length _ _ Hs0). apply Hvalid, Hcin. }
      exists s1. split; [exact E1|]. split; [eapply shrinks_trans; eassumption | exact H1].
    + exists s0. split; [reflexivity|]. split; [exact Hs0 | apply shrinks_refl].
  - apply shrinks_refl.
  - exists s'. auto.
Qed.

Lemma simplify_cell_shrinks (s : SudokuMatrixSolver.t) cell :
  wf s.1 → cell < length (cells s.1) →
  ∃ s', for_each [RowLookup; ColumnLookup; BoxLookup] (simplify_lookup cell) s = (Ok tt, s')
        ∧ shrinks s s'.
Proof.
  intros Hwf Hc.
  destruct (for_each_keeps (λ s0, shrinks s s0) shrinks [RowLookup; ColumnLookup; BoxLookup]
              (simplify_lookup cell) shrinks_refl shrinks_trans) with (s := s)
    as (s' & E' & I' & _).
  - intros e s0 _ Hs0.
    destruct (simplify_lookup_shrinks s0 cell e) as (s1 & E1 & H1).
    { eapply shrinks_wf_solver; eassumption. }
    { rewrite (shrinks_length _ _ Hs0). exact Hc. }
    exists s1. split; [exact E1|]. split; [eapply shrinks_trans; eassumption | exact H1].
  - apply shrinks_refl.
  - exists s'. auto.
Qed.

Lemma simplify_cells_unfold cell rest (s : SudokuMatrixSolver.t) :
  simplify_cells (cell :: rest) s
  = if len s.1 cell =? 1 then simplify_cells rest s
    else if len s.1 cell <=? box_size s.1
         then (for_each [RowLookup; ColumnLookup; BoxLookup] (simplify_lookup cell) ;;
               simplify_cells rest) s
         else (Ok tt, s).
Proof.
  cbn [simplify_cells]. rewrite bind_unfold. unfold query at 1.
  destruct (len s.1 cell =? 1); [reflexivity|].
  rewrite bind_unfold. unfold query at 1.
  destruct (len s.1 cell <=? box_size s.1); reflexivity.
Qed.

Lemma simplify_cells_shrinks (l : list nat) (s : SudokuMatrixSolver.t) :
  wf s.1 → (∀ j, j ∈ l → j < length (cells s.1)) →
  ∃ s', simplify_cells l s = (Ok tt, s') ∧ shrinks s s'.
Proof.
  revert s. induction l as [|cell rest IH]; intros s Hwf Hl.
  { exists s. split; [reflexivity | apply shrinks_refl]. }
  assert (Hrest : ∀ s0, shrinks s s0 → ∃ s', simplify_cells rest s0 = (Ok tt, s') ∧ shrinks s s').
  { intros s0 Hs0. destruct (IH s0) as (s' & E & H).
    - eapply shrinks_wf_solver; eassumption.
    - intros j Hj. rewrite (shrinks_length _ _ Hs0). apply Hl. right. exact Hj.
    - exists s'. split; [exact E | eapply shrinks_trans; eassumption]. }
  rewrite simplify_cells_unfold.
  destruct (len s.1 cell =? 1); [apply Hrest, shrinks_refl|].
  destruct (len s.1 cell <=? box_size s.1).
  - destruct (simplify_cell_shrinks s cell Hwf) as (s1 & E1 & H1); [apply Hl; left|].
    rewrite bind_unfold, E1. apply Hrest, H1.
  - exists s. split; [reflexivity | apply shrinks_refl].
Qed.

(** Step 3 on a well-formed solver: it returns normally, only removes
    items from unlocked cells, and moves to step 2 when [cleanups] is
    not empty, to the next number otherwise. *)
Lemma do_step_3_spec (s : SudokuMatrixSolver.t) :
  wf s.1 →
  ∃ s', do_step_3 s = (Ok tt, s')
        ∧ related cell_shrinks s.1 s'.1
        ∧ pays s s'
        ∧ cleanups s.2 ⊆ cleanups s'.2
        ∧ step s'.2 = if decide (cleanups s'.2 ≠ ∅) then step s.2 - 1 else step s.2 + 1.
Proof.
  intros Hwf. unfold do_step_3. rewrite bind_unfold. unfold query at 1.
  destruct (simplify_cells_shrinks
              (sorted_by_key (len s.1) (seq 0 (length (cells s.1)))) s Hwf)
    as (s1 & E1 & (R1 & P1 & C1 & S1)).
  { intros j Hj. apply elem_of_sorted_by_key, elem_of_seq in Hj. lia. }
  rewrite bind_unfold, E1. rewrite bind_unfold. unfold query at 1.
  destruct (decide (cleanups s1.2 ≠ ∅)) as [Hne|He].
  - eexists. split; [reflexivity|]. simpl.
    rewrite decide_True by exact Hne. rewrite S1. auto.
  - eexists. split; [reflexivity|]. simpl.
    rewrite decide_False by exact He. rewrite S1. auto.
Qed.

End Step3.

(** ** The solver: step 2 *)

Section Step2.
Import SudokuMatrix SudokuMatrixSolver Grid.
Variable pop_order : gset nat → nat.

Lemma pop_None X : pop pop_order X = None ↔ X = ∅.
Proof.
  unfold pop. destruct (elements X) as [|x l] eqn:E.
  - split; [|reflexivity]. intros _. apply leibniz_equiv, elements_empty_iff, E.
  - split; [discriminate|]. intros ->. rewrite elements_empty in E. discriminate.
Qed.

Lemma pop_Some X y X' :
  pop pop_order X = Some (y, X') → y ∈ X ∧ X' = X ∖ {[y]} ∧ S (size X') = size X.
Proof.
  unfold pop. destruct (elements X) as [|x l] eqn:E; [discriminate|].
  intros [= <- <-].
  assert (Hy : (if decide (pop_order X ∈ X) then pop_order X else x) ∈ X).
  { destruct (decide (pop_order X ∈ X)); [assumption|].
    apply elem_of_elements. rewrite E. left. }
  split; [exact Hy|]. split; [reflexivity|].
  rewrite size_difference by (apply singleton_subseteq_l, Hy).
  rewrite size_singleton.
  assert (size X ≠ 0) by (apply size_non_empty_iff; intros H; apply H in Hy; set_solver).
  lia.
Qed.

Lemma lock_spec (s : SudokuMatrixSolver.t) i :
  length (items_at s.1 i) = 1 →
  ∃ s', lock i s = (Ok tt, s')
        ∧ evolves s s' ∧ s'.2 = s.2
        ∧ i < length (cells s'.1)
        ∧ solved_at s'.1 i = true
        ∧ items_at s'.1 i = items_at s.1 i.
Proof.
  intros Hlen. eexists. split; [reflexivity|]. simpl.
  assert (Hi : i < length (cells s.1)).
  { destruct (decide (i < length (cells s.1))) as [H|H]; [exact H|].
    unfold items_at, deref in Hlen. rewrite lookup_ge_None_2 in Hlen by lia.
    simpl in Hlen. lia. }
  pose proof (deref_valid _ _ Hi) as Hc.
  assert (Hrel : related cell_evolves s.1
            (with_cells (alter (SudokuMatrixCell.with_solved true) i (cells s.1)) s.1)).
  { split; [repeat split|]. simpl. apply Forall2_same_length_lookup.
    split; [rewrite length_alter; reflexivity|].
    intros j x y Hx Hy. destruct (decide (i = j)) as [<-|Hne].
    - rewrite list_lookup_alter_eq, Hx in Hy. injection Hy as <-.
      rewrite Hc in Hx. injection Hx as <-.
      unfold items_at in Hlen. repeat split; simpl; auto.
      + intros Hs. rewrite <- Hs. destruct (deref s.1 i); reflexivity.
      + intros He. rewrite He in Hlen. discriminate.
    - rewrite list_lookup_alter_ne, Hx in Hy by exact Hne. injection Hy as <-.
      apply cell_evolves_refl. }
  split; [|split; [reflexivity|split; [|split]]].
  - split; [exact Hrel|]. unfold pays. simpl. apply total_evolves in Hrel. simpl in Hrel. lia.
  - rewrite length_alter. exact Hi.
  - unfold solved_at, deref. simpl. rewrite list_lookup_alter_eq, Hc. reflexivity.
  - unfold items_at, deref. simpl. rewrite list_lookup_alter_eq, Hc. reflexivity.
Qed.

(** [SudokuMatrix.strip_value] on the location of a locked cell. *)
Lemma strip_value_locked (s : SudokuMatrixSolver.t) value r c :
  wf s.1 → r < rows s.1 → c < columns s.1 → solved_at s.1 (ref s.1 r c) = true →
  ∃ s', strip_value value r c s = (Ok tt, s') ∧ shrinks s s'.
Proof.
  intros Hwf Hr Hc Hs. unfold strip_value. rewrite bind_unfold. unfold query at 1.
  rewrite get_unit_cells_wf by assumption.
  destruct (strip_loop_solver s
              (elements (list_to_set (C:=gset nat)
                 (row_refs s.1 r ++ column_refs s.1 c ++ box_refs s.1 r c))) value)
    as (s1 & E1 & H1).
  { intros j Hj. apply elem_of_elements, elem_of_list_to_set in Hj.
    eapply unit_refs_valid; eassumption. }
  rewrite bind_unfold, E1. rewrite bind_unfold. unfold query at 1.
  pose proof (shrinks_wf_solver _ _ Hwf H1) as Hwf1.
  pose proof H1 as (((F1 & F2 & F3 & F4) & _) & _).
  rewrite at_wf by (rewrite ?F1, ?F2; assumption).
  assert (Eref : ref s1.1 r c = ref s.1 r c) by (unfold ref; rewrite F2; reflexivity).
  rewrite Eref. set (t := ref s.1 r c) in *.
  assert (Ht : t < length (cells s1.1)).
  { rewrite (shrinks_length _ _ H1). destruct Hwf as (Hb & HN & Hcc & Hlen & _).
    unfold t, ref. nia. }
  pose proof (deref_valid _ _ Ht) as Hc1.
  assert (Hs1 : SudokuMatrixCell.solved (deref s1.1 t) = true).
  { rewrite <- Hs. destruct H1 as (R & _). apply (shrinks_solved_at _ _ _ R). }
  rewrite (cell_call_valid t _ s1 (deref s1.1 t) false (deref s1.1 t) Hc1).
  2:{ unfold SudokuMatrixCell.set_value. rewrite Hs1. reflexivity. }
  rewrite list_insert_id by exact Hc1. rewrite with_cells_id.
  exists s1. split; [destruct s1; reflexivity | exact H1].
Qed.

Lemma measure_evolves s s' : evolves s s' → measure s' ≤ measure s.
Proof.
  intros (R & P). apply total_evolves in R. unfold pays in P. unfold measure. lia.
Qed.

(** The loop of step 2 comes to its end within [measure s + 1]
    iterations and leaves [cleanups] empty. *)
Lemma drain_cleanups_spec (fuel : nat) (s : SudokuMatrixSolver.t) :
  wf s.1 → measure s < fuel →
  ∃ s', drain_cleanups pop_order fuel s = (Ok tt, s')
        ∧ cleanups s'.2 = ∅
        ∧ evolves s s'
        ∧ step s'.2 = step s.2.
Proof.
  revert s. induction fuel as [|fuel IH]; intros s Hwf Hm; [lia|].
  cbn [drain_cleanups]. rewrite bind_unfold. unfold query at 1.
  destruct (pop pop_order (cleanups s.2)) as [[i X']|] eqn:Ep.
  2:{ apply pop_None in Ep. exists s. split; [reflexivity|].
      split; [exact Ep|]. split; [apply evolves_refl | reflexivity]. }
  apply pop_Some in Ep as (Hi & -> & Hsize).
  rewrite bind_unfold. unfold modify at 1.
  set (s1 := (s.1, mk_ext (cleanups s.2 ∖ {[i]}) (step s.2))).
  assert (H01 : evolves s s1).
  { split; [apply related_refl, cell_evolves_refl|]. unfold pays. simpl. lia. }
  assert (Hm1 : S (measure s1) = measure s) by (unfold measure; simpl; lia).
  rewrite bind_unfold. unfold query at 1. rewrite bind_unfold.
  assert (Hcont : ∀ s2, evolves s1 s2 → step s2.2 = step s.2 →
            ∃ s', drain_cleanups pop_order fuel s2 = (Ok tt, s')
                  ∧ cleanups s'.2 = ∅ ∧ evolves s s' ∧ step s'.2 = step s.2).
  { intros s2 H12 Hst. destruct (IH s2) as (s' & E & He & Hev & Hst').
    - apply (wf_related s.1); [exact Hwf|].
      destruct (evolves_trans _ _ _ H01 H12) as [R _]. exact R.
    - apply measure_evolves in H12. lia.
    - exists s'. split; [exact E|]. split; [exact He|].
      split; [|congruence]. eapply evolves_trans; [|exact Hev].
      eapply evolves_trans; eassumption. }
  fold (items_at s1.1 i).
  destruct (length (items_at s1.1 i) =? 1) eqn:El.
  - apply Nat.eqb_eq in El.
    destruct (lock_spec s1 i El) as (s2 & E2 & H12 & Hq & Hv2 & Hs2 & Hi2).
    rewrite bind_unfold, E2. rewrite bind_unfold. unfold query at 1.
    assert (Hwf2 : wf s2.1).
    { apply (wf_related s1.1); [exact Hwf | destruct H12 as [R _]; exact R]. }
    destruct (wf_location s2.1 i Hwf2 Hv2) as (Hr & Hk & Href).
    destruct (strip_value_locked s2
                (SudokuMatrixCell.get_value (deref s2.1 i))
                (SudokuMatrixCell.row (deref s2.1 i))
                (SudokuMatrixCell.column (deref s2.1 i)) Hwf2 Hr Hk)
      as (s3 & E3 & H23).
    { rewrite Href. exact Hs2. }
    rewrite E3. apply Hcont.
    + eapply evolves_trans; [exact H12 | apply shrinks_evolves, H23].
    + destruct H23 as (_ & _ & _ & ->). rewrite Hq. reflexivity.
  - apply Hcont; [apply evolves_refl | reflexivity].
Qed.

Lemma do_step_2_spec (fuel : nat) (s : SudokuMatrixSolver.t) :
  wf s.1 → measure s < fuel →
  ∃ s', do_step_2 pop_order fuel s = (Ok tt, s')
        ∧ cleanups s'.2 = ∅
        ∧ evolves s s'
        ∧ step s'.2 = step s.2 + 1.
Proof.
  intros Hwf Hm. destruct (drain_cleanups_spec fuel s Hwf Hm) as (s1 & E & He & Hev & Hst).
  unfold do_step_2. rewrite bind_unfold, E. eexists. split; [reflexivity|].
  simpl. rewrite Hst. auto.
Qed.

End Step2.

(** ** The solver: the solving loop *)

Section Loop.
Import SudokuMatrix SudokuMatrixSolver Grid.
Variable pop_order : gset nat → nat.

Lemma do_finished_contradiction (s : SudokuMatrixSolver.t) i :
  contradiction s.1 i → do_finished s = false.
Proof.
  intros (c & Hc & Hs & _). unfold do_finished.
  destruct (forallb SudokuMatrixCell.solved (cells s.1)) eqn:E; [|reflexivity].
  rewrite forallb_forall in E.
  assert (H : SudokuMatrixCell.solved c = true).
  { apply E, list_elem_of_In. eapply list_elem_of_lookup_2, Hc. }
  congruence.
Qed.

Lemma solving_loop_unfold fuel (s : SudokuMatrixSolver.t) :
  solving_loop pop_order (S fuel) s
  = if do_finished s then (Ok tt, s)
    else (do_step pop_order fuel ;; solving_loop pop_order fuel) s.
Proof.
  cbn [solving_loop]. rewrite bind_unfold. unfold query at 1.
  destruct (do_finished s); reflexivity.
Qed.

Lemma do_step_unfold fuel (s : SudokuMatrixSolver.t) :
  do_step pop_order fuel s
  = match step s.2 with
    | 1 => do_step_1 s
    | 2 => do_step_2 pop_order fuel s
    | 3 => do_step_3 s
    | _ => (Raise AttributeError, s)
    end.
Proof.
  unfold do_step. rewrite bind_unfold. unfold query at 1.
  destruct (step s.2) as [|[|[|[|n]]]]; reflexivity.
Qed.

(** Once a cell that is not locked has no item left, the loop, from
    step 2 on, runs into the step that does not exist. *)
Lemma solving_loop_fails (fuel : nat) (s : SudokuMatrixSolver.t) i :
  wf s.1 → 2 ≤ step s.2 → contradiction s.1 i → 3 * measure s + weight s < fuel →
  ∃ s', solving_loop pop_order fuel s = (Raise AttributeError, s')
        ∧ evolves s s'.
Proof.
  revert s. induction fuel as [|fuel IH]; intros s Hwf Hst Hcon Hfuel; [lia|].
  rewrite solving_loop_unfold, (do_finished_contradiction s i Hcon).
  rewrite bind_unfold, do_step_unfold.
  assert (Hnext : ∀ s1, (∃ r, r s = (Ok tt, s1)) → evolves s s1 → 2 ≤ step s1.2 →
            3 * measure s1 + weight s1 < fuel →
            ∃ s', solving_loop pop_order fuel s1 = (Raise AttributeError, s') ∧ evolves s s').
  { intros s1 _ Hev Hst1 Hf1. destruct (IH s1) as (s' & E & Hev').
    - apply (wf_related s.1); [exact Hwf | destruct Hev as [R _]; exact R].
    - exact Hst1.
    - destruct Hev as [R _]. eapply contradiction_evolves; eassumption.
    - exact Hf1.
    - exists s'. split; [exact E | eapply evolves_trans; eassumption]. }
  unfold weight in Hfuel.
  destruct (step s.2) as [|[|[|[|n]]]] eqn:Estep; try lia.
  - (* step 2 *)
    destruct (do_step_2_spec pop_order fuel s Hwf) as (s1 & E1 & He & Hev & Hs1); [lia|].
    rewrite E1. apply (Hnext s1); [eauto | exact Hev | lia |].
    apply measure_evolves in Hev. unfold weight. rewrite Hs1, Estep. simpl.
    rewrite decide_True by exact He. lia.
  - (* step 3 *)
    destruct (do_step_3_spec s Hwf) as (s1 & E1 & R1 & P1 & C1 & Hs1).
    rewrite E1.
    assert (Hev : evolves s s1).
    { split; [|exact P1]. eapply related_weaken; [apply cell_shrinks_evolves | exact R1]. }
    pose proof (measure_evolves _ _ Hev) as Hm.
    rewrite Estep in Hs1. apply (Hnext s1); [eauto | exact Hev | |].
    + destruct (decide (cleanups s1.2 ≠ ∅)); rewrite Hs1; simpl; lia.
    + unfold weight. rewrite Hs1.
      destruct (decide (cleanups s.2 = ∅)) as [He0|Hne0];
        destruct (decide (cleanups s1.2 ≠ ∅)) as [Hne|He]; simpl; try lia.
      assert (Hpos : size (cleanups s1.2) ≠ 0).
      { apply size_non_empty_iff. intros H. apply Hne, leibniz_equiv, H. }
      unfold pays in P1. unfold measure in *. rewrite He0, size_empty in *.
      destruct Hev as [Rev _]. apply total_evolves in Rev. lia.
  - (* no such step *)
    exists s. split; [reflexivity | apply evolves_refl].
Qed.

End Loop.

Lemma weight_le (s : SudokuMatrixSolver.t) : Grid.weight s ≤ 3.
Proof.
  unfold Grid.weight.
  destruct (SudokuMatrixSolver.step s.2) as [|[|[|[|n]]]]; try lia.
  destruct (decide (SudokuMatrixSolver.cleanups s.2 = ∅)); lia.
Qed.

(** The solver built with the value 1 in two cells of a row fails:
    [solve] ends in [exit(1)]. *)
Example solve_two_equal_values :
  (SudokuMatrixSolver.solve Examples.pop_first 200 (Examples.solver4 [1; 1]%Z)).1
  = Raise SystemExit.
Proof. vm_compute. reflexivity. Qed.

(** The step that follows step 3 on a well-formed solver: if
    [cleanups] is not empty the step number goes back to 2, the next
    step run is step 2, which empties [cleanups] and leads to step 3
    again; otherwise the step number becomes 4, for which the solver
    has no method: the loop ends normally if every cell is locked and
    raises [AttributeError] if not. *)
Theorem step_3_loop_control (pop_order : gset nat → nat) (s : SudokuMatrixSolver.t) :
  Grid.wf s.1 → SudokuMatrixSolver.step s.2 = 3 →
  ∃ s', SudokuMatrixSolver.do_step_3 s = (Ok tt, s')
        ∧ (SudokuMatrixSolver.cleanups s'.2 ≠ ∅ →
           SudokuMatrixSolver.step s'.2 = 2
           ∧ ∀ fuel, Grid.measure s' < fuel →
               ∃ s'', SudokuMatrixSolver.do_step pop_order fuel s' = (Ok tt, s'')
                      ∧ SudokuMatrixSolver.cleanups s''.2 = ∅
                      ∧ SudokuMatrixSolver.step s''.2 = 3)
        ∧ (SudokuMatrixSolver.cleanups s'.2 = ∅ →
           SudokuMatrixSolver.step s'.2 = 4
           ∧ ∀ fuel, SudokuMatrixSolver.solving_loop pop_order (S fuel) s'
                     = if SudokuMatrixSolver.do_finished s' then (Ok tt, s')
                       else (Raise AttributeError, s')).
Proof.
  intros Hwf Hst. destruct (do_step_3_spec s Hwf) as (s' & E & R & _ & _ & Hs').
  rewrite Hst in Hs'. exists s'. split; [exact E|]. split.
  - intros Hne. rewrite decide_True in Hs' by exact Hne. simpl in Hs'.
    split; [exact Hs'|]. intros fuel Hf.
    assert (Hwf' : Grid.wf s'.1) by (eapply shrinks_wf; eassumption).
    destruct (do_step_2_spec pop_order fuel s' Hwf' Hf) as (s'' & E2 & He & _ & Hs'').
    exists s''. rewrite do_step_unfold, Hs'. split; [exact E2|].
    split; [exact He | lia].
  - intros He. rewrite decide_False in Hs' by (intros H; exact (H He)). simpl in Hs'.
    split; [exact Hs'|]. intros fuel. rewrite solving_loop_unfold.
    destruct (SudokuMatrixSolver.do_finished s'); [reflexivity|].
    rewrite bind_unfold, do_step_unfold, Hs'. reflexivity.
Qed.

Lemma step_3_loop_control_witness :
  ∃ s', SudokuMatrixSolver.do_step_3 Examples.pair4 = (Ok tt, s')
        ∧ (SudokuMatrixSolver.cleanups s'.2 ≠ ∅ →
           SudokuMatrixSolver.step s'.2 = 2
           ∧ ∀ fuel, Grid.measure s' < fuel →
               ∃ s'', SudokuMatrixSolver.do_step Examples.pop_first fuel s' = (Ok tt, s'')
                      ∧ SudokuMatrixSolver.cleanups s''.2 = ∅
                      ∧ SudokuMatrixSolver.step s''.2 = 3)
        ∧ (SudokuMatrixSolver.cleanups s'.2 = ∅ →
           SudokuMatrixSolver.step s'.2 = 4
           ∧ ∀ fuel, SudokuMatrixSolver.solving_loop Examples.pop_first (S fuel) s'
                     = if SudokuMatrixSolver.do_finished s' then (Ok tt, s')
                       else (Raise AttributeError, s')).
Proof.
  apply (step_3_loop_control Examples.pop_first Examples.pair4).
  - by_compute.
  - reflexivity.
Defined.

(** On the solver built without values, step 3 leaves [cleanups]
    empty and no cell locked; the step number is then 4 and the loop,
    instead of going through steps 1, 2 and 3 again, raises
    [AttributeError]: [solve] ends in [exit(1)] with every cell still
    holding the whole base sequence. *)
Lemma loop_does_not_repeat :
  ∃ s', SudokuMatrixSolver.do_step_3 Examples.idle4 = (Ok tt, s')
        ∧ SudokuMatrixSolver.cleanups s'.2 = ∅
        ∧ SudokuMatrixSolver.do_finished s' = false
        ∧ SudokuMatrixSolver.step s'.2 = 4
        ∧ SudokuMatrixSolver.solving_loop Examples.pop_first 200 s'
          = (Raise AttributeError, s')
        ∧ SudokuMatrixSolver.solve Examples.pop_first 200 (Examples.solver4 [])
          = (Raise SystemExit, s').
Proof.
  eexists. split; [vm_compute; reflexivity|].
  split; [reflexivity|]. split; [reflexivity|]. split; [reflexivity|].
  split; vm_compute; reflexivity.
Qed.

(** ** The solver: the order of step 3 *)

Section Order.
Import SudokuMatrix SudokuMatrixSolver Grid.




(** A cell without items is left alone by step 3. *)
Lemma simplify_lookup_empty (s : SudokuMatrixSolver.t) cell e :
  wf s.1 → cell < length (cells s.1) → items_at s.1 cell = [] →
  simplify_lookup cell e s = (Ok tt, s).
Proof.
  intros Hwf Hc He. destruct (eval_lookup_wf s.1 e cell Hwf Hc) as [E _].
  unfold simplify_lookup. rewrite bind_unfold. unfold query at 1. rewrite E.
  rewrite bind_unfold. unfold query at 1.
  destruct (get_similar_cells cell (unit_refs s.1 e cell) s.1) as [|k sims]; [reflexivity|].
  destruct (for_each_keeps (λ s0, s0 = s) eq (unit_refs s.1 e cell)
              (λ c, member ← query (λ s0 : SudokuMatrixSolver.t,
                                      Ok (cell_in c ((k :: sims) ++ [cell]) s0.1));
                    if negb member then strip_all c cell else mret tt))
    with (s := s) as (s' & E' & -> & _).
  - reflexivity.
  - intros; congruence.
  - intros c s0 _ ->. exists s. rewrite bind_unfold. unfold query at 1.
    destruct (negb (cell_in c ((k :: sims) ++ [cell]) s.1)); [|auto].
    unfold strip_all. rewrite bind_unfold. unfold query at 1.
    fold (items_at s.1 cell). rewrite He. auto.
  - reflexivity.
  - exact E'.
Qed.

Lemma simplify_cell_empty (s : SudokuMatrixSolver.t) cell :
  wf s.1 → cell < length (cells s.1) → items_at s.1 cell = [] →
  for_each [RowLookup; ColumnLookup; BoxLookup] (simplify_lookup cell) s = (Ok tt, s).
Proof.
  intros Hwf Hc He. cbn [for_each].
  rewrite bind_unfold, simplify_lookup_empty by assumption.
  rewrite bind_unfold, simplify_lookup_empty by assumption.
  rewrite bind_unfold, simplify_lookup_empty by assumption.
  reflexivity.
Qed.




End Order.

(** ** The solver: two cells of a unit with the same two items *)

Section Pair.
Import SudokuMatrix SudokuMatrixSolver Grid.






Variable s : SudokuMatrixSolver.t.
Variables (e : lookup_expr) (a b c : nat) (x y : item).
Hypothesis Hwf : wf s.1.
Hypothesis Ha : items_at s.1 a = [x; y].
Hypothesis Hb : items_at s.1 b = [x; y].
Hypothesis Hab : a ≠ b.
Hypothesis Hbe : b ∈ unit_refs s.1 e a.
Hypothesis Hce : c ∈ unit_refs s.1 e a.
Hypothesis Hcs : solved_at s.1 c = false.
Hypothesis Hcn : NoDup (items_at s.1 c).
Hypothesis Hcd : items_at s.1 c ≠ [x; y].




End Pair.




(** * Further properties *)

(** ** Rotations *)

Section Rotations.
Context {A : Type}.

Lemma rotate_left_value (l : list A) (inplace : bool) :
  (rotate_left l inplace).1 = match l with [] => [] | x :: rest => rest ++ [x] end.
Proof. destruct inplace, l as [|x rest]; reflexivity. Qed.

Lemma rotate_right_value (l : list A) (inplace : bool) :
  (rotate_right l inplace).1
  = match last l with None => [] | Some x => x :: take (length l - 1) l end.
Proof.
  unfold rotate_right. destruct inplace.
  - destruct (last l) eqn:E; [reflexivity|]. apply last_None in E. subst. reflexivity.
  - simpl. destruct (last l) as [x|] eqn:E.
    + f_equal. destruct l as [|y l] using rev_ind; [discriminate|].
      rewrite last_snoc in E. injection E as ->.
      rewrite length_app. simpl.
      replace (length l + 1 - 1) with (length l) by lia.
      rewrite drop_app_length. reflexivity.
    + apply last_None in E. subst. reflexivity.
Qed.

(** The two rotations return the same value with and without
    [inplace]; without it the argument keeps its contents, with it the
    argument holds the value returned. *)
Theorem rotate_inplace_or_copy (l : list A) :
  (rotate_left l true).1 = (rotate_left l false).1
  ∧ (rotate_right l true).1 = (rotate_right l false).1
  ∧ (rotate_left l false).2 = l ∧ (rotate_right l false).2 = l
  ∧ (rotate_left l true).2 = (rotate_left l true).1
  ∧ (rotate_right l true).2 = (rotate_right l true).1.
Proof.
  rewrite !rotate_left_value, !rotate_right_value.
  repeat split; try reflexivity.
  - destruct l; reflexivity.
  - unfold rotate_right. destruct (last l) eqn:E; [reflexivity|].
    apply last_None in E. subst. reflexivity.
Qed.

(** [rotate_right] undoes [rotate_left] and [rotate_left] undoes
    [rotate_right], whatever the modes. *)
Theorem rotate_round_trip (l : list A) (b1 b2 : bool) :
  (rotate_right (rotate_left l b1).1 b2).1 = l
  ∧ (rotate_left (rotate_right l b1).1 b2).1 = l.
Proof.
  split.
  - rewrite rotate_left_value. destruct l as [|x rest];
      rewrite rotate_right_value; [reflexivity|].
    rewrite last_snoc, length_app. simpl.
    replace (length rest + 1 - 1) with (length rest) by lia.
    rewrite take_app_length. reflexivity.
  - rewrite rotate_right_value. destruct l as [|y l] using rev_ind;
      [rewrite rotate_left_value; reflexivity|].
    rewrite last_snoc, length_app. simpl.
    replace (length l + 1 - 1) with (length l) by lia.
    rewrite take_app_length, rotate_left_value. reflexivity.
Qed.

(** A rotation only moves the elements around. *)
Theorem rotate_permutes (l : list A) (b : bool) :
  (rotate_left l b).1 ≡ₚ l ∧ (rotate_right l b).1 ≡ₚ l.
Proof.
  rewrite rotate_left_value, rotate_right_value. split.
  - destruct l as [|x rest]; [reflexivity|]. rewrite Permutation_app_comm. reflexivity.
  - destruct l as [|y l] using rev_ind; [reflexivity|].
    rewrite last_snoc, length_app. simpl.
    replace (length l + 1 - 1) with (length l) by lia.
    rewrite take_app_length. rewrite Permutation_app_comm. reflexivity.
Qed.

Lemma rotate_left_iter (n : nat) (l : list A) (b : bool) :
  n ≤ length l →
  Nat.iter n (λ k, (rotate_left k b).1) l = drop n l ++ take n l.
Proof.
  induction n as [|n IH]; intros Hn.
  - simpl. rewrite drop_0, app_nil_r. reflexivity.
  - simpl. rewrite IH by lia. rewrite rotate_left_value.
    destruct (drop n l) as [|x rest] eqn:E.
    { apply (f_equal length) in E. rewrite length_drop in E. simpl in E. lia. }
    assert (E1 : drop (S n) l = rest).
    { replace (S n) with (n + 1) by lia. rewrite <- drop_drop, E. reflexivity. }
    assert (E2 : take (S n) l = take n l ++ [x]).
    { assert (Hx : l !! n = Some x).
      { rewrite <- (Nat.add_0_r n), <- lookup_drop, E. reflexivity. }
      apply take_S_r, Hx. }
    rewrite E1, E2. simpl. rewrite <- app_assoc. reflexivity.
Qed.

(** Rotating a sequence as many times as it has elements gives the
    sequence back. *)
Theorem rotate_left_full_turn (l : list A) (b : bool) :
  Nat.iter (length l) (λ k, (rotate_left k b).1) l = l.
Proof.
  rewrite rotate_left_iter by lia. rewrite drop_all, take_ge by lia. reflexivity.
Qed.

End Rotations.

(** ** Cells: errors and repeated calls *)

(** [set_value] raises only [SudokuMatrixError], exactly when the cell
    is not locked and the value is neither [None] nor an item of the
    base sequence, and then leaves the cell as it was. *)
Theorem set_value_raises (c : SudokuMatrixCell.t) (value : pyvalue) :
  let unknown := value ≠ PItem INone
                 ∧ ∀ v, value = PItem v → v ∉ SudokuMatrixCell.base_sequence c in
  ((SudokuMatrixCell.set_value value c).1 = Raise SudokuMatrixError
   ↔ SudokuMatrixCell.solved c = false ∧ unknown)
  ∧ (∀ e, (SudokuMatrixCell.set_value value c).1 = Raise e →
          e = SudokuMatrixError ∧ (SudokuMatrixCell.set_value value c).2 = c)
  ∧ (SudokuMatrixCell.set_value value c).1 ≠ OutOfFuel.
Proof.
  unfold SudokuMatrixCell.set_value.
  destruct (SudokuMatrixCell.solved c) eqn:Hs; simpl.
  { split; [split; [discriminate | intros [? _]; discriminate]|].
    split; [intros e; discriminate | discriminate]. }
  destruct value as [v|l].
  - destruct (decide (v = INone)) as [->|Hv]; simpl.
    + split; [split; [discriminate | intros [_ [H _]]; congruence]|].
      split; [intros e; discriminate | discriminate].
    + destruct (decide (v ∈ SudokuMatrixCell.base_sequence c)) as [Hin|Hnin].
      * destruct v; try congruence; simpl;
          (split; [split; [discriminate | intros [_ [_ H]]; exfalso; exact (H _ eq_refl Hin)]|]);
          (split; [intros e; discriminate | discriminate]).
      * destruct v; try congruence; simpl;
          (split; [split; [intros _; split; [reflexivity|];
                           split; [discriminate | intros v' [= <-]; exact Hnin]
                          | reflexivity]|]);
          (split; [intros e [= <-]; auto | discriminate]).
  - simpl. split; [split; [|reflexivity]|].
    + intros _. split; [reflexivity|]. split; [discriminate | intros v; discriminate].
    + split; [intros e [= <-]; auto | discriminate].
Qed.

(** On a cell without duplicate items a second [strip_value] of the
    same value changes nothing and does not call the hook; a value
    that is not in the cell is skipped without any error. *)
Theorem strip_value_twice (c : SudokuMatrixCell.t) (value : pyvalue) :
  NoDup (SudokuMatrixCell.items c) →
  let c1 := (SudokuMatrixCell.strip_value value c).2 in
  SudokuMatrixCell.strip_value value c1 = (Ok false, c1)
  ∧ ∃ called, (SudokuMatrixCell.strip_value value c).1 = Ok called.
Proof.
  intros Hnd c1.
  destruct (strip_value_spec value c) as (b & l' & E & _ & Hlock & _ & _ & _ & Hv).
  split; [|exists b; rewrite E; reflexivity].
  unfold c1. rewrite E. simpl. unfold SudokuMatrixCell.strip_value. simpl.
  destruct (SudokuMatrixCell.solved c) eqn:Hs; [reflexivity|].
  destruct value as [v|l]; [|reflexivity].
  assert (Hn : list_remove_first v l' = None).
  { apply list_remove_first_None. exact (Hv v eq_refl eq_refl Hnd). }
  rewrite Hn. reflexivity.
Qed.

Lemma strip_value_twice_witness :
  let c := Examples.cell4 (Examples.digits [1; 2; 3]%Z) in
  let c1 := (SudokuMatrixCell.strip_value (PItem (IInt 2)) c).2 in
  SudokuMatrixCell.items c1 = Examples.digits [1; 3]%Z
  ∧ SudokuMatrixCell.strip_value (PItem (IInt 2)) c1 = (Ok false, c1).
Proof.
  intros c c1. split; [reflexivity|].
  apply (strip_value_twice c (PItem (IInt 2))). by_compute.
Defined.

(** The [answer] setter keeps the cell invariant: it stores [None] or
    an item of the base sequence, and raises [SudokuMatrixError],
    leaving the cell as it was, for anything else. *)
Theorem set_answer_keeps_invariant (c : SudokuMatrixCell.t) (value : item) :
  Grid.answer_ok c →
  Grid.answer_ok (SudokuMatrixCell.set_answer value c).2
  ∧ (value = INone ∨ value ∈ SudokuMatrixCell.base_sequence c →
     SudokuMatrixCell.set_answer value c = (Ok tt, SudokuMatrixCell.with_answer value c))
  ∧ (¬ (value = INone ∨ value ∈ SudokuMatrixCell.base_sequence c) →
     SudokuMatrixCell.set_answer value c = (Raise SudokuMatrixError, c)).
Proof.
  intros Hok. unfold SudokuMatrixCell.set_answer.
  destruct (decide (value = INone ∨ value ∈ SudokuMatrixCell.base_sequence c)) as [H|H].
  - split; [exact H|]. split; [reflexivity | tauto].
  - split; [exact Hok|]. split; [tauto | reflexivity].
Qed.

Lemma set_answer_keeps_invariant_witness :
  let c := Examples.cell4 (Examples.digits [1; 2; 3]%Z) in
  Grid.answer_ok (SudokuMatrixCell.set_answer (IInt 7) c).2
  ∧ SudokuMatrixCell.set_answer (IInt 7) c = (Raise SudokuMatrixError, c).
Proof.
  intros c.
  destruct (set_answer_keeps_invariant c (IInt 7)) as (H1 & _ & H3).
  - left. reflexivity.
  - split; [exact H1|]. apply H3. intros [H|H]; [discriminate|].
    revert H. apply (bool_decide_eq_false_1 _). vm_compute. reflexivity.
Defined.

(** ** Locations, rows, columns and boxes *)

Section Geometry.
Import SudokuMatrix Grid.

(** [at] raises [IndexError] outside the matrix, whatever the matrix;
    on a well-formed matrix it returns, inside, the cell whose [row]
    and [column] attributes are the location asked for, and every cell
    is found again at its own location. *)
Theorem at_location (m : t) :
  (∀ r c, ¬ (r < rows m ∧ c < columns m) → at_ r c m = Raise IndexError)
  ∧ (wf m →
     (∀ r c, r < rows m → c < columns m →
        ∃ i, at_ r c m = Ok i ∧ i < length (cells m)
             ∧ SudokuMatrixCell.row (deref m i) = r
             ∧ SudokuMatrixCell.column (deref m i) = c)
     ∧ (∀ i, i < length (cells m) →
          at_ (SudokuMatrixCell.row (deref m i)) (SudokuMatrixCell.column (deref m i)) m
          = Ok i)).
Proof.
  split.
  - intros r c H. unfold at_, ensure_inbounds.
    destruct (r <? rows m) eqn:E1; [|reflexivity].
    destruct (c <? columns m) eqn:E2; [|reflexivity].
    apply Nat.ltb_lt in E1, E2. tauto.
  - intros Hwf. split.
    + intros r c Hr Hc. exists (ref m r c). split; [apply at_wf; assumption|].
      pose proof Hwf as (Hb & HN & Hcc & Hlen & _).
      assert (Hi : ref m r c < length (cells m)) by (unfold ref; nia).
      split; [exact Hi|].
      destruct (wf_lookup m _ _ Hwf (deref_valid m _ Hi)) as (R & K & _).
      destruct (coords (columns m) r c Hc) as [E1 E2].
      unfold ref in *. rewrite R, K, E1, E2. auto.
    + intros i Hi. destruct (wf_location m i Hwf Hi) as (Hr & Hc & Href).
      rewrite at_wf by assumption. f_equal. exact Href.
Qed.

Lemma at_location_witness :
  (∀ r c, r < rows Examples.matrix9 → c < columns Examples.matrix9 →
     ∃ i, at_ r c Examples.matrix9 = Ok i ∧ i < length (cells Examples.matrix9)
          ∧ SudokuMatrixCell.row (deref Examples.matrix9 i) = r
          ∧ SudokuMatrixCell.column (deref Examples.matrix9 i) = c)
  ∧ (∀ i, i < length (cells Examples.matrix9) →
       at_ (SudokuMatrixCell.row (deref Examples.matrix9 i))
           (SudokuMatrixCell.column (deref Examples.matrix9 i)) Examples.matrix9
       = Ok i).
Proof.
  apply (at_location Examples.matrix9). by_compute.
Defined.

Lemma length_box_refs m r c : length (box_refs m r c) = box_size m * box_size m.
Proof.
  unfold box_refs. rewrite (length_bind_const _ _ (box_size m)).
  - rewrite length_seq. reflexivity.
  - intros. apply length_seq.
Qed.

(** On a well-formed matrix of side [N], the row, the column and the
    box of a location inside the matrix have [N] cells each, all
    distinct and all cells of the matrix, and the three of them contain
    the cell of the location. *)
Theorem lookups_have_N_cells (m : t) (r c : nat) :
  wf m → r < rows m → c < columns m →
  ∃ row column box,
    get_row_cells r m = Ok row ∧ get_column_cells c m = Ok column
    ∧ get_box_cells r c m = Ok box
    ∧ length row = rows m ∧ length column = rows m ∧ length box = rows m
    ∧ NoDup row ∧ NoDup column ∧ NoDup box
    ∧ (∀ i, i ∈ row ++ column ++ box → i < length (cells m))
    ∧ ref m r c ∈ row ∧ ref m r c ∈ column ∧ ref m r c ∈ box.
Proof.
  intros Hwf Hr Hc. exists (row_refs m r), (column_refs m c), (box_refs m r c).
  pose proof Hwf as (Hb & HN & Hcc & Hlen & _).
  assert (Hn : columns m ≠ 0) by nia.
  split; [apply get_row_cells_wf; assumption|].
  split; [apply get_column_cells_wf; assumption|].
  split; [apply get_box_cells_wf; assumption|].
  split; [unfold row_refs; rewrite length_seq; lia|].
  split; [unfold column_refs; rewrite length_fmap, length_seq; reflexivity|].
  split; [rewrite length_box_refs; lia|].
  split; [apply NoDup_seq|].
  assert (Hinj : Inj (=) (=) (λ k, c + k * columns m)) by (intros i j; nia).
  split; [apply (NoDup_fmap_2 (λ k, c + k * columns m)), NoDup_seq|].
  split; [apply NoDup_box_refs; assumption|].
  split; [intros i; apply unit_refs_valid; assumption|].
  destruct (coords (columns m) r c Hc) as [E1 E2].
  assert (Hi : ref m r c < length (cells m)) by (unfold ref; nia).
  rewrite elem_of_row_refs, elem_of_column_refs, elem_of_box_refs by assumption.
  unfold ref. rewrite E1, E2. auto.
Qed.

Lemma lookups_have_N_cells_witness :
  ∃ row column box,
    get_row_cells 4 Examples.matrix9 = Ok row
    ∧ get_column_cells 5 Examples.matrix9 = Ok column
    ∧ get_box_cells 4 5 Examples.matrix9 = Ok box
    ∧ length row = 9 ∧ length column = 9 ∧ length box = 9
    ∧ NoDup row ∧ NoDup column ∧ NoDup box
    ∧ (∀ i, i ∈ row ++ column ++ box → i < length (cells Examples.matrix9))
    ∧ 41 ∈ row ∧ 41 ∈ column ∧ 41 ∈ box.
Proof.
  apply (lookups_have_N_cells Examples.matrix9 4 5).
  - by_compute.
  - vm_compute. lia.
  - vm_compute. lia.
Defined.

(** The three lookups raise [IndexError] for a row or a column outside
    the matrix, whatever the matrix, and so does [get_unit_cells]. *)
Theorem lookups_out_of_bounds (m : t) (r c : nat) :
  (rows m ≤ r → get_row_cells r m = Raise IndexError)
  ∧ (columns m ≤ c → get_column_cells c m = Raise IndexError)
  ∧ (rows m ≤ r ∨ columns m ≤ c →
     get_box_cells r c m = Raise IndexError
     ∧ get_unit_cells r c m = Raise IndexError).
Proof.
  unfold get_unit_cells, get_row_cells, get_column_cells, get_box_cells, ensure_inbounds.
  split; [|split].
  - intros H. apply Nat.ltb_ge in H. rewrite H. reflexivity.
  - intros H. apply Nat.ltb_ge in H. rewrite H, andb_false_r. reflexivity.
  - intros H.
    destruct (r <? rows m) eqn:E1; [|split; reflexivity].
    destruct (c <? columns m) eqn:E2.
    { apply Nat.ltb_lt in E1, E2. lia. }
    simpl. split; [reflexivity|].
    destruct (0 <? columns m); simpl; [|reflexivity].
    destruct (0 <? rows m); reflexivity.
Qed.

Lemma lookups_out_of_bounds_witness :
  get_row_cells 9 Examples.matrix9 = Raise IndexError
  ∧ get_unit_cells 0 9 Examples.matrix9 = Raise IndexError.
Proof.
  split.
  - apply (lookups_out_of_bounds Examples.matrix9 9 0). vm_compute. lia.
  - apply (lookups_out_of_bounds Examples.matrix9 0 9). right. vm_compute. lia.
Defined.

(** [get_rows] and [get_columns] of a well-formed matrix: the rows are
    what [get_row_cells] returns, the columns what [get_column_cells]
    returns, and the columns are the rows transposed: the cell number
    [r] of column [c] is the cell number [c] of row [r]. *)
Theorem rows_and_columns (m : t) :
  wf m →
  length (get_rows m) = rows m ∧ length (get_columns m) = columns m
  ∧ (∀ r, r < rows m → ∃ l, get_rows m !! r = Some l ∧ get_row_cells r m = Ok l)
  ∧ (∀ c, c < columns m → ∃ l, get_columns m !! c = Some l ∧ get_column_cells c m = Ok l)
  ∧ (∀ r c, r < rows m → c < columns m →
       ∃ row column, get_rows m !! r = Some row ∧ get_columns m !! c = Some column
                     ∧ row !! c = Some (ref m r c) ∧ column !! r = Some (ref m r c)).
Proof.
  intros Hwf. pose proof Hwf as (Hb & HN & Hcc & Hlen & _).
  assert (Hrow : ∀ r, r < rows m → get_rows m !! r = Some (row_refs m r)).
  { intros r Hr. unfold get_rows. rewrite list_lookup_fmap, lookup_seq_lt by exact Hr.
    simpl. f_equal. rewrite slice_refs_inside by nia. unfold row_refs. f_equal. lia. }
  assert (Hcol : ∀ c, c < columns m → get_columns m !! c = Some (column_refs m c)).
  { intros c Hc. unfold get_columns. rewrite list_lookup_fmap, lookup_seq_lt by exact Hc.
    simpl. f_equal. rewrite Hlen, Hcc. rewrite stride_refs_column by lia.
    unfold column_refs. rewrite Hcc. reflexivity. }
  split; [unfold get_rows; rewrite length_fmap, length_seq; reflexivity|].
  split; [unfold get_columns; rewrite length_fmap, length_seq; reflexivity|].
  split; [|split].
  - intros r Hr. exists (row_refs m r). split; [apply Hrow, Hr|].
    apply get_row_cells_wf; assumption.
  - intros c Hc. exists (column_refs m c). split; [apply Hcol, Hc|].
    apply get_column_cells_wf; assumption.
  - intros r c Hr Hc. exists (row_refs m r), (column_refs m c).
    split; [apply Hrow, Hr|]. split; [apply Hcol, Hc|]. split.
    + unfold row_refs, ref. rewrite lookup_seq_lt by exact Hc. reflexivity.
    + unfold column_refs, ref. rewrite list_lookup_fmap, lookup_seq_lt by exact Hr.
      simpl. f_equal. lia.
Qed.

Lemma rows_and_columns_witness :
  length (get_rows Examples.matrix4) = 4
  ∧ ∃ row column, get_rows Examples.matrix4 !! 1 = Some row
                  ∧ get_columns Examples.matrix4 !! 2 = Some column
                  ∧ row !! 2 = Some 6 ∧ column !! 1 = Some 6.
Proof.
  destruct (rows_and_columns Examples.matrix4) as (H1 & _ & _ & _ & H5); [by_compute|].
  split; [exact H1|]. apply (H5 1 2); vm_compute; lia.
Defined.

Lemma elem_of_unit m r c x :
  wf m → r < rows m → c < columns m →
  x ∈ row_refs m r ++ column_refs m c ++ box_refs m r c ↔
  x < length (cells m)
  ∧ (x / columns m = r ∨ x `mod` columns m = c
     ∨ (x / columns m / box_size m = r / box_size m
        ∧ x `mod` columns m / box_size m = c / box_size m)).
Proof.
  intros Hwf Hr Hc. rewrite !elem_of_app.
  rewrite elem_of_row_refs, elem_of_column_refs, elem_of_box_refs by assumption. tauto.
Qed.

(** Being in the unit of a cell is symmetric: on a well-formed matrix
    the cell [j] is in the unit of the cell [i] exactly when [i] is in
    the unit of [j]; and every cell is in its own unit. *)
Theorem unit_is_symmetric (m : t) (i j : nat) :
  wf m → i < length (cells m) → j < length (cells m) →
  ∃ ui uj,
    get_unit_cells (SudokuMatrixCell.row (deref m i)) (SudokuMatrixCell.column (deref m i)) m
    = Ok ui
    ∧ get_unit_cells (SudokuMatrixCell.row (deref m j)) (SudokuMatrixCell.column (deref m j)) m
      = Ok uj
    ∧ (j ∈ ui ↔ i ∈ uj) ∧ i ∈ ui.
Proof.
  intros Hwf Hi Hj.
  destruct (wf_location m i Hwf Hi) as (Hri & Hci & _).
  destruct (wf_location m j Hwf Hj) as (Hrj & Hcj & _).
  destruct (wf_lookup m i _ Hwf (deref_valid m i Hi)) as (Ri & Ki & _).
  destruct (wf_lookup m j _ Hwf (deref_valid m j Hj)) as (Rj & Kj & _).
  eexists _, _. split; [apply get_unit_cells_wf; assumption|].
  split; [apply get_unit_cells_wf; assumption|].
  rewrite !elem_of_list_to_set, !elem_of_unit by assumption.
  rewrite Ri, Ki, Rj, Kj. split; [|tauto].
  split; intros [_ H]; (split; [assumption|]);
    destruct H as [H|[H|[H1 H2]]]; auto.
Qed.

Lemma unit_is_symmetric_witness :
  ∃ ui uj,
    get_unit_cells (SudokuMatrixCell.row (deref Examples.matrix9 3))
      (SudokuMatrixCell.column (deref Examples.matrix9 3)) Examples.matrix9 = Ok ui
    ∧ get_unit_cells (SudokuMatrixCell.row (deref Examples.matrix9 75))
        (SudokuMatrixCell.column (deref Examples.matrix9 75)) Examples.matrix9 = Ok uj
    ∧ (75 ∈ ui ↔ 3 ∈ uj) ∧ 3 ∈ ui.
Proof.
  apply (unit_is_symmetric Examples.matrix9 3 75).
  - by_compute.
  - vm_compute. lia.
  - vm_compute. lia.
Defined.

Lemma boxes_of_wf m (locs : list (nat * nat)) :
  wf m → (∀ p, p ∈ locs → p.1 < rows m ∧ p.2 < columns m) →
  boxes_of locs m = Ok ((λ p, box_refs m p.1 p.2) <$> locs).
Proof.
  intros Hwf. induction locs as [|[r c] locs IH]; intros H; [reflexivity|].
  cbn [boxes_of]. destruct (H (r, c)) as [Hr Hc]; [left|].
  rewrite get_box_cells_wf by assumption. rewrite IH; [reflexivity|].
  intros p Hp. apply H. right. exact Hp.
Qed.

Lemma concat_fmap_bind {X Y} (f : X → list Y) (l : list X) :
  concat (f <$> l) = l ≫= f.
Proof. induction l as [|x l IH]; [reflexivity|]. csimpl. rewrite IH. reflexivity. Qed.

(** The boxes partition a well-formed matrix of side [N]: [get_boxes]
    returns [N] boxes of [N] cells each, and every cell of the matrix
    is in exactly one of them. *)
Theorem boxes_partition (m : t) :
  wf m →
  ∃ boxes, get_boxes m = Ok boxes
           ∧ length boxes = rows m
           ∧ (∀ b, b ∈ boxes → length b = rows m)
           ∧ concat boxes ≡ₚ seq 0 (length (cells m)).
Proof.
  intros Hwf. pose proof Hwf as (Hb & HN & Hcc & Hlen & _).
  set (b := box_size m) in *.
  assert (Hq : rows m / b = b) by (rewrite HN; apply Nat.div_mul; lia).
  assert (Hq' : columns m / b = b) by (rewrite Hcc; exact Hq).
  set (locs := r ← seq 0 b; c ← seq 0 b; [(r * b, c * b)]).
  assert (Hlocs : ∀ p, p ∈ locs ↔ ∃ r c, r < b ∧ c < b ∧ p = (r * b, c * b)).
  { intros p. unfold locs. rewrite list_elem_of_bind. split.
    - intros (r & Hp & Hr%elem_of_seq). apply list_elem_of_bind in Hp as (c & Hp & Hc%elem_of_seq).
      apply list_elem_of_singleton in Hp. exists r, c. split; [lia|]. split; [lia | exact Hp].
    - intros (r & c & Hr & Hc & ->). exists r. split; [|apply elem_of_seq; lia].
      apply list_elem_of_bind. exists c. split; [left | apply elem_of_seq; lia]. }
  assert (Hin : ∀ p, p ∈ locs → p.1 < rows m ∧ p.2 < columns m).
  { intros p (r & c & Hr & Hc & ->)%Hlocs. simpl. rewrite Hcc, HN. fold b. nia. }
  exists ((λ p, box_refs m p.1 p.2) <$> locs).
  split; [|split; [|split]].
  - unfold get_boxes. fold b. assert (E : (b =? 0) = false) by (apply Nat.eqb_neq; lia).
    rewrite E, Hq, Hq'. apply boxes_of_wf; assumption.
  - rewrite length_fmap. unfold locs.
    rewrite (length_bind_const _ _ b).
    + rewrite length_seq. symmetry. exact HN.
    + intros r _. rewrite (length_bind_const _ _ 1) by reflexivity.
      rewrite length_seq. lia.
  - intros l (p & -> & _)%list_elem_of_fmap. rewrite length_box_refs. symmetry. exact HN.
  - rewrite concat_fmap_bind. apply NoDup_Permutation.
    + apply NoDup_bind.
      * intros p1 p2 x (r1 & c1 & Hr1 & Hc1 & ->)%Hlocs (r2 & c2 & Hr2 & Hc2 & ->)%Hlocs.
        simpl. rewrite !elem_of_box_refs by (rewrite ?Hcc, ?HN; fold b; try assumption; nia).
        fold b. rewrite !Nat.div_mul by lia.
        intros (_ & E1 & E2) (_ & E3 & E4). congruence.
      * intros p Hp. destruct (Hin p Hp). apply NoDup_box_refs; assumption.
      * unfold locs. apply NoDup_bind.
        -- intros r1 r2 p _ _ (c1 & Hp1 & _)%list_elem_of_bind (c2 & Hp2 & _)%list_elem_of_bind.
           apply list_elem_of_singleton in Hp1, Hp2. subst p. injection Hp2 as E _. nia.
        -- intros r _. apply NoDup_bind.
           ++ intros c1 c2 p _ _ Hp1%list_elem_of_singleton Hp2%list_elem_of_singleton.
              subst p. injection Hp2 as E. nia.
           ++ intros. apply NoDup_singleton.
           ++ apply NoDup_seq.
        -- apply NoDup_seq.
    + apply NoDup_seq.
    + intros x. rewrite list_elem_of_bind, elem_of_seq. split.
      * intros (p & Hx & Hp). destruct (Hin p Hp).
        apply elem_of_box_refs in Hx; [lia | assumption..].
      * intros [_ Hx]. rewrite Nat.add_0_l in Hx.
        assert (Hn : columns m ≠ 0) by nia.
        assert (H1 : x / columns m < rows m).
        { apply Nat.Div0.div_lt_upper_bound. nia. }
        assert (H2 : x `mod` columns m < columns m) by (apply Nat.mod_upper_bound, Hn).
        assert (H3 : x / columns m / b < b).
        { apply Nat.Div0.div_lt_upper_bound. rewrite <- HN. exact H1. }
        assert (H4 : x `mod` columns m / b < b).
        { apply Nat.Div0.div_lt_upper_bound. rewrite <- HN, <- Hcc. exact H2. }
        exists (x / columns m / b * b, x `mod` columns m / b * b). split.
        -- apply elem_of_box_refs; [assumption | cbn [fst snd]; nia
                                    | cbn [fst snd]; nia |].
           cbn [fst snd]. fold b. rewrite !Nat.div_mul by lia. auto.
        -- apply Hlocs. eauto.
Qed.

Lemma boxes_partition_witness :
  ∃ boxes, get_boxes Examples.matrix9 = Ok boxes
           ∧ length boxes = 9
           ∧ (∀ b, b ∈ boxes → length b = 9)
           ∧ concat boxes ≡ₚ seq 0 81.
Proof.
  apply (boxes_partition Examples.matrix9). by_compute.
Defined.

End Geometry.

(** ** The matrix: stripping a value *)

Section Stripping.
Import SudokuMatrix Grid.
Context {Q : Type} `{CellHook Q}.

Lemma strip_cells_cons value x l m :
  x ∉ l → x < length (cells m) →
  strip_cells value l
    (with_cells (<[x := (SudokuMatrixCell.strip_value value (deref m x)).2]> (cells m)) m)
  = strip_cells value (x :: l) m.
Proof.
  intros Hx Hlt. unfold strip_cells, with_cells; cbn. f_equal.
  apply list_eq. intros j. rewrite !list_lookup_imap.
  destruct (decide (j = x)) as [->|Hne].
  - rewrite list_lookup_insert_eq by exact Hlt.
    destruct (lookup_lt_is_Some_2 _ _ Hlt) as [c Hc].
    rewrite Hc. cbn. rewrite decide_False by exact Hx.
    rewrite decide_True by (apply list_elem_of_here).
    unfold deref. cbn. rewrite Hc. reflexivity.
  - rewrite list_lookup_insert_ne by congruence.
    destruct (cells m !! j) as [c|]; [|reflexivity]. cbn.
    destruct (decide (j ∈ l)) as [Hin|Hnin].
    + rewrite decide_True by (apply list_elem_of_further; exact Hin). reflexivity.
    + rewrite decide_False; [reflexivity|].
      intros Hc%elem_of_cons; destruct Hc; tauto.
Qed.

Lemma strip_hooks_cons value x l m c' (q : Q) :
  x ∉ l →
  strip_hooks value l (with_cells (<[x := c']> (cells m)) m) q
  = strip_hooks value l m q.
Proof.
  intros Hx. unfold strip_hooks. revert q.
  induction l as [|y l IH]; intros q; [reflexivity|].
  cbn [foldl].
  assert (Hy : strip_fired value (with_cells (<[x:=c']> (cells m)) m) y
               = strip_fired value m y).
  { unfold strip_fired, deref; cbn. rewrite list_lookup_insert_ne; [reflexivity|].
    intros ->. apply Hx, list_elem_of_here. }
  rewrite Hy. apply IH. intros Hin. apply Hx, list_elem_of_further, Hin.
Qed.

Lemma strip_loop_exact value l (s : t * Q) :
  NoDup l → (∀ j, j ∈ l → j < length (cells s.1)) →
  for_each l (λ i, cell_call i (SudokuMatrixCell.strip_value value)) s
  = (Ok tt, (strip_cells value l s.1, strip_hooks value l s.1 s.2)).
Proof.
  revert s. induction l as [|x l IH]; intros [m q] Hnd Hv; cbn [fst snd] in *.
  - cbn. unfold strip_cells, strip_hooks. cbn. f_equal. f_equal.
    destruct m; unfold with_cells; cbn. f_equal.
    apply list_eq. intros j. rewrite list_lookup_imap.
    destruct (_ !! j); [|reflexivity]. cbn.
    rewrite decide_False; [reflexivity|]. apply not_elem_of_nil.
  - apply NoDup_cons in Hnd as [Hx Hnd].
    assert (Hlt : x < length (cells m)) by (apply Hv, list_elem_of_here).
    destruct (lookup_lt_is_Some_2 _ _ Hlt) as [c Hc].
    destruct (strip_value_spec value c) as (b & l' & E & _).
    cbn [for_each]. rewrite bind_unfold.
    rewrite (cell_call_valid _ _ (m, q) c b _ Hc E). cbn [fst snd].
    rewrite IH; cbn [fst snd].
    + f_equal. f_equal.
      * replace (SudokuMatrixCell.with_items l' c)
          with (SudokuMatrixCell.strip_value value (deref m x)).2
          by (rewrite (deref_lookup _ _ _ Hc), E; reflexivity).
        apply strip_cells_cons; assumption.
      * rewrite strip_hooks_cons by exact Hx.
        unfold strip_hooks at 2. cbn [foldl].
        unfold strip_fired at 2. rewrite (deref_lookup _ _ _ Hc), E. cbn.
        destruct b; reflexivity.
    + exact Hnd.
    + intros j Hj. cbn. rewrite length_insert. apply Hv, list_elem_of_further, Hj.
Qed.


Lemma deref_strip_cells value l m j :
  deref (strip_cells value l m) j
  = if decide (j ∈ l ∧ j < length (cells m))
    then (SudokuMatrixCell.strip_value value (deref m j)).2 else deref m j.
Proof.
  unfold deref, strip_cells; cbn. rewrite list_lookup_imap.
  destruct (cells m !! j) as [c|] eqn:E; cbn.
  - apply lookup_lt_Some in E as Hlt.
    destruct (decide (j ∈ l)).
    + rewrite decide_True by tauto. reflexivity.
    + rewrite decide_False by tauto. reflexivity.
  - apply lookup_ge_None in E. rewrite decide_False by lia. reflexivity.
Qed.

Lemma strip_cells_perm value l l' m :
  l ≡ₚ l' → strip_cells value l m = strip_cells value l' m.
Proof.
  intros Hp. unfold strip_cells. f_equal. apply imap_ext. intros j c _.
  destruct (decide (j ∈ l)) as [Hin|Hnin].
  - rewrite decide_True by (rewrite <- Hp; exact Hin). reflexivity.
  - rewrite decide_False by (rewrite <- Hp; exact Hnin). reflexivity.
Qed.

Lemma strip_hooks_perm value l l' m :
  (∀ i j (q : Q), on_unique_value i (on_unique_value j q)
                  = on_unique_value j (on_unique_value i q)) →
  l ≡ₚ l' → ∀ q : Q, strip_hooks value l m q = strip_hooks value l' m q.
Proof.
  intros Hcomm Hp. unfold strip_hooks.
  induction Hp as [|x l l' _ IH|x y l|l1 l2 l3 _ IH1 _ IH2]; intros q; cbn [foldl].
  - reflexivity.
  - apply IH.
  - destruct (strip_fired value m x), (strip_fired value m y);
      try reflexivity. rewrite Hcomm. reflexivity.
  - rewrite IH1. apply IH2.
Qed.

Lemma at_strip_cells value l m r c :
  at_ r c (strip_cells value l m) = at_ r c m.
Proof.
  unfold at_, ensure_inbounds, strip_cells; cbn. rewrite length_imap. reflexivity.
Qed.

(** What [strip_value] runs on a well-formed matrix, for a location
    inside it. *)
Lemma strip_value_run order value r c m (q : Q) :
  (∀ u, order u ≡ₚ elements u) →
  wf m → r < rows m → c < columns m →
  strip_value_in_order order value r c (m, q)
  = cell_call (ref m r c) (SudokuMatrixCell.set_value value)
      (strip_cells value (order (unit_of m r c)) m,
       strip_hooks value (order (unit_of m r c)) m q).
Proof.
  intros Ho Hwf Hr Hc. unfold strip_value_in_order.
  rewrite bind_unfold. unfold query at 1. cbn [fst snd].
  rewrite get_unit_cells_wf by assumption. fold (unit_of m r c).
  rewrite bind_unfold, strip_loop_exact; cbn [fst snd].
  - rewrite bind_unfold. unfold query. cbn [fst snd].
    rewrite at_strip_cells, at_wf by assumption. reflexivity.
  - rewrite Ho. apply NoDup_elements.
  - intros j Hj. rewrite Ho in Hj.
    apply elem_of_elements, elem_of_list_to_set in Hj.
    eapply unit_refs_valid; eassumption.
Qed.


Lemma ref_in_unit m r c :
  wf m → r < rows m → c < columns m →
  ref m r c ∈ unit_of m r c ∧ ref m r c < length (cells m).
Proof.
  intros Hwf Hr Hc. pose proof Hwf as (Hb & HN & Hcc & Hlen & _).
  assert (Hlt : ref m r c < length (cells m)) by (unfold ref; nia).
  split; [|exact Hlt].
  unfold unit_of. rewrite elem_of_list_to_set, elem_of_app. left.
  apply elem_of_row_refs; [assumption..|]. split; [exact Hlt|].
  unfold ref. rewrite Nat.div_add_l by lia. rewrite Nat.div_small by lia. lia.
Qed.

Lemma strip_keeps_attributes value c :
  SudokuMatrixCell.solved (SudokuMatrixCell.strip_value value c).2 = SudokuMatrixCell.solved c
  ∧ SudokuMatrixCell.base_sequence (SudokuMatrixCell.strip_value value c).2
    = SudokuMatrixCell.base_sequence c
  ∧ SudokuMatrixCell.items (SudokuMatrixCell.strip_value value c).2
    `sublist_of` SudokuMatrixCell.items c
  ∧ (SudokuMatrixCell.solved c = true → (SudokuMatrixCell.strip_value value c).2 = c).
Proof.
  destruct (strip_value_spec value c) as (b & l' & E & Hsub & Hlock & _).
  rewrite E. cbn. repeat split; try assumption.
  intros Hs. destruct (Hlock Hs) as [-> _]. apply with_items_id.
Qed.

Lemma get_unit_cells_outside m r c :
  rows m ≤ r ∨ columns m ≤ c → get_unit_cells r c m = Raise IndexError.
Proof.
  intros Hout.
  unfold get_unit_cells, get_row_cells, get_column_cells, get_box_cells, ensure_inbounds.
  destruct (r <? rows m) eqn:E1; [|reflexivity].
  destruct (c <? columns m) eqn:E2.
  { apply Nat.ltb_lt in E1, E2. lia. }
  simpl. destruct (0 <? columns m); simpl; [|reflexivity].
  destruct (0 <? rows m); reflexivity.
Qed.

(** [strip_value] for a location outside the matrix raises
    [IndexError] before it touches a cell: the matrix and the state of
    its owner are as before. *)
Theorem strip_value_out_of_bounds (s : t * Q) (value : pyvalue) (r c : nat) :
  rows s.1 ≤ r ∨ columns s.1 ≤ c →
  strip_value value r c s = (Raise IndexError, s).
Proof.
  intros Hout. unfold strip_value. rewrite bind_unfold. unfold query. cbn [fst snd].
  rewrite get_unit_cells_outside by exact Hout. reflexivity.
Qed.

(** The result of [strip_value] on a well-formed matrix does not
    depend on the order in which the loop takes the cells of the set
    [get_unit_cells] returns, when the hooks of two cells commute (the
    hook of the solver adds the cell to a set, the default hook does
    nothing): the matrix, the state of the owner and the outcome are
    the same for every order. *)
Theorem strip_value_any_order (order : gset nat → list nat) (s : t * Q)
    (value : pyvalue) (r c : nat) :
  (∀ i j (q : Q), on_unique_value i (on_unique_value j q)
                  = on_unique_value j (on_unique_value i q)) →
  (∀ u, order u ≡ₚ elements u) →
  wf s.1 →
  strip_value_in_order order value r c s = strip_value value r c s.
Proof.
  intros Hcomm Ho Hwf. destruct s as [m q]. cbn [fst] in Hwf.
  destruct (decide (r < rows m ∧ c < columns m)) as [[Hr Hc]|Hout].
  - change (strip_value value r c (m, q))
      with (strip_value_in_order elements value r c (m, q)).
    rewrite !strip_value_run by (assumption || reflexivity).
    rewrite (strip_cells_perm _ _ _ _ (Ho _)).
    rewrite (strip_hooks_perm _ _ _ _ Hcomm (Ho _)). reflexivity.
  - unfold strip_value_in_order, strip_value. rewrite !bind_unfold.
    unfold query. cbn [fst snd].
    rewrite get_unit_cells_outside by lia. reflexivity.
Qed.

(** [strip_value] with a value that is neither [None] nor an item of
    the base sequence, for a cell that is not locked: the cells of the
    unit are stripped and their hooks run first, then
    [SudokuMatrixError] is raised; nothing is rolled back. *)
Theorem strip_value_unknown_value (m : t) (q : Q) (r c : nat) (v : item) :
  wf m → r < rows m → c < columns m →
  v ≠ INone → v ∉ base_sequence m →
  solved_at m (ref m r c) = false →
  strip_value (PItem v) r c (m, q)
  = (Raise SudokuMatrixError,
     (strip_cells (PItem v) (elements (unit_of m r c)) m,
      strip_hooks (PItem v) (elements (unit_of m r c)) m q)).
Proof.
  intros Hwf Hr Hc Hv Hbase Hs.
  change (strip_value (PItem v) r c (m, q))
    with (strip_value_in_order elements (PItem v) r c (m, q)).
  rewrite strip_value_run by (assumption || reflexivity).
  destruct (ref_in_unit m r c Hwf Hr Hc) as [Hin Hlt].
  set (l := elements (unit_of m r c)).
  set (m1 := strip_cells (PItem v) l m).
  pose proof (deref_strip_cells (PItem v) l m (ref m r c)) as Hd. fold m1 in Hd.
  rewrite decide_True in Hd by (split; [apply elem_of_elements, Hin | exact Hlt]).
  destruct (strip_keeps_attributes (PItem v) (deref m (ref m r c))) as (Hk1 & Hk2 & _).
  rewrite <- Hd in Hk1, Hk2.
  assert (Hb : v ∉ SudokuMatrixCell.base_sequence (deref m1 (ref m r c))).
  { rewrite Hk2. destruct (wf_lookup _ _ _ Hwf (deref_valid _ _ Hlt)) as (_ & _ & ->).
    exact Hbase. }
  assert (Hlt1 : ref m r c < length (cells m1)).
  { unfold m1, strip_cells; cbn. rewrite length_imap. exact Hlt. }
  unfold cell_call. cbn [fst snd].
  assert (E : SudokuMatrixCell.set_value (PItem v) (deref m1 (ref m r c))
              = (Raise SudokuMatrixError, deref m1 (ref m r c))).
  { unfold SudokuMatrixCell.set_value. rewrite Hk1. unfold solved_at in Hs. rewrite Hs.
    destruct v; [congruence| |]; rewrite decide_False by exact Hb; reflexivity. }
  rewrite E. cbn [fst snd].
  rewrite list_insert_id by (apply deref_valid; exact Hlt1).
  rewrite with_cells_id. reflexivity.
Qed.

(** [strip_value] for a location of a well-formed matrix returns
    normally or raises [SudokuMatrixError], and works inside the unit
    of the location: a cell outside the set [get_unit_cells] returns,
    and a locked cell, are left as they were, and no cell but the one
    of the location gains an item. *)
Theorem strip_value_stays_in_unit (m : t) (q : Q) (value : pyvalue) (r c : nat) :
  wf m → r < rows m → c < columns m →
  ∃ res m' q',
    strip_value value r c (m, q) = (res, (m', q'))
    ∧ (res = Ok tt ∨ res = Raise SudokuMatrixError)
    ∧ get_unit_cells r c m = Ok (unit_of m r c)
    ∧ (∀ j, j ∉ unit_of m r c → deref m' j = deref m j)
    ∧ (∀ j, solved_at m j = true → deref m' j = deref m j)
    ∧ (∀ j, j ≠ ref m r c → items_at m' j `sublist_of` items_at m j).
Proof.
  intros Hwf Hr Hc.
  change (strip_value value r c (m, q))
    with (strip_value_in_order elements value r c (m, q)).
  rewrite strip_value_run by (assumption || reflexivity).
  destruct (ref_in_unit m r c Hwf Hr Hc) as [Hin Hlt].
  set (l := elements (unit_of m r c)).
  set (m1 := strip_cells value l m). set (q1 := strip_hooks value l m q).
  set (i := ref m r c) in *.
  pose proof (deref_strip_cells value l m) as Hd. fold m1 in Hd.
  assert (Hlt1 : i < length (cells m1)).
  { unfold m1, strip_cells; cbn. rewrite length_imap. exact Hlt. }
  assert (Hsi : SudokuMatrixCell.solved (deref m1 i) = SudokuMatrixCell.solved (deref m i)).
  { rewrite Hd. destruct (decide _); [|reflexivity].
    apply strip_keeps_attributes. }
  assert (Hrun : ∃ res c' q',
            cell_call i (SudokuMatrixCell.set_value value) (m1, q1)
            = (res, (with_cells (<[i := c']> (cells m1)) m1, q'))
            ∧ (res = Ok tt ∨ res = Raise SudokuMatrixError)
            ∧ (SudokuMatrixCell.solved (deref m i) = true → c' = deref m1 i)).
  { unfold cell_call, SudokuMatrixCell.set_value. cbn [fst snd]. rewrite Hsi.
    destruct (SudokuMatrixCell.solved (deref m i)); cbn [fst snd].
    { eexists _, _, _. split; [reflexivity|]. split; [left|]; reflexivity. }
    destruct value as [[| |]|]; cbn [fst snd];
      try destruct (decide _); cbn [fst snd];
      eexists _, _, _; (split; [reflexivity|]); (split; [|discriminate]); auto. }
  destruct Hrun as (res & c' & q' & -> & Hres & Hc').
  eexists res, _, q'. split; [reflexivity|]. split; [exact Hres|].
  split; [apply get_unit_cells_wf; assumption|].
  assert (Hne : ∀ j, j ≠ i →
            deref (with_cells (<[i:=c']> (cells m1)) m1) j = deref m1 j).
  { intros j Hj. unfold deref; cbn. rewrite list_lookup_insert_ne by congruence.
    reflexivity. }
  split; [|split].
  - intros j Hj. rewrite Hne by (intros ->; exact (Hj Hin)).
    rewrite Hd, decide_False; [reflexivity|].
    intros [Hjl _]. apply Hj, elem_of_elements, Hjl.
  - intros j Hj. unfold solved_at in Hj.
    assert (E1 : deref m1 j = deref m j).
    { rewrite Hd. destruct (decide _); [|reflexivity].
      apply strip_keeps_attributes, Hj. }
    destruct (decide (j = i)) as [->|Hji].
    + unfold deref at 1; cbn. rewrite list_lookup_insert_eq by exact Hlt1. cbn.
      rewrite (Hc' Hj). exact E1.
    + rewrite Hne by exact Hji. exact E1.
  - intros j Hj. unfold items_at. rewrite Hne by exact Hj. rewrite Hd.
    destruct (decide _); [|reflexivity]. apply strip_keeps_attributes.
Qed.

End Stripping.

Lemma strip_value_out_of_bounds_witness :
  SudokuMatrix.strip_value (PItem (IInt 1)) 4 0 (Examples.solver4 [])
  = (Raise IndexError, Examples.solver4 []).
Proof.
  apply (strip_value_out_of_bounds (Examples.solver4 []) (PItem (IInt 1)) 4 0).
  left. vm_compute. lia.
Defined.

Lemma strip_value_any_order_witness :
  SudokuMatrix.strip_value_in_order (λ u, reverse (elements u)) (PItem (IInt 2)) 1 2
    (Examples.solver4 [])
  = SudokuMatrix.strip_value (PItem (IInt 2)) 1 2 (Examples.solver4 []).
Proof.
  apply (strip_value_any_order (λ u, reverse (elements u)) (Examples.solver4 [])
           (PItem (IInt 2)) 1 2).
  - intros i j q.
    unfold on_unique_value, SudokuMatrixSolver.solver_hook,
      SudokuMatrixSolver.register_for_cleanups.
    cbn [SudokuMatrixSolver.cleanups SudokuMatrixSolver.step]. f_equal.
    rewrite !(assoc_L (∪)), (comm_L (∪) {[i]} {[j]}). reflexivity.
  - intros u. apply reverse_Permutation.
  - by_compute.
Defined.

Lemma strip_value_unknown_value_witness :
  SudokuMatrix.strip_value (PItem (IInt 7)) 1 2 (Examples.matrix4, tt)
  = (Raise SudokuMatrixError,
     (Grid.strip_cells (PItem (IInt 7)) (elements (Grid.unit_of Examples.matrix4 1 2))
        Examples.matrix4,
      Grid.strip_hooks (PItem (IInt 7)) (elements (Grid.unit_of Examples.matrix4 1 2))
        Examples.matrix4 tt)).
Proof.
  apply (strip_value_unknown_value Examples.matrix4 tt 1 2 (IInt 7)).
  - by_compute.
  - vm_compute. lia.
  - vm_compute. lia.
  - discriminate.
  - by_compute.
  - reflexivity.
Defined.

Lemma strip_value_stays_in_unit_witness :
  ∃ res m' q',
    SudokuMatrix.strip_value (PItem (IInt 2)) 1 2 (Examples.matrix4, tt) = (res, (m', q'))
    ∧ (res = Ok tt ∨ res = Raise SudokuMatrixError)
    ∧ SudokuMatrix.get_unit_cells 1 2 Examples.matrix4 = Ok (Grid.unit_of Examples.matrix4 1 2)
    ∧ (∀ j, j ∉ Grid.unit_of Examples.matrix4 1 2 →
            SudokuMatrix.deref m' j = SudokuMatrix.deref Examples.matrix4 j)
    ∧ (∀ j, Grid.solved_at Examples.matrix4 j = true →
            SudokuMatrix.deref m' j = SudokuMatrix.deref Examples.matrix4 j)
    ∧ (∀ j, j ≠ Grid.ref Examples.matrix4 1 2 →
            Grid.items_at m' j `sublist_of` Grid.items_at Examples.matrix4 j).
Proof.
  apply (strip_value_stays_in_unit Examples.matrix4 tt (PItem (IInt 2)) 1 2).
  - by_compute.
  - vm_compute. lia.
  - vm_compute. lia.
Defined.

(** ** The matrix: assigning values to a row, a column or the first cells *)

Section Assigning.
Import SudokuMatrix Grid.
Context {Q : Type} `{CellHook Q}.

Lemma set_value_ok c v :
  SudokuMatrixCell.solved c = true ∨ v = INone ∨ v ∈ SudokuMatrixCell.base_sequence c →
  SudokuMatrixCell.set_value (PItem v) c
  = (Ok (if SudokuMatrixCell.solved c then false
         else if decide (v = INone) then false else true),
     if SudokuMatrixCell.solved c then c else SudokuMatrixCell.with_items [v] c).
Proof.
  intros Hok. unfold SudokuMatrixCell.set_value.
  destruct (SudokuMatrixCell.solved c); [reflexivity|].
  destruct Hok as [Hs|[-> | Hin]]; [discriminate|reflexivity|].
  destruct v; try reflexivity; rewrite decide_True by exact Hin; reflexivity.
Qed.

Lemma assign_hooks_ext l m m' (q : Q) :
  (∀ j, solved_at m' j = solved_at m j) →
  assign_hooks l m' q = assign_hooks l m q.
Proof.
  intros Hs. unfold assign_hooks. revert q.
  induction l as [|p l IH]; intros q; [reflexivity|].
  cbn [foldl]. rewrite Hs. apply IH.
Qed.

Lemma deref_insert m i c' j :
  i < length (cells m) →
  deref (with_cells (<[i := c']> (cells m)) m) j = if decide (i = j) then c' else deref m j.
Proof.
  intros Hi. unfold deref; cbn. destruct (decide (i = j)) as [->|Hne].
  - rewrite list_lookup_insert_eq by exact Hi. reflexivity.
  - rewrite list_lookup_insert_ne by exact Hne. reflexivity.
Qed.

(** The loop [for cell, value in pairs: cell.set_value(value)] over
    distinct cells, when no value is refused. *)
Lemma assign_loop (l : list (nat * item)) (s : t * Q) :
  NoDup l.*1 →
  (∀ p, p ∈ l → p.1 < length (cells s.1)) →
  (∀ p, p ∈ l → solved_at s.1 p.1 = true ∨ p.2 = INone
                ∨ p.2 ∈ SudokuMatrixCell.base_sequence (deref s.1 p.1)) →
  ∃ m', for_each l (λ p, cell_call p.1 (SudokuMatrixCell.set_value (PItem p.2))) s
        = (Ok tt, (m', assign_hooks l s.1 s.2))
        ∧ same_frame s.1 m'
        ∧ length (cells m') = length (cells s.1)
        ∧ (∀ i v, (i, v) ∈ l →
             deref m' i = if solved_at s.1 i then deref s.1 i
                          else SudokuMatrixCell.with_items [v] (deref s.1 i))
        ∧ (∀ j, j ∉ l.*1 → deref m' j = deref s.1 j).
Proof.
  revert s. induction l as [|[i v] l IH]; intros s Hnd Hval Hok.
  - exists s.1. split; [destruct s; reflexivity|]. split; [repeat split|].
    split; [reflexivity|].
    split; [|reflexivity]. intros i v Hin. apply elem_of_nil in Hin. destruct Hin.
  - cbn [fmap list_fmap fst] in Hnd. apply NoDup_cons in Hnd as [Hi Hnd].
    assert (Hlt : i < length (cells s.1)) by (apply (Hval (i, v)), list_elem_of_here).
    pose proof (set_value_ok (deref s.1 i) v) as E.
    specialize (E (Hok (i, v) (list_elem_of_here _ _))).
    pose proof (cell_call_valid i _ s _ _ _ (deref_valid _ _ Hlt) E) as Ecall.
    set (c' := if SudokuMatrixCell.solved (deref s.1 i) then deref s.1 i
               else SudokuMatrixCell.with_items [v] (deref s.1 i)) in *.
    set (q1 := if (if SudokuMatrixCell.solved (deref s.1 i) then false
                   else if decide (v = INone) then false else true)
               then on_unique_value i s.2 else s.2) in *.
    set (s1 := (with_cells (<[i:=c']> (cells s.1)) s.1, q1)) in *.
    assert (Hd : ∀ j, deref s1.1 j = if decide (i = j) then c' else deref s.1 j).
    { intros j. apply deref_insert, Hlt. }
    assert (Hsol : ∀ j, solved_at s1.1 j = solved_at s.1 j).
    { intros j. unfold solved_at. rewrite Hd. destruct (decide (i = j)) as [->|]; [|reflexivity].
      unfold c'. destruct (SudokuMatrixCell.solved (deref s.1 j)) eqn:Es; [exact Es|].
      exact Es. }
    assert (Hfresh : ∀ p, p ∈ l → p.1 ≠ i).
    { intros p Hp Heq. apply Hi, list_elem_of_fmap. exists p.
      split; [symmetry; exact Heq|exact Hp]. }
    destruct (IH s1) as (m' & E' & Hfr & Hlen & Hin & Hout).
    + exact Hnd.
    + intros p Hp. cbn. rewrite length_insert. apply Hval, list_elem_of_further, Hp.
    + intros p Hp. rewrite Hsol. rewrite Hd.
      rewrite decide_False by (intros Heq; exact (Hfresh p Hp (eq_sym Heq))).
      apply Hok, list_elem_of_further, Hp.
    + exists m'. split.
      { cbn [for_each]. rewrite bind_unfold. cbn [fst snd]. rewrite Ecall. rewrite E'.
        f_equal. f_equal. rewrite (assign_hooks_ext _ _ _ _ Hsol).
        unfold assign_hooks at 2. cbn [foldl fst snd]. unfold q1, solved_at.
        destruct (SudokuMatrixCell.solved (deref s.1 i)); [reflexivity|].
        destruct (decide (v = INone)); reflexivity. }
      split; [exact Hfr|]. split.
      { rewrite Hlen. cbn. apply length_insert. }
      split.
      * intros j w Hj. apply elem_of_cons in Hj as [Heq|Hj].
        -- injection Heq as -> ->. rewrite Hout by exact Hi.
           rewrite Hd, decide_True by reflexivity. reflexivity.
        -- rewrite (Hin j w Hj). rewrite Hsol. rewrite Hd.
           rewrite decide_False by (intros Heq; exact (Hfresh (j, w) Hj (eq_sym Heq))).
           reflexivity.
      * intros j Hj. cbn [fmap list_fmap fst] in Hj.
        apply not_elem_of_cons in Hj as [Hji Hj].
        rewrite (Hout j Hj), Hd. rewrite decide_False by congruence. reflexivity.
Qed.

Lemma fst_zip_take {A B} (l : list A) (k : list B) :
  (zip l k).*1 = take (length k) l.
Proof.
  revert k. induction l as [|x l IH]; intros [|y k]; cbn; try reflexivity.
  - f_equal. apply IH.
Qed.

(** The same for the cells [cs] taken with the values in order, as
    the methods write it. *)
Lemma assign_list (cs : list nat) (values : list item) (m : t) (q : Q) :
  wf m → NoDup cs → (∀ i, i ∈ cs → i < length (cells m)) →
  (∀ k i v, cs !! k = Some i → values !! k = Some v →
     solved_at m i = true ∨ v = INone ∨ v ∈ base_sequence m) →
  ∃ m',
    for_each (zip cs values) (λ p, cell_call p.1 (SudokuMatrixCell.set_value (PItem p.2)))
      (m, q) = (Ok tt, (m', assign_hooks (zip cs values) m q))
    ∧ (wf m' ∧ length (cells m') = length (cells m))
    ∧ (∀ k i v, cs !! k = Some i → values !! k = Some v →
         deref m' i = if solved_at m i then deref m i
                      else SudokuMatrixCell.with_items [v] (deref m i))
    ∧ (∀ j, j ∉ take (length values) cs → deref m' j = deref m j)
    ∧ same_frame m m'.
Proof.
  intros Hwf Hnd Hval Hok.
  destruct (assign_loop (zip cs values) (m, q)) as (m' & E & Hfr & Hlen & Hin & Hout).
  - rewrite fst_zip_take. eapply sublist_NoDup; [exact Hnd|apply sublist_take].
  - intros [i v] Hp. apply Hval. eapply elem_of_zip_l, Hp.
  - intros [i v] Hp. cbn [fst snd].
    assert (Hi : i < length (cells m)) by (apply Hval; eapply elem_of_zip_l, Hp).
    destruct (wf_lookup _ _ _ Hwf (deref_valid _ _ Hi)) as (_ & _ & ->).
    apply list_elem_of_lookup in Hp as [k Hk].
    apply lookup_zip_with_Some in Hk as (i' & v' & Heq & Hk1 & Hk2).
    injection Heq as -> ->. exact (Hok k _ _ Hk1 Hk2).
  - cbn [fst snd] in *. exists m'. split; [exact E|]. split; [split; [|exact Hlen]|split].
    + destruct Hwf as (Hb & HN & Hc & Hl & Hcells).
      destruct Hfr as (F1 & F2 & F3 & F4).
      split; [rewrite F4; exact Hb|]. split; [rewrite F1, F4; exact HN|].
      split; [rewrite F1, F2; exact Hc|]. split; [rewrite Hlen, F1, F2; exact Hl|].
      rewrite Forall_lookup. intros j [j' c'] Hj.
      rewrite list_lookup_imap in Hj.
      destruct (cells m' !! j) as [c''|] eqn:Ej; [|discriminate].
      cbn in Hj. injection Hj as <- <-. cbn [fst snd].
      assert (Hjl : j < length (cells m)) by (rewrite <- Hlen; eapply lookup_lt_Some, Ej).
      pose proof (wf_lookup m j _ (conj Hb (conj HN (conj Hc (conj Hl Hcells))))
                    (deref_valid _ _ Hjl)) as (P1 & P2 & P3).
      assert (Hsame : SudokuMatrixCell.row c'' = SudokuMatrixCell.row (deref m j)
                      ∧ SudokuMatrixCell.column c'' = SudokuMatrixCell.column (deref m j)
                      ∧ SudokuMatrixCell.base_sequence c''
                        = SudokuMatrixCell.base_sequence (deref m j)).
      { rewrite <- (deref_lookup _ _ _ Ej).
        destruct (decide (j ∈ (zip cs values).*1)) as [Hjin|Hjout].
        - apply list_elem_of_fmap in Hjin as ([j2 v] & -> & Hp). cbn [fst].
          rewrite (Hin _ _ Hp). destruct (solved_at m j2); repeat split.
        - rewrite (Hout _ Hjout). repeat split. }
      destruct Hsame as (S1 & S2 & S3). unfold cell_placed.
      rewrite S1, S2, S3, F2, F3. tauto.
    + intros k i v Hk Hv. apply Hin. apply list_elem_of_lookup. exists k.
      apply lookup_zip_with_Some. eauto.
    + split; [|exact Hfr]. intros j Hj. apply Hout. rewrite fst_zip_take. exact Hj.
Qed.

(** The loop stops with [SudokuMatrixError] when a value is refused:
    one that is neither [None] nor an item of the base sequence, for a
    cell that is not locked. *)
Lemma assign_loop_raises (l : list (nat * item)) (s : t * Q) :
  NoDup l.*1 →
  (∀ p, p ∈ l → p.1 < length (cells s.1)) →
  (∃ p, p ∈ l ∧ solved_at s.1 p.1 = false ∧ p.2 ≠ INone
        ∧ p.2 ∉ SudokuMatrixCell.base_sequence (deref s.1 p.1)) →
  (for_each l (λ p, cell_call p.1 (SudokuMatrixCell.set_value (PItem p.2))) s).1
  = Raise SudokuMatrixError.
Proof.
  revert s. induction l as [|[i v] l IH]; intros s Hnd Hval (p & Hp & Hbad).
  { apply elem_of_nil in Hp. destruct Hp. }
  cbn [fmap list_fmap fst] in Hnd. apply NoDup_cons in Hnd as [Hi Hnd].
  assert (Hlt : i < length (cells s.1)) by (apply (Hval (i, v)), list_elem_of_here).
  cbn [for_each]. rewrite bind_unfold. cbn [fst snd].
  destruct (decide (solved_at s.1 i = true ∨ v = INone
                    ∨ v ∈ SudokuMatrixCell.base_sequence (deref s.1 i))) as [Hgood|Hno].
  - pose proof (set_value_ok (deref s.1 i) v Hgood) as E.
    rewrite (cell_call_valid i _ s _ _ _ (deref_valid _ _ Hlt) E).
    apply elem_of_cons in Hp as [->|Hp].
    { cbn [fst snd] in Hbad. destruct Hbad as (B1 & B2 & B3).
      destruct Hgood as [G|[G|G]]; [congruence|contradiction|contradiction]. }
    assert (Hpi : i ≠ p.1).
    { intros ->. apply Hi, list_elem_of_fmap. exists p. split; [reflexivity|exact Hp]. }
    apply IH.
    + exact Hnd.
    + intros p' Hp'. cbn. rewrite length_insert. apply Hval, list_elem_of_further, Hp'.
    + exists p. split; [exact Hp|]. unfold solved_at. cbn [fst].
      rewrite deref_insert by exact Hlt. rewrite decide_False by exact Hpi. exact Hbad.
  - unfold cell_call, SudokuMatrixCell.set_value. unfold solved_at in Hno.
    destruct (SudokuMatrixCell.solved (deref s.1 i)); [tauto|].
    destruct v; [tauto| |]; rewrite decide_False by tauto; reflexivity.
Qed.

Lemma ref_coords m r c :
  c < columns m → ref m r c / columns m = r ∧ ref m r c `mod` columns m = c.
Proof.
  intros Hc. unfold ref. split.
  - rewrite Nat.div_add_l, Nat.div_small by lia. lia.
  - rewrite Nat.add_comm, Nat.Div0.mod_add, Nat.mod_small by lia. reflexivity.
Qed.

Lemma NoDup_row_refs m r : NoDup (row_refs m r).
Proof. apply NoDup_seq. Qed.

Lemma NoDup_column_refs m c : 0 < columns m → NoDup (column_refs m c).
Proof.
  intros Hc. unfold column_refs.
  assert (Hinj : Inj (=) (=) (λ k, c + k * columns m)) by (intros i j ?; nia).
  apply (NoDup_fmap_2 _), NoDup_seq.
Qed.

(** [set_row_values] on a well-formed matrix, when every value that
    meets a cell which is not locked is [None] or an item of the base
    sequence: the method returns normally; the cell number [k] of the
    row holds the value number [k] alone, unless it is locked; every
    other cell is as it was.  Values beyond the width of the matrix are
    ignored and the matrix stays well formed. *)
Theorem set_row_values_assigns (m : t) (q : Q) (row : nat) (values : list item) :
  wf m → row < rows m →
  (∀ k v, k < columns m → values !! k = Some v →
     solved_at m (ref m row k) = true ∨ v = INone ∨ v ∈ base_sequence m) →
  ∃ m' q',
    set_row_values row (Some values) (m, q) = (Ok tt, (m', q'))
    ∧ wf m'
    ∧ (∀ k v, k < columns m → values !! k = Some v →
         deref m' (ref m row k)
         = if solved_at m (ref m row k) then deref m (ref m row k)
           else SudokuMatrixCell.with_items [v] (deref m (ref m row k)))
    ∧ (∀ j, j / columns m ≠ row ∨ length values ≤ j `mod` columns m →
         deref m' j = deref m j).
Proof.
  intros Hwf Hr Hok. destruct values as [|v0 vs].
  { exists m, q. split; [reflexivity|]. split; [exact Hwf|]. split; [|reflexivity].
    intros k v _ Hk. discriminate. }
  set (values := v0 :: vs) in *.
  pose proof Hwf as (Hb & HN & Hc & Hlen & _).
  assert (Hn : columns m ≠ 0) by nia.
  assert (Hlook : ∀ k i, row_refs m row !! k = Some i ↔ i = ref m row k ∧ k < columns m).
  { intros k i. unfold row_refs, ref. apply lookup_seq. }
  destruct (assign_list (row_refs m row) values m q) as (m' & E & [Hwf' Hlen'] & Hin & Hout & _).
  - exact Hwf.
  - apply NoDup_row_refs.
  - intros i Hi. apply elem_of_row_refs in Hi; tauto.
  - intros k i v Hk Hv. apply Hlook in Hk as [-> Hk]. exact (Hok k v Hk Hv).
  - eexists m', _. split; [|split; [exact Hwf'|split]].
    + subst values. unfold set_row_values. rewrite bind_unfold. unfold query. cbn [fst snd].
      rewrite get_row_cells_wf by assumption. exact E.
    + intros k v Hk Hv. apply (Hin k); [apply Hlook; tauto | exact Hv].
    + intros j Hj. apply Hout. intros (k & Hk & Hlt)%elem_of_take.
      apply Hlook in Hk as [-> Hk].
      destruct (ref_coords m row k) as [D1 D2]; [lia|]. rewrite D1, D2 in Hj. lia.
Qed.

(** [set_column_values] on a well-formed matrix: the same for the
    cells of a column, the cell of row [k] taking the value number
    [k]. *)
Theorem set_column_values_assigns (m : t) (q : Q) (column : nat) (values : list item) :
  wf m → column < columns m →
  (∀ k v, k < rows m → values !! k = Some v →
     solved_at m (ref m k column) = true ∨ v = INone ∨ v ∈ base_sequence m) →
  ∃ m' q',
    set_column_values column (Some values) (m, q) = (Ok tt, (m', q'))
    ∧ wf m'
    ∧ (∀ k v, k < rows m → values !! k = Some v →
         deref m' (ref m k column)
         = if solved_at m (ref m k column) then deref m (ref m k column)
           else SudokuMatrixCell.with_items [v] (deref m (ref m k column)))
    ∧ (∀ j, j `mod` columns m ≠ column ∨ length values ≤ j / columns m →
         deref m' j = deref m j).
Proof.
  intros Hwf Hr Hok. destruct values as [|v0 vs].
  { exists m, q. split; [reflexivity|]. split; [exact Hwf|]. split; [|reflexivity].
    intros k v _ Hk. discriminate. }
  set (values := v0 :: vs) in *.
  pose proof Hwf as (Hb & HN & Hc & Hlen & _).
  assert (Hn : columns m ≠ 0) by nia.
  assert (Hlook : ∀ k i, column_refs m column !! k = Some i
                         ↔ i = ref m k column ∧ k < rows m).
  { intros k i. unfold column_refs, ref. rewrite list_lookup_fmap.
    destruct (seq 0 (rows m) !! k) as [k'|] eqn:Ek; cbn.
    - apply lookup_seq in Ek as [-> Hk]. cbn. split.
      + intros [= <-]. split; [lia|exact Hk].
      + intros [-> _]. f_equal. lia.
    - split; [discriminate|]. intros [_ Hk].
      apply lookup_ge_None in Ek. rewrite length_seq in Ek. lia. }
  destruct (assign_list (column_refs m column) values m q)
    as (m' & E & [Hwf' Hlen'] & Hin & Hout & _).
  - exact Hwf.
  - apply NoDup_column_refs. lia.
  - intros i Hi. apply elem_of_column_refs in Hi; tauto.
  - intros k i v Hk Hv. apply Hlook in Hk as [-> Hk]. exact (Hok k v Hk Hv).
  - eexists m', _. split; [|split; [exact Hwf'|split]].
    + subst values. unfold set_column_values. rewrite bind_unfold. unfold query.
      cbn [fst snd]. rewrite get_column_cells_wf by assumption. exact E.
    + intros k v Hk Hv. apply (Hin k); [apply Hlook; tauto | exact Hv].
    + intros j Hj. apply Hout. intros (k & Hk & Hlt)%elem_of_take.
      apply Hlook in Hk as [-> Hk].
      destruct (ref_coords m k column) as [D1 D2]; [lia|]. rewrite D1, D2 in Hj. lia.
Qed.

(** A value that is neither [None] nor an item of the base sequence
    and that meets a cell which is not locked makes [set_row_values]
    and [set_column_values] raise [SudokuMatrixError]. *)
Theorem refused_value_raises (m : t) (q : Q) (r c : nat) (v : item) :
  wf m → r < rows m → c < columns m →
  solved_at m (ref m r c) = false → v ≠ INone → v ∉ base_sequence m →
  (∀ values, values !! c = Some v →
     (set_row_values r (Some values) (m, q)).1 = Raise SudokuMatrixError)
  ∧ (∀ values, values !! r = Some v →
     (set_column_values c (Some values) (m, q)).1 = Raise SudokuMatrixError).
Proof.
  intros Hwf Hr Hc Hs Hv Hb.
  pose proof Hwf as (Hbs & HN & Hcc & Hlen & _).
  assert (Hlt : ref m r c < length (cells m)) by (unfold ref; nia).
  assert (Hbase : v ∉ SudokuMatrixCell.base_sequence (deref m (ref m r c))).
  { destruct (wf_lookup _ _ _ Hwf (deref_valid _ _ Hlt)) as (_ & _ & ->). exact Hb. }
  split; intros values Hval.
  - destruct values as [|v0 vs]; [discriminate|].
    unfold set_row_values. rewrite bind_unfold. unfold query. cbn [fst snd].
    rewrite get_row_cells_wf by assumption.
    apply assign_loop_raises.
    + rewrite fst_zip_take. eapply sublist_NoDup; [apply NoDup_row_refs|apply sublist_take].
    + intros [i w] Hp. cbn. apply elem_of_zip_l in Hp.
      apply elem_of_row_refs in Hp; tauto.
    + exists (ref m r c, v). split; [|cbn [fst snd]; tauto].
      apply list_elem_of_lookup. exists c. apply lookup_zip_with_Some.
      exists (ref m r c), v. split; [reflexivity|]. split; [|exact Hval].
      unfold row_refs, ref. apply lookup_seq. lia.
  - destruct values as [|v0 vs]; [discriminate|].
    unfold set_column_values. rewrite bind_unfold. unfold query. cbn [fst snd].
    rewrite get_column_cells_wf by assumption.
    apply assign_loop_raises.
    + rewrite fst_zip_take.
      eapply sublist_NoDup; [apply (NoDup_column_refs m c); lia|apply sublist_take].
    + intros [i w] Hp. cbn. apply elem_of_zip_l in Hp.
      apply elem_of_column_refs in Hp; tauto.
    + exists (ref m r c, v). split; [|cbn [fst snd]; tauto].
      apply list_elem_of_lookup. exists r. apply lookup_zip_with_Some.
      exists (ref m r c), v. split; [reflexivity|]. split; [|exact Hval].
      unfold column_refs, ref. rewrite list_lookup_fmap.
      rewrite lookup_seq_lt by lia. cbn. f_equal. lia.
Qed.

(** A row or a column outside the matrix: [set_row_values] and
    [set_column_values] raise [IndexError] and leave everything as it
    was when there is a value to assign, and return normally when the
    list of values is empty or [None]. *)
Theorem values_outside_the_matrix (s : t * Q) (row column : nat)
    (values : option (list item)) :
  rows s.1 ≤ row → columns s.1 ≤ column →
  set_row_values row values s
  = (if decide (values = None ∨ values = Some []) then Ok tt else Raise IndexError, s)
  ∧ set_column_values column values s
    = (if decide (values = None ∨ values = Some []) then Ok tt else Raise IndexError, s).
Proof.
  intros Hr Hc. destruct values as [[|v vs]|].
  - rewrite decide_True by tauto. split; reflexivity.
  - rewrite decide_False by (intros [?|?]; discriminate).
    unfold set_row_values, set_column_values. rewrite !bind_unfold. unfold query.
    cbn [fst snd]. unfold get_row_cells, get_column_cells, ensure_inbounds.
    apply Nat.ltb_ge in Hr, Hc. rewrite Hr, Hc, andb_false_r. split; reflexivity.
  - rewrite decide_True by tauto. split; reflexivity.
Qed.


Lemma reset_values_ok (values : list item) (m : t) (q : Q) :
  wf m →
  (∀ k v, k < length (cells m) → values !! k = Some v →
     solved_at m k = true ∨ v = INone ∨ v ∈ base_sequence m) →
  ∃ m',
    reset_values (Some values) (m, q)
    = (Ok tt, (m', assign_hooks (zip (seq 0 (length (cells m))) values) m q))
    ∧ (wf m' ∧ length (cells m') = length (cells m))
    ∧ (∀ k v, k < length (cells m) → values !! k = Some v →
         deref m' k = if solved_at m k then deref m k
                      else SudokuMatrixCell.with_items [v] (deref m k))
    ∧ (∀ j, length values ≤ j → deref m' j = deref m j).
Proof.
  intros Hwf Hok. destruct values as [|v0 vs].
  { exists m. rewrite zip_with_nil_r. split; [reflexivity|]. split; [split; [exact Hwf|reflexivity]|].
    split; [|reflexivity]. intros k v _ Hk. discriminate. }
  destruct (assign_list (seq 0 (length (cells m))) (v0 :: vs) m q)
    as (m' & E & [Hwf' Hlen'] & Hin & Hout & _).
  - exact Hwf.
  - apply NoDup_seq.
  - intros i Hi. apply elem_of_seq in Hi. lia.
  - intros k i v Hk Hv. apply lookup_seq in Hk as [-> Hk]. exact (Hok k v Hk Hv).
  - exists m'. split; [|split; [split; [exact Hwf'|exact Hlen']|split]].
    + unfold reset_values. rewrite bind_unfold. unfold query. cbn [fst snd]. exact E.
    + intros k v Hk Hv. apply (Hin k); [apply lookup_seq; lia | exact Hv].
    + intros j Hj. apply Hout. intros (k & Hk & Hlt)%elem_of_take.
      apply lookup_seq in Hk as [-> Hk]. lia.
Qed.

Lemma reset_values_raises (values : list item) (m : t) (q : Q) k v :
  wf m → k < length (cells m) → values !! k = Some v →
  solved_at m k = false → v ≠ INone → v ∉ base_sequence m →
  (reset_values (Some values) (m, q)).1 = Raise SudokuMatrixError.
Proof.
  intros Hwf Hk Hv Hs Hne Hb. destruct values as [|v0 vs]; [discriminate|].
  unfold reset_values. rewrite bind_unfold. unfold query. cbn [fst snd].
  apply assign_loop_raises.
  - rewrite fst_zip_take. eapply sublist_NoDup; [apply NoDup_seq|apply sublist_take].
  - intros [i w] Hp. cbn. apply elem_of_zip_l, elem_of_seq in Hp. lia.
  - exists (k, v). split; [|cbn [fst snd]; split; [exact Hs|split; [exact Hne|]]].
    + apply list_elem_of_lookup. exists k. apply lookup_zip_with_Some.
      exists k, v. split; [reflexivity|]. split; [|exact Hv].
      apply lookup_seq. cbn [fst]. lia.
    + cbn [fst]. destruct (wf_lookup _ _ _ Hwf (deref_valid _ _ Hk)) as (_ & _ & ->).
      exact Hb.
Qed.

(** [reset_matrix] with a base sequence of length [b * b]: the matrix
    is built, then the values and the answers are assigned. *)
Lemma reset_matrix_run (m : t) (q : Q) kw values answers b :
  0 < b → length (SudokuMatrixCell.or_seq kw (base_sequence m)) = b * b →
  reset_matrix kw values answers (m, q)
  = (reset_values values ;; set_answer_values answers)
      (built b (SudokuMatrixCell.or_seq kw (base_sequence m)), q).
Proof.
  intros Hb Hlen. unfold reset_matrix.
  rewrite bind_unfold. unfold modify at 1. cbn [fst snd].
  rewrite bind_unfold. unfold query at 1. cbn [fst snd base_len].
  remember (SudokuMatrixCell.or_seq kw (base_sequence m)) as l eqn:El in *. clear El.
  rewrite Hlen.
  assert (Hn0 : (b * b =? 0) = false) by (apply Nat.eqb_neq; nia).
  rewrite Hn0.
  assert (Hsq : has_integer_sqrt (b * b) = true).
  { unfold has_integer_sqrt. rewrite Nat.sqrt_square. apply Nat.eqb_refl. }
  rewrite Hsq. cbn [negb].
  rewrite bind_unfold. unfold modify at 1. cbn [fst snd base_sequence cells].
  rewrite bind_unfold.
  rewrite reset_contents_ok.
  2:{ cbn. intros E. rewrite E in Hlen. cbn in Hlen. nia. }
  cbn [fst snd rows columns base_sequence with_cells].
  rewrite Nat.sqrt_square, Nat.div_mul by lia. reflexivity.
Qed.

Lemma built_cells b l k :
  0 < b → k < b * b * (b * b) →
  length (cells (built b l)) = b * b * (b * b)
  ∧ solved_at (built b l) k = false
  ∧ base_sequence (built b l) = l.
Proof.
  intros Hb Hk. pose proof (built_wf b l Hb) as Hwf.
  pose proof Hwf as (_ & _ & _ & Hlen & _). cbn in Hlen.
  split; [exact Hlen|]. split; [|reflexivity].
  unfold solved_at, deref, built; cbn. rewrite list_lookup_fmap.
  destruct (locations (b * b) (b * b) !! k); reflexivity.
Qed.

End Assigning.

Lemma set_row_values_assigns_witness :
  ∃ m' q',
    SudokuMatrix.set_row_values 1 (Some (Examples.digits [3; 4]%Z)) (Examples.matrix4, tt)
    = (Ok tt, (m', q'))
    ∧ Grid.wf m'
    ∧ (∀ k v, k < SudokuMatrix.columns Examples.matrix4 →
         Examples.digits [3; 4]%Z !! k = Some v →
         SudokuMatrix.deref m' (Grid.ref Examples.matrix4 1 k)
         = if Grid.solved_at Examples.matrix4 (Grid.ref Examples.matrix4 1 k)
           then SudokuMatrix.deref Examples.matrix4 (Grid.ref Examples.matrix4 1 k)
           else SudokuMatrixCell.with_items [v]
                  (SudokuMatrix.deref Examples.matrix4 (Grid.ref Examples.matrix4 1 k)))
    ∧ (∀ j, j / SudokuMatrix.columns Examples.matrix4 ≠ 1
            ∨ length (Examples.digits [3; 4]%Z) ≤ j `mod` SudokuMatrix.columns Examples.matrix4 →
         SudokuMatrix.deref m' j = SudokuMatrix.deref Examples.matrix4 j).
Proof.
  apply (set_row_values_assigns Examples.matrix4 tt 1 (Examples.digits [3; 4]%Z)).
  - by_compute.
  - vm_compute. lia.
  - intros k v _ Hv. right. right.
    destruct k as [|[|k]]; cbn in Hv; [| |discriminate]; injection Hv as <-; by_compute.
Defined.

Lemma set_column_values_assigns_witness :
  ∃ m' q',
    SudokuMatrix.set_column_values 2 (Some (Examples.digits [3; 4]%Z)) (Examples.matrix4, tt)
    = (Ok tt, (m', q'))
    ∧ Grid.wf m'
    ∧ (∀ k v, k < SudokuMatrix.rows Examples.matrix4 →
         Examples.digits [3; 4]%Z !! k = Some v →
         SudokuMatrix.deref m' (Grid.ref Examples.matrix4 k 2)
         = if Grid.solved_at Examples.matrix4 (Grid.ref Examples.matrix4 k 2)
           then SudokuMatrix.deref Examples.matrix4 (Grid.ref Examples.matrix4 k 2)
           else SudokuMatrixCell.with_items [v]
                  (SudokuMatrix.deref Examples.matrix4 (Grid.ref Examples.matrix4 k 2)))
    ∧ (∀ j, j `mod` SudokuMatrix.columns Examples.matrix4 ≠ 2
            ∨ length (Examples.digits [3; 4]%Z) ≤ j / SudokuMatrix.columns Examples.matrix4 →
         SudokuMatrix.deref m' j = SudokuMatrix.deref Examples.matrix4 j).
Proof.
  apply (set_column_values_assigns Examples.matrix4 tt 2 (Examples.digits [3; 4]%Z)).
  - by_compute.
  - vm_compute. lia.
  - intros k v _ Hv. right. right.
    destruct k as [|[|k]]; cbn in Hv; [| |discriminate]; injection Hv as <-; by_compute.
Defined.

Lemma refused_value_raises_witness :
  (∀ values, values !! 2 = Some (IInt 7) →
     (SudokuMatrix.set_row_values 1 (Some values) (Examples.matrix4, tt)).1
     = Raise SudokuMatrixError)
  ∧ (∀ values, values !! 1 = Some (IInt 7) →
     (SudokuMatrix.set_column_values 2 (Some values) (Examples.matrix4, tt)).1
     = Raise SudokuMatrixError).
Proof.
  apply (refused_value_raises Examples.matrix4 tt 1 2 (IInt 7)).
  - by_compute.
  - vm_compute. lia.
  - vm_compute. lia.
  - reflexivity.
  - discriminate.
  - by_compute.
Defined.

Lemma values_outside_the_matrix_witness :
  SudokuMatrix.set_row_values 4 (Some [IInt 1]) (Examples.matrix4, tt)
  = (Raise IndexError, (Examples.matrix4, tt))
  ∧ SudokuMatrix.set_column_values 5 (Some [IInt 1]) (Examples.matrix4, tt)
    = (Raise IndexError, (Examples.matrix4, tt)).
Proof.
  apply (values_outside_the_matrix (Examples.matrix4, tt) 4 5 (Some [IInt 1])).
  - vm_compute. lia.
  - vm_compute. lia.
Defined.

(** ** Construction with values *)

Lemma unit_state (q : unit) : q = tt.
Proof. destruct q. reflexivity. Qed.

Lemma assign_hooks_solver l m q :
  SudokuMatrixSolver.step (Grid.assign_hooks l m q) = SudokuMatrixSolver.step q
  ∧ ∀ i, i ∈ SudokuMatrixSolver.cleanups (Grid.assign_hooks l m q)
         ↔ i ∈ SudokuMatrixSolver.cleanups q
           ∨ ∃ v, (i, v) ∈ l ∧ Grid.solved_at m i = false ∧ v ≠ INone.
Proof.
  unfold Grid.assign_hooks. revert q. induction l as [|[j w] l IH]; intros q.
  - cbn. split; [reflexivity|]. intros i. split; [tauto|].
    intros [Hi|(v & Hv & _)]; [exact Hi|]. apply elem_of_nil in Hv. destruct Hv.
  - cbn [foldl fst snd].
    set (q1 := if Grid.solved_at m j then q
               else if decide (w = INone) then q else on_unique_value j q).
    destruct (IH q1) as [Hstep Hcl].
    assert (Hq1 : SudokuMatrixSolver.step q1 = SudokuMatrixSolver.step q
                  ∧ ∀ i, i ∈ SudokuMatrixSolver.cleanups q1
                         ↔ i ∈ SudokuMatrixSolver.cleanups q
                           ∨ (i = j ∧ Grid.solved_at m j = false ∧ w ≠ INone)).
    { unfold q1. destruct (Grid.solved_at m j).
      { split; [reflexivity|]. intros i. split; [tauto|]. intros [?|(_ & ? & _)];
          [assumption|discriminate]. }
      destruct (decide (w = INone)) as [->|Hw].
      { split; [reflexivity|]. intros i. split; [tauto|]. intros [?|(_ & _ & ?)];
          [assumption|congruence]. }
      split; [reflexivity|]. intros i.
      unfold on_unique_value, SudokuMatrixSolver.solver_hook,
        SudokuMatrixSolver.register_for_cleanups.
      cbn [SudokuMatrixSolver.cleanups]. rewrite elem_of_union, elem_of_singleton.
      tauto. }
    destruct Hq1 as [Hs1 Hc1].
    split; [rewrite Hstep; exact Hs1|].
    intros i. rewrite Hcl, Hc1. split.
    + intros [[Hi|(-> & Hs & Hw)]|(v & Hv & Hs & Hw)].
      * left. exact Hi.
      * right. exists w. split; [apply list_elem_of_here|tauto].
      * right. exists v. split; [apply list_elem_of_further, Hv|tauto].
    + intros [Hi|(v & Hv & Hs & Hw)]; [tauto|].
      apply elem_of_cons in Hv as [Heq|Hv].
      * injection Heq as -> ->. left. right. tauto.
      * right. exists v. tauto.
Qed.

(** The constructor [SudokuMatrix(base_sequence=l, values=values)],
    for a base sequence of length [b * b] and values that are [None]
    or items of the base sequence: the matrix is the one the
    constructor builds without values, except that the cell number [k]
    holds the value number [k] alone, for each of the values; a value
    beyond the last cell is ignored. *)
Theorem constructor_with_values (l values : list item) (b : nat) :
  0 < b → length l = b * b →
  (∀ k v, k < b * b * (b * b) → values !! k = Some v → v = INone ∨ v ∈ l) →
  ∃ m,
    SudokuMatrix.init (Some l) (Some values) None = (Ok tt, (m, tt))
    ∧ Grid.wf m
    ∧ length (SudokuMatrix.cells m) = b * b * (b * b)
    ∧ ∀ k, k < b * b * (b * b) →
        SudokuMatrix.deref m k
        = match values !! k with
          | Some v => SudokuMatrixCell.with_items [v] (SudokuMatrix.deref (Grid.built b l) k)
          | None => SudokuMatrix.deref (Grid.built b l) k
          end.
Proof.
  intros Hb Hlen Hok. unfold SudokuMatrix.init.
  assert (E : SudokuMatrixCell.or_seq (Some l)
                (SudokuMatrix.base_sequence SudokuMatrix.blank) = l).
  { destruct l; [cbn in Hlen; nia | reflexivity]. }
  rewrite (reset_matrix_run _ _ _ _ _ b) by (rewrite ?E; assumption). rewrite E.
  pose proof (built_wf b l Hb) as Hwf.
  destruct (reset_values_ok values (Grid.built b l) tt Hwf)
    as (m' & E' & [Hwf' Hlen'] & Hin & Hout).
  { intros k v Hk Hv. right. destruct (built_cells b l 0 Hb) as (Hl & _ & ->); [nia|].
    apply (Hok k v); [lia|exact Hv]. }
  destruct (built_cells b l 0 Hb) as (Hl & _ & _); [nia|].
  exists m'. split; [|split; [exact Hwf'|split]].
  - rewrite bind_unfold, E'. cbn [fst snd]. f_equal. f_equal. apply unit_state.
  - rewrite Hlen'. exact Hl.
  - intros k Hk. destruct (built_cells b l k Hb Hk) as (_ & Hs & _).
    destruct (values !! k) as [v|] eqn:Ev.
    + rewrite (Hin k v) by (rewrite ?Hl; assumption). rewrite Hs. reflexivity.
    + apply Hout. apply lookup_ge_None. exact Ev.
Qed.

Lemma constructor_with_values_witness :
  ∃ m,
    SudokuMatrix.init (Some (Examples.digits [1; 2; 3; 4]%Z))
      (Some [IInt 3; INone; IInt 1]) None = (Ok tt, (m, tt))
    ∧ Grid.wf m
    ∧ length (SudokuMatrix.cells m) = 2 * 2 * (2 * 2)
    ∧ ∀ k, k < 2 * 2 * (2 * 2) →
        SudokuMatrix.deref m k
        = match [IInt 3; INone; IInt 1] !! k with
          | Some v => SudokuMatrixCell.with_items [v]
                        (SudokuMatrix.deref (Grid.built 2 (Examples.digits [1; 2; 3; 4]%Z)) k)
          | None => SudokuMatrix.deref (Grid.built 2 (Examples.digits [1; 2; 3; 4]%Z)) k
          end.
Proof.
  apply (constructor_with_values (Examples.digits [1; 2; 3; 4]%Z)
           [IInt 3; INone; IInt 1] 2).
  - lia.
  - reflexivity.
  - intros k v _ Hv.
    destruct k as [|[|[|k]]]; cbn in Hv; [| | |discriminate]; injection Hv as <-;
      [right; by_compute | left; reflexivity | right; by_compute].
Defined.

Lemma bind_raises {St A B} (m : M St A) (k : A → M St B) s e :
  (m s).1 = Raise e → ((m ≫= k) s).1 = Raise e.
Proof.
  intros Hm. rewrite bind_unfold. destruct (m s) as [[a|e'|] s']; cbn in *;
    [discriminate|injection Hm as ->; reflexivity|discriminate].
Qed.

(** The constructors [SudokuMatrix] and [SudokuMatrixSolver] raise
    [SudokuMatrixError] when one of the values that meet a cell is
    neither [None] nor an item of the base sequence, whatever the
    answers given. *)
Theorem constructor_refuses_value (l values : list item) (answers : option (list item))
    (b k : nat) (v : item) :
  0 < b → length l = b * b →
  k < b * b * (b * b) → values !! k = Some v → v ≠ INone → v ∉ l →
  (SudokuMatrix.init (Some l) (Some values) answers).1 = Raise SudokuMatrixError
  ∧ (SudokuMatrixSolver.init (Some l) (Some values) answers).1 = Raise SudokuMatrixError.
Proof.
  intros Hb Hlen Hk Hv Hne Hnot.
  assert (E : SudokuMatrixCell.or_seq (Some l)
                (SudokuMatrix.base_sequence SudokuMatrix.blank) = l).
  { destruct l; [cbn in Hlen; nia | reflexivity]. }
  pose proof (built_wf b l Hb) as Hwf.
  destruct (built_cells b l k Hb Hk) as (Hl & Hs & Hbase).
  split.
  - unfold SudokuMatrix.init.
    rewrite (reset_matrix_run _ _ _ _ _ b) by (rewrite ?E; assumption). rewrite E.
    apply bind_raises. apply (reset_values_raises values _ _ k v); try assumption.
    + rewrite Hl. exact Hk.
  - unfold SudokuMatrixSolver.init, SudokuMatrixSolver.reset_matrix.
    rewrite bind_unfold. unfold modify. cbn [fst snd].
    rewrite (reset_matrix_run _ _ _ _ _ b) by (rewrite ?E; assumption). rewrite E.
    apply bind_raises. apply (reset_values_raises values _ _ k v); try assumption.
    + rewrite Hl. exact Hk.
Qed.

Lemma constructor_refuses_value_witness :
  (SudokuMatrix.init (Some (Examples.digits [1; 2; 3; 4]%Z))
     (Some [IInt 3; IInt 5]) None).1 = Raise SudokuMatrixError
  ∧ (SudokuMatrixSolver.init (Some (Examples.digits [1; 2; 3; 4]%Z))
       (Some [IInt 3; IInt 5]) None).1 = Raise SudokuMatrixError.
Proof.
  apply (constructor_refuses_value (Examples.digits [1; 2; 3; 4]%Z)
           [IInt 3; IInt 5] None 2 1 (IInt 5)).
  - lia.
  - reflexivity.
  - lia.
  - reflexivity.
  - discriminate.
  - by_compute.
Defined.

(** The constructor [SudokuMatrixSolver(base_sequence=l, values=values)]
    under the same conditions: the cells are those of the plain matrix,
    no cell is locked, the step counter is untouched, and the cells
    registered for cleanups are exactly those that were given a value
    other than [None]. *)
Theorem solver_constructor_registers (l values : list item) (b : nat) :
  0 < b → length l = b * b →
  (∀ k v, k < b * b * (b * b) → values !! k = Some v → v = INone ∨ v ∈ l) →
  ∃ m X,
    SudokuMatrixSolver.init (Some l) (Some values) None
    = (Ok tt, (m, SudokuMatrixSolver.mk_ext X 0))
    ∧ Grid.wf m
    ∧ (∀ k, k < b * b * (b * b) →
         SudokuMatrix.deref m k
         = match values !! k with
           | Some v => SudokuMatrixCell.with_items [v] (SudokuMatrix.deref (Grid.built b l) k)
           | None => SudokuMatrix.deref (Grid.built b l) k
           end)
    ∧ (∀ k, k ∈ X ↔ k < b * b * (b * b) ∧ ∃ v, values !! k = Some v ∧ v ≠ INone).
Proof.
  intros Hb Hlen Hok.
  unfold SudokuMatrixSolver.init, SudokuMatrixSolver.reset_matrix.
  rewrite bind_unfold. unfold modify. cbn [fst snd SudokuMatrixSolver.step].
  assert (E : SudokuMatrixCell.or_seq (Some l)
                (SudokuMatrix.base_sequence SudokuMatrix.blank) = l).
  { destruct l; [cbn in Hlen; nia | reflexivity]. }
  rewrite (reset_matrix_run _ _ _ _ _ b) by (rewrite ?E; assumption). rewrite E.
  pose proof (built_wf b l Hb) as Hwf.
  destruct (built_cells b l 0 Hb) as (Hl & _ & _); [nia|].
  destruct (reset_values_ok values (Grid.built b l) (SudokuMatrixSolver.mk_ext ∅ 0) Hwf)
    as (m' & E' & [Hwf' Hlen'] & Hin & Hout).
  { intros k v Hk Hv. right. destruct (built_cells b l 0 Hb) as (_ & _ & ->); [nia|].
    apply (Hok k v); [lia|exact Hv]. }
  set (q' := Grid.assign_hooks _ _ _) in E'.
  destruct (assign_hooks_solver
              (zip (seq 0 (length (SudokuMatrix.cells (Grid.built b l)))) values)
              (Grid.built b l) (SudokuMatrixSolver.mk_ext ∅ 0)) as [Hstep Hcl].
  fold q' in Hstep, Hcl. cbn [SudokuMatrixSolver.step SudokuMatrixSolver.cleanups] in *.
  exists m', (SudokuMatrixSolver.cleanups q').
  split; [|split; [exact Hwf'|split]].
  - rewrite bind_unfold, E'. cbn [fst snd]. f_equal. f_equal.
    destruct q' as [X n]. cbn in Hstep. subst n. reflexivity.
  - intros k Hk. destruct (built_cells b l k Hb Hk) as (_ & Hs & _).
    destruct (values !! k) as [v|] eqn:Ev.
    + rewrite (Hin k v) by (rewrite ?Hl; assumption). rewrite Hs. reflexivity.
    + apply Hout. apply lookup_ge_None. exact Ev.
  - intros k. rewrite Hcl. rewrite Hl. split.
    + intros [Hk|(v & Hv & _ & Hne)]; [set_solver|].
      apply list_elem_of_lookup in Hv as [i Hi].
      apply lookup_zip_with_Some in Hi as (k' & v' & Heq & Hk1 & Hk2).
      injection Heq as -> ->. apply lookup_seq in Hk1 as [-> Hk1]. cbn.
      split; [lia|]. exists v'. split; [exact Hk2|exact Hne].
    + intros (Hk & v & Hv & Hne). right. exists v.
      split; [|split; [apply (built_cells b l k Hb Hk)|exact Hne]].
      apply list_elem_of_lookup. exists k. apply lookup_zip_with_Some.
      exists k, v. split; [reflexivity|]. split; [|exact Hv].
      apply lookup_seq. split; [reflexivity|lia].
Qed.

Lemma solver_constructor_registers_witness :
  ∃ m X,
    SudokuMatrixSolver.init (Some (Examples.digits [1; 2; 3; 4]%Z))
      (Some [IInt 3; INone; IInt 1]) None
    = (Ok tt, (m, SudokuMatrixSolver.mk_ext X 0))
    ∧ Grid.wf m
    ∧ (∀ k, k < 2 * 2 * (2 * 2) →
         SudokuMatrix.deref m k
         = match [IInt 3; INone; IInt 1] !! k with
           | Some v => SudokuMatrixCell.with_items [v]
                         (SudokuMatrix.deref (Grid.built 2 (Examples.digits [1; 2; 3; 4]%Z)) k)
           | None => SudokuMatrix.deref (Grid.built 2 (Examples.digits [1; 2; 3; 4]%Z)) k
           end)
    ∧ (∀ k, k ∈ X ↔ k < 2 * 2 * (2 * 2)
                    ∧ ∃ v, [IInt 3; INone; IInt 1] !! k = Some v ∧ v ≠ INone).
Proof.
  apply (solver_constructor_registers (Examples.digits [1; 2; 3; 4]%Z)
           [IInt 3; INone; IInt 1] 2).
  - lia.
  - reflexivity.
  - intros k v _ Hv.
    destruct k as [|[|[|k]]]; cbn in Hv; [| | |discriminate]; injection Hv as <-;
      [right; by_compute | left; reflexivity | right; by_compute].
Defined.

(** ** The solver: step 1 *)

Section Step1.
Import SudokuMatrix SudokuMatrixSolver Grid.

Lemma reset_plain c :
  SudokuMatrixCell.reset None None None None c
  = if decide (SudokuMatrixCell.answer c = INone
               ∨ SudokuMatrixCell.answer c ∈ SudokuMatrixCell.base_sequence c)
    then (Ok false, reset_cell c) else (Raise SudokuMatrixError, c).
Proof.
  unfold SudokuMatrixCell.reset. rewrite bind_unfold. unfold modify at 1.
  assert (E : SudokuMatrixCell.with_location
                (SudokuMatrixCell.or_nat None (SudokuMatrixCell.row c))
                (SudokuMatrixCell.or_nat None (SudokuMatrixCell.column c)) c = c).
  { destruct c; reflexivity. }
  rewrite E. rewrite bind_unfold. unfold get at 1. rewrite bind_unfold.
  unfold SudokuMatrixCell.set_answer. cbn [default].
  destruct (decide _) as [Hok|Hno]; [|reflexivity].
  destruct c; reflexivity.
Qed.

Lemma step_1_body_ok i (s : SudokuMatrixSolver.t) :
  i < length (cells s.1) →
  (length (items_at s.1 i) ≠ 1 → answer_ok (deref s.1 i)) →
  step_1_body i s
  = (Ok tt, (with_cells (<[i := step_1_cell (deref s.1 i)]> (cells s.1)) s.1,
             if decide (length (items_at s.1 i) = 1 ∧ solved_at s.1 i = false)
             then register_for_cleanups i s.2 else s.2)).
Proof.
  intros Hi Hok. unfold step_1_body. rewrite bind_unfold. unfold query. cbn [fst snd].
  unfold step_1_cell, items_at, solved_at in *.
  destruct (length (SudokuMatrixCell.items (deref s.1 i)) =? 1) eqn:El; cbn [negb].
  - apply Nat.eqb_eq in El.
    rewrite list_insert_id by (apply deref_valid, Hi). rewrite with_cells_id.
    destruct (SudokuMatrixCell.solved (deref s.1 i)); cbn [negb].
    + rewrite decide_False by (intros [_ ?]; discriminate). destruct s; reflexivity.
    + rewrite decide_True by tauto. reflexivity.
  - apply Nat.eqb_neq in El. rewrite decide_False by tauto.
    unfold cell_call. rewrite reset_plain.
    rewrite decide_True by (apply Hok, El). reflexivity.
Qed.

Lemma step_1_body_raises i (s : SudokuMatrixSolver.t) :
  i < length (cells s.1) →
  length (items_at s.1 i) ≠ 1 → ¬ answer_ok (deref s.1 i) →
  step_1_body i s = (Raise SudokuMatrixError, s).
Proof.
  intros Hi Hlen Hno. unfold step_1_body. rewrite bind_unfold. unfold query. cbn [fst snd].
  unfold items_at in Hlen. apply Nat.eqb_neq in Hlen. rewrite Hlen. cbn [negb].
  unfold cell_call. rewrite reset_plain. rewrite decide_False by exact Hno.
  cbn [fst snd]. rewrite list_insert_id by (apply deref_valid, Hi).
  rewrite with_cells_id. destruct s; reflexivity.
Qed.

Lemma step_1_cells_cons x l m :
  x ∉ l → x < length (cells m) →
  step_1_cells l (with_cells (<[x := step_1_cell (deref m x)]> (cells m)) m)
  = step_1_cells (x :: l) m.
Proof.
  intros Hx Hlt. unfold step_1_cells, with_cells; cbn. f_equal.
  apply list_eq. intros j. rewrite !list_lookup_imap.
  destruct (decide (j = x)) as [->|Hne].
  - rewrite list_lookup_insert_eq by exact Hlt.
    destruct (lookup_lt_is_Some_2 _ _ Hlt) as [c Hc].
    rewrite Hc. cbn. rewrite decide_False by exact Hx.
    rewrite decide_True by (apply list_elem_of_here).
    unfold deref. rewrite Hc. reflexivity.
  - rewrite list_lookup_insert_ne by congruence.
    destruct (cells m !! j) as [c|]; [|reflexivity]. cbn.
    destruct (decide (j ∈ l)) as [Hin|Hnin].
    + rewrite decide_True by (apply list_elem_of_further; exact Hin). reflexivity.
    + rewrite decide_False; [reflexivity|].
      intros Hc%elem_of_cons; destruct Hc; tauto.
Qed.

Lemma step_1_cells_nil m : step_1_cells [] m = m.
Proof.
  unfold step_1_cells. destruct m; unfold with_cells; cbn. f_equal.
  apply list_eq. intros j. rewrite list_lookup_imap.
  destruct (_ !! j); [|reflexivity]. cbn.
  rewrite decide_False; [reflexivity|]. apply not_elem_of_nil.
Qed.

(** The loop of step 1 over distinct cells that can be reset. *)
Lemma step_1_loop l (s : SudokuMatrixSolver.t) :
  NoDup l → (∀ i, i ∈ l → i < length (cells s.1)) →
  (∀ i, i ∈ l → length (items_at s.1 i) ≠ 1 → answer_ok (deref s.1 i)) →
  ∃ X, for_each l step_1_body s = (Ok tt, (step_1_cells l s.1, mk_ext X (step s.2)))
       ∧ ∀ i, i ∈ X ↔ i ∈ cleanups s.2
                      ∨ (i ∈ l ∧ length (items_at s.1 i) = 1 ∧ solved_at s.1 i = false).
Proof.
  revert s. induction l as [|x l IH]; intros s Hnd Hval Hok.
  - exists (cleanups s.2). rewrite step_1_cells_nil. split.
    + destruct s as [m [X n]]. reflexivity.
    + intros i. split; [tauto|]. intros [?|[Hi _]]; [assumption|].
      apply elem_of_nil in Hi. destruct Hi.
  - apply NoDup_cons in Hnd as [Hx Hnd].
    assert (Hlt : x < length (cells s.1)) by (apply Hval, list_elem_of_here).
    cbn [for_each]. rewrite bind_unfold.
    rewrite (step_1_body_ok x s Hlt (Hok x (list_elem_of_here _ _))).
    set (s1 := (with_cells (<[x:=step_1_cell (deref s.1 x)]> (cells s.1)) s.1,
                if decide (length (items_at s.1 x) = 1 ∧ solved_at s.1 x = false)
                then register_for_cleanups x s.2 else s.2)).
    assert (Hd : ∀ j, j ≠ x → deref s1.1 j = deref s.1 j).
    { intros j Hj. unfold deref; cbn. rewrite list_lookup_insert_ne by congruence.
      reflexivity. }
    assert (Hfresh : ∀ j, j ∈ l → j ≠ x) by (intros j Hj ->; exact (Hx Hj)).
    destruct (IH s1) as (X & E & HX).
    + exact Hnd.
    + intros i Hi. cbn. rewrite length_insert. apply Hval, list_elem_of_further, Hi.
    + intros i Hi. unfold items_at. rewrite (Hd i (Hfresh i Hi)).
      apply Hok, list_elem_of_further, Hi.
    + exists X. split.
      * rewrite E. f_equal. f_equal; [apply step_1_cells_cons; assumption|].
        f_equal. unfold s1; cbn. destruct (decide _); reflexivity.
      * intros i. rewrite HX. unfold items_at, solved_at.
        assert (Hcl : ∀ j, j ∈ cleanups s1.2
                  ↔ j ∈ cleanups s.2
                    ∨ (j = x ∧ length (items_at s.1 x) = 1 ∧ solved_at s.1 x = false)).
        { intros j. unfold s1; cbn. destruct (decide _) as [Hreg|Hreg].
          - unfold register_for_cleanups; cbn. rewrite elem_of_union, elem_of_singleton.
            tauto.
          - tauto. }
        rewrite Hcl. unfold items_at, solved_at. split.
        -- intros [[Hi|(-> & H1 & H2)]|(Hi & H1 & H2)].
           ++ left. exact Hi.
           ++ right. split; [apply list_elem_of_here|tauto].
           ++ right. rewrite (Hd i (Hfresh i Hi)) in H1, H2.
              split; [apply list_elem_of_further, Hi|tauto].
        -- intros [Hi|(Hi & H1 & H2)]; [tauto|].
           apply elem_of_cons in Hi as [->|Hi]; [tauto|].
           right. rewrite (Hd i (Hfresh i Hi)). tauto.
Qed.

Lemma step_1_loop_raises l (s : SudokuMatrixSolver.t) :
  NoDup l → (∀ i, i ∈ l → i < length (cells s.1)) →
  (∃ i, i ∈ l ∧ length (items_at s.1 i) ≠ 1 ∧ ¬ answer_ok (deref s.1 i)) →
  (for_each l step_1_body s).1 = Raise SudokuMatrixError.
Proof.
  revert s. induction l as [|x l IH]; intros s Hnd Hval (i & Hi & Hlen & Hno).
  { apply elem_of_nil in Hi. destruct Hi. }
  apply NoDup_cons in Hnd as [Hx Hnd].
  assert (Hlt : x < length (cells s.1)) by (apply Hval, list_elem_of_here).
  cbn [for_each]. rewrite bind_unfold.
  destruct (decide (length (items_at s.1 x) ≠ 1 ∧ ¬ answer_ok (deref s.1 x))) as [[B1 B2]|Hgood].
  { rewrite (step_1_body_raises x s Hlt B1 B2). reflexivity. }
  rewrite (step_1_body_ok x s Hlt).
  2:{ intros Hl. destruct (decide (answer_ok (deref s.1 x))); tauto. }
  apply elem_of_cons in Hi as [->|Hi]; [tauto|].
  assert (Hix : i ≠ x) by (intros ->; exact (Hx Hi)).
  apply IH.
  + exact Hnd.
  + intros j Hj. cbn. rewrite length_insert. apply Hval, list_elem_of_further, Hj.
  + exists i. split; [exact Hi|]. unfold items_at, deref; cbn.
    rewrite list_lookup_insert_ne by congruence. exact (conj Hlen Hno).
Qed.

Lemma do_step_1_unfold (s : SudokuMatrixSolver.t) :
  do_step_1 s
  = (for_each (seq 0 (length (cells s.1))) step_1_body ;;
     modify (λ s, (s.1, with_step (step s.2 + 1) s.2))) s.
Proof. reflexivity. Qed.


Lemma step_1_cells_all m :
  step_1_cells (seq 0 (length (cells m))) m = with_cells (step_1_cell <$> cells m) m.
Proof.
  unfold step_1_cells. f_equal. apply list_eq. intros j.
  rewrite list_lookup_imap, list_lookup_fmap.
  destruct (cells m !! j) as [c|] eqn:E; [|reflexivity]. cbn.
  rewrite decide_True; [reflexivity|].
  apply elem_of_seq. apply lookup_lt_Some in E. lia.
Qed.

Lemma resettable_lookup m i :
  resettable m → i < length (cells m) → length (items_at m i) ≠ 1 →
  answer_ok (deref m i).
Proof.
  intros Hr Hi. unfold resettable in Hr. rewrite Forall_lookup in Hr.
  apply (Hr i), deref_valid, Hi.
Qed.

Lemma do_step_1_ok (s : SudokuMatrixSolver.t) :
  resettable s.1 →
  ∃ X,
    do_step_1 s
    = (Ok tt, (with_cells (step_1_cell <$> cells s.1) s.1, mk_ext X (step s.2 + 1)))
    ∧ ∀ i, i ∈ X ↔ i ∈ cleanups s.2
                   ∨ (i < length (cells s.1)
                      ∧ length (items_at s.1 i) = 1 ∧ solved_at s.1 i = false).
Proof.
  intros Hr. rewrite do_step_1_unfold, bind_unfold.
  destruct (step_1_loop (seq 0 (length (cells s.1))) s) as (X & E & HX).
  - apply NoDup_seq.
  - intros i Hi. apply elem_of_seq in Hi. lia.
  - intros i Hi. apply elem_of_seq in Hi. apply resettable_lookup; [exact Hr|lia].
  - exists X. rewrite E, step_1_cells_all. split; [reflexivity|].
    intros i. rewrite HX, elem_of_seq. split; intros [?|(? & ?)]; auto; right;
      (split; [lia|assumption]).
Qed.

Lemma do_step_1_fails (s : SudokuMatrixSolver.t) (i : nat) :
  i < length (cells s.1) → length (items_at s.1 i) ≠ 1 → ¬ answer_ok (deref s.1 i) →
  (do_step_1 s).1 = Raise SudokuMatrixError.
Proof.
  intros Hi Hlen Hno. rewrite do_step_1_unfold. apply bind_raises.
  apply step_1_loop_raises.
  - apply NoDup_seq.
  - intros j Hj. apply elem_of_seq in Hj. lia.
  - exists i. split; [apply elem_of_seq; lia|tauto].
Qed.


(** [do_step_1] raises [SudokuMatrixError] when a cell it has to reset
    holds an answer that is neither [None] nor an item of the base
    sequence of the cell: [reset] assigns the answer again and the
    setter refuses it. *)
Theorem do_step_1_raises (s : SudokuMatrixSolver.t) (i : nat) :
  i < length (cells s.1) → length (items_at s.1 i) ≠ 1 → ¬ answer_ok (deref s.1 i) →
  (do_step_1 s).1 = Raise SudokuMatrixError.
Proof.
  intros Hi Hlen Hno. rewrite do_step_1_unfold. apply bind_raises.
  apply step_1_loop_raises.
  - apply NoDup_seq.
  - intros j Hj. apply elem_of_seq in Hj. lia.
  - exists i. split; [apply elem_of_seq; lia|tauto].
Qed.

End Step1.


Lemma do_step_1_raises_witness :
  (SudokuMatrixSolver.do_step_1 Examples.stale_answer4).1 = Raise SudokuMatrixError.
Proof.
  apply (do_step_1_raises Examples.stale_answer4 0).
  - vm_compute. lia.
  - vm_compute. lia.
  - apply (bool_decide_eq_false_1 _). vm_compute. reflexivity.
Defined.

(** ** The solver: [solve] comes to an end *)

Section Termination.
Import SudokuMatrix SudokuMatrixSolver Grid.
Variable pop_order : gset nat → nat.

(** From step 2 on the loop ends, normally with every cell locked or
    in the step that does not exist. *)
Lemma solving_loop_ends (fuel : nat) (s : SudokuMatrixSolver.t) :
  wf s.1 → 2 ≤ step s.2 → 3 * measure s + weight s < fuel →
  ∃ r s', solving_loop pop_order fuel s = (r, s')
          ∧ evolves s s'
          ∧ (r = Ok tt ∧ do_finished s' = true
             ∨ r = Raise AttributeError ∧ do_finished s' = false).
Proof.
  revert s. induction fuel as [|fuel IH]; intros s Hwf Hst Hfuel; [lia|].
  rewrite solving_loop_unfold.
  destruct (do_finished s) eqn:Efin.
  { exists (Ok tt), s. split; [reflexivity|]. split; [apply evolves_refl|]. left. tauto. }
  rewrite bind_unfold, do_step_unfold.
  assert (Hnext : ∀ s1, evolves s s1 → 2 ≤ step s1.2 →
            3 * measure s1 + weight s1 < fuel →
            ∃ r s', solving_loop pop_order fuel s1 = (r, s') ∧ evolves s s'
                    ∧ (r = Ok tt ∧ do_finished s' = true
                       ∨ r = Raise AttributeError ∧ do_finished s' = false)).
  { intros s1 Hev Hst1 Hf1. destruct (IH s1) as (r & s' & E & Hev' & Hr).
    - apply (wf_related s.1); [exact Hwf | destruct Hev as [R _]; exact R].
    - exact Hst1.
    - exact Hf1.
    - exists r, s'. split; [exact E|]. split; [eapply evolves_trans; eassumption|exact Hr]. }
  unfold weight in Hfuel.
  destruct (step s.2) as [|[|[|[|n]]]] eqn:Estep; try lia.
  - destruct (do_step_2_spec pop_order fuel s Hwf) as (s1 & E1 & He & Hev & Hs1); [lia|].
    rewrite E1. apply (Hnext s1); [exact Hev | lia |].
    apply measure_evolves in Hev. unfold weight. rewrite Hs1, Estep. simpl.
    rewrite decide_True by exact He. lia.
  - destruct (do_step_3_spec s Hwf) as (s1 & E1 & R1 & P1 & C1 & Hs1).
    rewrite E1.
    assert (Hev : evolves s s1).
    { split; [|exact P1]. eapply related_weaken; [apply cell_shrinks_evolves | exact R1]. }
    pose proof (measure_evolves _ _ Hev) as Hm.
    rewrite Estep in Hs1. apply (Hnext s1); [exact Hev | |].
    + destruct (decide (cleanups s1.2 ≠ ∅)); rewrite Hs1; simpl; lia.
    + unfold weight. rewrite Hs1.
      destruct (decide (cleanups s.2 = ∅)) as [He0|Hne0];
        destruct (decide (cleanups s1.2 ≠ ∅)) as [Hne|He]; simpl; try lia.
      assert (Hpos : size (cleanups s1.2) ≠ 0).
      { apply size_non_empty_iff. intros H. apply Hne, leibniz_equiv, H. }
      unfold pays in P1. unfold measure in *. rewrite He0, size_empty in *.
      destruct Hev as [Rev _]. apply total_evolves in Rev. lia.
  - exists (Raise AttributeError), s. split; [reflexivity|].
    split; [apply evolves_refl|]. right. tauto.
Qed.

Lemma step_1_cell_keeps c :
  SudokuMatrixCell.row (step_1_cell c) = SudokuMatrixCell.row c
  ∧ SudokuMatrixCell.column (step_1_cell c) = SudokuMatrixCell.column c
  ∧ SudokuMatrixCell.base_sequence (step_1_cell c) = SudokuMatrixCell.base_sequence c.
Proof. unfold step_1_cell. destruct (_ =? 1); repeat split. Qed.

Lemma step_1_wf m : wf m → wf (with_cells (step_1_cell <$> cells m) m).
Proof.
  intros (Hb & HN & Hc & Hlen & Hcells). unfold wf; cbn.
  split; [exact Hb|]. split; [exact HN|]. split; [exact Hc|].
  split; [rewrite length_fmap; exact Hlen|].
  rewrite Forall_lookup in Hcells. rewrite Forall_lookup. intros i [j c] Hi.
  rewrite list_lookup_imap, list_lookup_fmap in Hi.
  destruct (cells m !! i) as [c0|] eqn:E; [|discriminate].
  cbn in Hi. injection Hi as <- <-.
  specialize (Hcells i (i, c0)). rewrite list_lookup_imap, E in Hcells.
  specialize (Hcells eq_refl). unfold cell_placed in *. cbn [fst snd] in *.
  destruct (step_1_cell_keeps c0) as (-> & -> & ->). exact Hcells.
Qed.

Lemma step_1_total m :
  wf m →
  total (with_cells (step_1_cell <$> cells m) m)
  ≤ length (cells m) * max 1 (length (base_sequence m)).
Proof.
  intros Hwf. unfold total; cbn.
  assert (Hall : ∀ c, c ∈ cells m →
            open_items (step_1_cell c) ≤ max 1 (length (base_sequence m))).
  { intros c Hc. apply list_elem_of_lookup in Hc as [i Hi].
    destruct (wf_lookup _ _ _ Hwf Hi) as (_ & _ & Hbase).
    unfold open_items, step_1_cell.
    destruct (length (SudokuMatrixCell.items c) =? 1) eqn:El.
    - apply Nat.eqb_eq in El. destruct (SudokuMatrixCell.solved c); lia.
    - cbn. rewrite Hbase. lia. }
  induction (cells m) as [|c l IH]; [cbn; lia|].
  cbn. specialize (Hall c (list_elem_of_here _ _)) as Hc.
  assert (IH' := IH (λ c' H', Hall c' (list_elem_of_further _ _ _ H'))). lia.
Qed.

(** [solve] comes to an end on every well-formed matrix, whatever the
    cells hold and whichever elements [set.pop] picks: [bound s]
    iterations of the loops are enough.  It returns normally, and then
    every cell is locked, or it ends in [exit(1)]. *)
Theorem solve_terminates (fuel : nat) (s : SudokuMatrixSolver.t) :
  wf s.1 → bound s ≤ fuel →
  ∃ r s', solve pop_order fuel s = (r, s')
          ∧ (r = Ok tt ∧ do_finished s' = true ∨ r = Raise SystemExit).
Proof.
  intros Hwf Hfuel. unfold solve, try_except, do_solve.
  rewrite bind_unfold. unfold modify. cbn [fst snd].
  set (s0 := (s.1, with_step 1 s.2)).
  destruct fuel as [|fuel]; [unfold bound in Hfuel; lia|].
  rewrite solving_loop_unfold.
  destruct (do_finished s0) eqn:Efin.
  { exists (Ok tt), s0. split; [reflexivity|]. left. tauto. }
  rewrite bind_unfold, do_step_unfold. cbn [s0 snd with_step step].
  change (s.1, mk_ext (cleanups s.2) 1) with s0.
  destruct (decide (resettable s0.1)) as [Hres|Hno].
  - destruct (do_step_1_ok s0 Hres) as (X & E & HX). rewrite E.
    set (s1 := (with_cells (step_1_cell <$> cells s0.1) s0.1, mk_ext X (step s0.2 + 1))).
    assert (Hwf1 : wf s1.1) by (apply step_1_wf, Hwf).
    assert (HsX : size X ≤ size (cleanups s.2) + length (cells s.1)).
    { transitivity (size (cleanups s.2 ∪ list_to_set (seq 0 (length (cells s.1))))).
      - apply subseteq_size. intros i Hi. apply HX in Hi. unfold s0 in Hi. cbn in Hi.
        rewrite elem_of_union, elem_of_list_to_set, elem_of_seq.
        destruct Hi as [Hi|(Hi & _)]; [left; exact Hi|right; split; [apply Nat.le_0_l|exact Hi]].
      - rewrite size_union_alt.
        assert (size (list_to_set (C:=gset nat) (seq 0 (length (cells s.1))) ∖ cleanups s.2)
                ≤ length (cells s.1)); [|lia].
        etransitivity; [apply subseteq_size, subseteq_difference_l; reflexivity|].
        rewrite size_list_to_set by apply NoDup_seq. rewrite length_seq. reflexivity. }
    pose proof (step_1_total s.1 Hwf) as Htot.
    destruct (solving_loop_ends fuel s1 Hwf1) as (r & s' & E' & _ & Hr).
    + cbn. lia.
    + unfold measure, weight. cbn [s1 fst snd cleanups step s0 with_step].
      cbn [s0 fst] in Htot. unfold bound in Hfuel. cbv zeta in Hfuel.
      change (1 + 1) with 2. cbv beta iota. lia.
    + rewrite E'. destruct Hr as [[-> Hfin]|[-> Hfin]].
      * exists (Ok tt), s'. split; [reflexivity|]. left. tauto.
      * cbn [is_Exception]. unfold failed_solving, raise.
        exists (Raise SystemExit), s'. split; [reflexivity|]. right. reflexivity.
  - apply not_Forall_Exists in Hno; [|apply _].
    apply Exists_exists in Hno as (c & Hc & Hbad). cbn in Hbad.
    apply list_elem_of_lookup in Hc as [i Hi].
    assert (Hraise : (do_step_1 s0).1 = Raise SudokuMatrixError).
    { apply (do_step_1_fails s0 i).
      - eapply lookup_lt_Some, Hi.
      - unfold items_at. rewrite (deref_lookup _ _ _ Hi). intros Hl. apply Hbad.
        intros Hl'. contradiction.
      - rewrite (deref_lookup _ _ _ Hi). intros Hok. apply Hbad. intros _. exact Hok. }
    destruct (do_step_1 s0) as [r1 s1] eqn:E1. cbn in Hraise. subst r1.
    cbn [is_Exception]. unfold failed_solving, raise.
    exists (Raise SystemExit), s1. split; [reflexivity|]. right. reflexivity.
Qed.

End Termination.

Lemma solve_terminates_witness :
  ∃ r s', SudokuMatrixSolver.solve Examples.pop_first (Grid.bound (Examples.solver4 []))
            (Examples.solver4 []) = (r, s')
          ∧ (r = Ok tt ∧ SudokuMatrixSolver.do_finished s' = true ∨ r = Raise SystemExit).
Proof.
  apply (solve_terminates Examples.pop_first (Grid.bound (Examples.solver4 []))
           (Examples.solver4 [])).
  - by_compute.
  - lia.
Defined.

(** ** The solver: how the loop of [do_solve] ends *)

Section Outcome.
Import SudokuMatrix SudokuMatrixSolver Grid.
Variable pop_order : gset nat → nat.

(** Step 1 on a solver whose cells can be reset: what it leaves is
    within the bound. *)
Lemma after_step_1 (s : SudokuMatrixSolver.t) :
  wf s.1 → resettable s.1 →
  ∃ s1, do_step_1 s = (Ok tt, s1)
        ∧ wf s1.1
        ∧ step s1.2 = step s.2 + 1
        ∧ 3 * measure s1 + 6 ≤ bound s.
Proof.
  intros Hwf Hres.
  destruct (do_step_1_ok s Hres) as (X & E & HX).
  eexists. split; [exact E|].
  split; [apply step_1_wf, Hwf|]. split; [reflexivity|].
  assert (HsX : size X ≤ size (cleanups s.2) + length (cells s.1)).
  { transitivity (size (cleanups s.2 ∪ list_to_set (seq 0 (length (cells s.1))))).
    - apply subseteq_size. intros i Hi. apply HX in Hi.
      rewrite elem_of_union, elem_of_list_to_set, elem_of_seq.
      destruct Hi as [Hi|(Hi & _)]; [left; exact Hi|right; split; [apply Nat.le_0_l|exact Hi]].
    - rewrite size_union_alt.
      assert (size (list_to_set (C:=gset nat) (seq 0 (length (cells s.1))) ∖ cleanups s.2)
              ≤ length (cells s.1)); [|lia].
      etransitivity; [apply subseteq_size, subseteq_difference_l; reflexivity|].
      rewrite size_list_to_set by apply NoDup_seq. rewrite length_seq. reflexivity. }
  pose proof (step_1_total s.1 Hwf) as Htot.
  unfold measure, bound. cbn [fst snd cleanups]. cbv zeta. lia.
Qed.

(** From step 2 on, and up to the step 4 that is reached with
    [cleanups] empty only, the loop ends normally with every cell
    locked, or at step 4 with a cell that is not locked. *)
Lemma solving_loop_stops (fuel : nat) (s : SudokuMatrixSolver.t) :
  wf s.1 → 2 ≤ step s.2 ≤ 4 → (step s.2 = 4 → cleanups s.2 = ∅) →
  3 * measure s + weight s < fuel →
  ∃ r s', solving_loop pop_order fuel s = (r, s')
          ∧ evolves s s'
          ∧ (r = Ok tt ∧ do_finished s' = true
             ∨ r = Raise AttributeError ∧ do_finished s' = false
               ∧ step s'.2 = 4 ∧ cleanups s'.2 = ∅).
Proof.
  revert s. induction fuel as [|fuel IH]; intros s Hwf Hst H4 Hfuel; [lia|].
  rewrite solving_loop_unfold.
  destruct (do_finished s) eqn:Efin.
  { exists (Ok tt), s. split; [reflexivity|]. split; [apply evolves_refl|]. left. tauto. }
  rewrite bind_unfold, do_step_unfold.
  assert (Hnext : ∀ s1, evolves s s1 → 2 ≤ step s1.2 ≤ 4 →
            (step s1.2 = 4 → cleanups s1.2 = ∅) →
            3 * measure s1 + weight s1 < fuel →
            ∃ r s', solving_loop pop_order fuel s1 = (r, s') ∧ evolves s s'
                    ∧ (r = Ok tt ∧ do_finished s' = true
                       ∨ r = Raise AttributeError ∧ do_finished s' = false
                         ∧ step s'.2 = 4 ∧ cleanups s'.2 = ∅)).
  { intros s1 Hev Hst1 H41 Hf1. destruct (IH s1) as (r & s' & E & Hev' & Hr).
    - apply (wf_related s.1); [exact Hwf | destruct Hev as [R _]; exact R].
    - exact Hst1.
    - exact H41.
    - exact Hf1.
    - exists r, s'. split; [exact E|]. split; [eapply evolves_trans; eassumption|exact Hr]. }
  unfold weight in Hfuel.
  destruct (step s.2) as [|[|[|[|n]]]] eqn:Estep; try lia.
  - destruct (do_step_2_spec pop_order fuel s Hwf) as (s1 & E1 & He & Hev & Hs1); [lia|].
    rewrite E1. apply (Hnext s1); [exact Hev | lia | intros _; exact He |].
    apply measure_evolves in Hev. unfold weight. rewrite Hs1, Estep. simpl.
    rewrite decide_True by exact He. lia.
  - destruct (do_step_3_spec s Hwf) as (s1 & E1 & R1 & P1 & C1 & Hs1).
    rewrite E1.
    assert (Hev : evolves s s1).
    { split; [|exact P1]. eapply related_weaken; [apply cell_shrinks_evolves | exact R1]. }
    pose proof (measure_evolves _ _ Hev) as Hm.
    rewrite Estep in Hs1. apply (Hnext s1); [exact Hev | | |].
    + destruct (decide (cleanups s1.2 ≠ ∅)); rewrite Hs1; simpl; lia.
    + rewrite Hs1. destruct (decide (cleanups s1.2 ≠ ∅)) as [Hne|He]; simpl; [lia|].
      intros _. destruct (decide (cleanups s1.2 = ∅)) as [H0|H0]; [exact H0|contradiction].
    + unfold weight. rewrite Hs1.
      destruct (decide (cleanups s.2 = ∅)) as [He0|Hne0];
        destruct (decide (cleanups s1.2 ≠ ∅)) as [Hne|He]; simpl; try lia.
      assert (Hpos : size (cleanups s1.2) ≠ 0).
      { apply size_non_empty_iff. intros H. apply Hne, leibniz_equiv, H. }
      unfold pays in P1. unfold measure in *. rewrite He0, size_empty in *.
      destruct Hev as [Rev _]. apply total_evolves in Rev. lia.
  - assert (n = 0) as -> by lia.
    exists (Raise AttributeError), s. split; [reflexivity|].
    split; [apply evolves_refl|]. right. rewrite Estep. auto.
Qed.

(** A state the loop comes to, from step 2 on: the rest of the run is
    the run from that state. *)
Lemma loop_states_reach (fuel : nat) (s t : SudokuMatrixSolver.t) :
  wf s.1 → 2 ≤ step s.2 → 3 * measure s + weight s < fuel →
  t ∈ loop_states pop_order fuel s →
  ∃ k, solving_loop pop_order fuel s = solving_loop pop_order k t
       ∧ wf t.1 ∧ 3 * measure t + weight t < k.
Proof.
  revert s. induction fuel as [|fuel IH]; intros s Hwf Hst Hfuel Ht; [lia|].
  cbn [loop_states] in Ht. apply elem_of_cons in Ht as [->|Ht].
  { exists (S fuel). auto. }
  rewrite solving_loop_unfold.
  destruct (do_finished s) eqn:Efin; [inversion Ht|].
  rewrite bind_unfold. rewrite do_step_unfold in Ht |- *.
  unfold weight in Hfuel.
  destruct (step s.2) as [|[|[|[|n]]]] eqn:Estep; try lia.
  - destruct (do_step_2_spec pop_order fuel s Hwf) as (s1 & E1 & He & Hev & Hs1); [lia|].
    rewrite E1 in Ht |- *. apply IH; [| lia | | exact Ht].
    + apply (wf_related s.1); [exact Hwf | destruct Hev as [R _]; exact R].
    + apply measure_evolves in Hev. unfold weight. rewrite Hs1, Estep. simpl.
      rewrite decide_True by exact He. lia.
  - destruct (do_step_3_spec s Hwf) as (s1 & E1 & R1 & P1 & C1 & Hs1).
    rewrite E1 in Ht |- *.
    assert (Hev : evolves s s1).
    { split; [|exact P1]. eapply related_weaken; [apply cell_shrinks_evolves | exact R1]. }
    pose proof (measure_evolves _ _ Hev) as Hm.
    rewrite Estep in Hs1. apply IH; [| | | exact Ht].
    + apply (wf_related s.1); [exact Hwf | destruct Hev as [R _]; exact R].
    + destruct (decide (cleanups s1.2 ≠ ∅)); rewrite Hs1; simpl; lia.
    + unfold weight. rewrite Hs1.
      destruct (decide (cleanups s.2 = ∅)) as [He0|Hne0];
        destruct (decide (cleanups s1.2 ≠ ∅)) as [Hne|He]; simpl; try lia.
      assert (Hpos : size (cleanups s1.2) ≠ 0).
      { apply size_non_empty_iff. intros H. apply Hne, leibniz_equiv, H. }
      unfold pays in P1. unfold measure in *. rewrite He0, size_empty in *.
      destruct Hev as [Rev _]. apply total_evolves in Rev. lia.
  - inversion Ht.
Qed.


(** C2.  [do_solve] on a well-formed solver whose cells can be reset
    and are not all locked runs step 1 once, at the start, and never
    again: from the state step 1 leaves, the cells only lose items.
    With [bound s] iterations allowed the loop comes to its end in one
    of two ways.  Either every cell is locked and [do_solve] returns;
    or some cell is not locked, step 3 has left [cleanups] empty and
    made the step number 4, and [do_solve] raises the [AttributeError]
    of the method [do_step_4] that does not exist, which [solve] turns
    into [exit(1)].  The loop does not go back to step 1 and does not
    go on until every cell is locked. *)
Theorem do_solve_stops_at_step_4 (fuel : nat) (s : SudokuMatrixSolver.t) :
  wf s.1 → resettable s.1 → do_finished s = false → bound s ≤ fuel →
  ∃ s1 r s',
    do_step_1 (s.1, with_step 1 s.2) = (Ok tt, s1)
    ∧ do_solve pop_order fuel s = (r, s')
    ∧ evolves s1 s'
    ∧ (r = Ok tt ∧ do_finished s' = true
       ∧ solve pop_order fuel s = (Ok tt, s')
       ∨ r = Raise AttributeError ∧ do_finished s' = false
         ∧ step s'.2 = 4 ∧ cleanups s'.2 = ∅
         ∧ solve pop_order fuel s = (Raise SystemExit, s')).
Proof.
  intros Hwf Hres Hfin Hfuel.
  set (s0 := (s.1, with_step 1 s.2)).
  destruct (after_step_1 s0 Hwf Hres) as (s1 & E1 & Hwf1 & Hst1 & Hb1).
  cbn [s0 snd with_step step] in Hst1.
  change (bound s0) with (bound s) in Hb1.
  destruct fuel as [|fuel]; [lia|].
  destruct (solving_loop_stops fuel s1 Hwf1) as (r & s' & E' & Hev & Hr).
  { lia. }
  { intros H4. lia. }
  { pose proof (weight_le s1). lia. }
  assert (Ed : do_solve pop_order (S fuel) s = (r, s')).
  { unfold do_solve. rewrite bind_unfold. unfold modify. cbn [fst snd].
    fold s0. rewrite solving_loop_unfold.
    change (do_finished s0) with (do_finished s). rewrite Hfin.
    rewrite bind_unfold, do_step_unfold. cbn [s0 snd with_step step].
    fold s0. rewrite E1. exact E'. }
  exists s1, r, s'. split; [exact E1|]. split; [exact Ed|]. split; [exact Hev|].
  unfold solve, try_except. rewrite Ed.
  destruct Hr as [[-> Hf]|(-> & Hf & H4 & Hc)]; [left | right]; auto 6.
Qed.

(** C3.  Let the loop of [do_solve], run by [solve] on a well-formed
    solver, come after step 1 to a state in which a cell that is not
    locked has no item left.  Then, with [bound s] iterations allowed,
    the loop does not go on for ever and does not end normally:
    [do_solve] raises an exception, the [AttributeError] of the step
    that does not exist, the [try] of [solve] catches it and calls
    [failed_solving] with it, which ends in [exit(1)]; the cell is
    still empty then. *)
Theorem contradiction_is_reported (s t : SudokuMatrixSolver.t) (fuel i : nat) :
  wf s.1 → bound s ≤ fuel →
  t ∈ loop_states pop_order fuel (s.1, with_step 1 s.2) →
  2 ≤ step t.2 → contradiction t.1 i →
  ∃ s', do_solve pop_order fuel s = (Raise AttributeError, s')
        ∧ solve pop_order fuel s = failed_solving AttributeError s'
        ∧ solve pop_order fuel s = (Raise SystemExit, s')
        ∧ contradiction s'.1 i.
Proof.
  intros Hwf Hfuel Ht Hst Hcon.
  set (s0 := (s.1, with_step 1 s.2)) in *.
  destruct fuel as [|fuel]; [unfold bound in Hfuel; lia|].
  cbn [loop_states] in Ht. apply elem_of_cons in Ht as [->|Ht].
  { cbn in Hst. lia. }
  destruct (do_finished s0) eqn:Efin; [inversion Ht|].
  rewrite do_step_unfold in Ht. cbn [s0 snd with_step step] in Ht. fold s0 in Ht.
  assert (Hloop : ∃ s', solving_loop pop_order (S fuel) s0 = (Raise AttributeError, s')
                        ∧ contradiction s'.1 i).
  { rewrite solving_loop_unfold, Efin, bind_unfold, do_step_unfold.
    cbn [s0 snd with_step step]. fold s0.
    destruct (decide (resettable s0.1)) as [Hres|Hno].
    - destruct (after_step_1 s0 Hwf Hres) as (s1 & E1 & Hwf1 & Hst1 & Hb1).
      cbn [s0 snd with_step step] in Hst1.
      change (bound s0) with (bound s) in Hb1.
      rewrite E1 in Ht |- *.
      destruct (loop_states_reach fuel s1 t Hwf1) as (k & Ek & Hwft & Hk); [lia | | exact Ht |].
      { pose proof (weight_le s1). lia. }
      destruct (solving_loop_fails pop_order k t i Hwft Hst Hcon Hk) as (s' & E' & [R _]).
      exists s'. rewrite Ek. split; [exact E'|].
      eapply contradiction_evolves; eassumption.
    - exfalso. apply not_Forall_Exists in Hno; [|apply _].
      apply Exists_exists in Hno as (c & Hc & Hbad). cbn in Hbad.
      apply list_elem_of_lookup in Hc as [j Hj].
      assert (Hraise : (do_step_1 s0).1 = Raise SudokuMatrixError).
      { apply (do_step_1_fails s0 j).
        - eapply lookup_lt_Some, Hj.
        - unfold items_at. rewrite (deref_lookup _ _ _ Hj). intros Hl. apply Hbad.
          intros Hl'. contradiction.
        - rewrite (deref_lookup _ _ _ Hj). intros Hok. apply Hbad. intros _. exact Hok. }
      destruct (do_step_1 s0) as [r1 s1] eqn:E1. cbn in Hraise. subst r1.
      inversion Ht. }
  destruct Hloop as (s' & E' & Hcon').
  assert (Ed : do_solve pop_order (S fuel) s = (Raise AttributeError, s')).
  { unfold do_solve. rewrite bind_unfold. unfold modify. cbn [fst snd]. exact E'. }
  exists s'. split; [exact Ed|].
  unfold solve, try_except. rewrite Ed. cbn [is_Exception].
  split; [reflexivity|]. split; [reflexivity | exact Hcon'].
Qed.

End Outcome.

(** The solver built without values: the loop ends at step 4, with
    no cell locked. *)
Lemma do_solve_stops_at_step_4_witness :
  let s := Examples.solver4 [] in
  ∃ s1 s',
    SudokuMatrixSolver.do_step_1 (s.1, SudokuMatrixSolver.with_step 1 s.2) = (Ok tt, s1)
    ∧ SudokuMatrixSolver.do_solve Examples.pop_first (Grid.bound s) s
      = (Raise AttributeError, s')
    ∧ Grid.evolves s1 s'
    ∧ SudokuMatrixSolver.do_finished s' = false
    ∧ SudokuMatrixSolver.step s'.2 = 4 ∧ SudokuMatrixSolver.cleanups s'.2 = ∅
    ∧ SudokuMatrixSolver.solve Examples.pop_first (Grid.bound s) s
      = (Raise SystemExit, s').
Proof.
  intros s.
  destruct (do_solve_stops_at_step_4 Examples.pop_first (Grid.bound s) s)
    as (s1 & r & s' & E1 & Ed & Hev & Hr); [by_compute | by_compute | reflexivity | lia |].
  exists s1, s'. destruct Hr as [(-> & _)|(-> & Hf & H4 & Hc & Es)].
  - exfalso. vm_compute in Ed. discriminate Ed.
  - auto 8.
Defined.

Lemma contradiction_is_reported_witness :
  let s := Examples.solver4 [1; 1]%Z in
  ∃ s', SudokuMatrixSolver.do_solve Examples.pop_first (Grid.bound s) s
        = (Raise AttributeError, s')
        ∧ SudokuMatrixSolver.solve Examples.pop_first (Grid.bound s) s
          = SudokuMatrixSolver.failed_solving AttributeError s'
        ∧ SudokuMatrixSolver.solve Examples.pop_first (Grid.bound s) s
          = (Raise SystemExit, s')
        ∧ Grid.contradiction s'.1 0.
Proof.
  intros s.
  apply (contradiction_is_reported Examples.pop_first s Examples.stuck4 (Grid.bound s) 0).
  - by_compute.
  - lia.
  - apply (list_elem_of_lookup_2 _ 2). vm_compute. reflexivity.
  - vm_compute. lia.
  - eexists. vm_compute. split; [reflexivity|]. split; reflexivity.
Defined.

(** ** The solver: what a normal return of [solve] means *)

Section Soundness.
Import SudokuMatrix SudokuMatrixSolver Grid.
Variable pop_order : gset nat → nat.

Lemma unit_of_frame m m' r c : same_frame m m' → unit_of m' r c = unit_of m r c.
Proof.
  intros (F1 & F2 & _ & F4). unfold unit_of, row_refs, column_refs, box_refs.
  rewrite F1, F2, F4. reflexivity.
Qed.

Lemma peer_frame m m' i j : same_frame m m' → peer m' i j ↔ peer m i j.
Proof.
  intros F. unfold peer. rewrite (unit_of_frame _ _ _ _ F).
  destruct F as (_ & -> & _). reflexivity.
Qed.

Lemma peer_spec m i j :
  wf m → i < length (cells m) →
  peer m i j ↔
  j ≠ i ∧ j < length (cells m)
  ∧ (j / columns m = i / columns m ∨ j `mod` columns m = i `mod` columns m
     ∨ (j / columns m / box_size m = i / columns m / box_size m
        ∧ j `mod` columns m / box_size m = i `mod` columns m / box_size m)).
Proof.
  intros Hwf Hi. pose proof Hwf as (Hb & HN & Hc & Hlen & _).
  assert (Hn : columns m ≠ 0) by nia.
  unfold peer, unit_of. rewrite elem_of_list_to_set, elem_of_unit.
  - reflexivity.
  - exact Hwf.
  - apply Nat.Div0.div_lt_upper_bound. nia.
  - apply Nat.mod_upper_bound, Hn.
Qed.

Lemma peer_sym m i j :
  wf m → i < length (cells m) → peer m i j → peer m j i ∧ j < length (cells m).
Proof.
  intros Hwf Hi Hp. apply (peer_spec m i j Hwf Hi) in Hp as (Hne & Hj & Hu).
  split; [|exact Hj]. apply (peer_spec m j i Hwf Hj).
  split; [congruence|]. split; [exact Hi|].
  destruct Hu as [->|[->|[-> ->]]]; auto.
Qed.

Lemma evolves_items_at m m' j :
  related cell_evolves m m' → items_at m' j `sublist_of` items_at m j.
Proof.
  intros Hrel. unfold items_at, deref.
  destruct (cells m !! j) as [c|] eqn:E.
  - destruct (related_lookup _ _ _ _ _ Hrel E) as (c' & -> & (_ & _ & _ & S & _)). exact S.
  - apply lookup_ge_None in E. rewrite <- (related_length _ _ _ Hrel) in E.
    apply lookup_ge_None in E. rewrite E. reflexivity.
Qed.

Lemma evolves_locked m m' j :
  related cell_evolves m m' → solved_at m j = true → deref m' j = deref m j.
Proof.
  intros Hrel Hs. unfold solved_at, deref in *.
  destruct (cells m !! j) as [c|] eqn:E; [|discriminate].
  destruct (related_lookup _ _ _ _ _ Hrel E) as (c' & -> & (_ & _ & _ & _ & L & _)).
  cbn in *. apply L, Hs.
Qed.

(** How [consistent] goes from a matrix to a later one: items were
    only removed, locked cells are as they were, and each cell locked
    in between holds one item that its peers have lost. *)
Lemma consistent_step m m' :
  consistent m → same_frame m m' →
  (∀ j, items_at m' j `sublist_of` items_at m j) →
  (∀ j, solved_at m j = true → solved_at m' j = true ∧ items_at m' j = items_at m j) →
  (∀ i, solved_at m' i = true → solved_at m i = false →
     ∃ v, items_at m' i = [v] ∧ ∀ j, peer m i j → v ∉ items_at m' j) →
  consistent m'.
Proof.
  intros (A & B & C) F Hsub Hlock Hnew. split; [|split].
  - intros i. eapply sublist_NoDup; [apply A|apply Hsub].
  - intros i v Hv. apply (B i). eapply elem_of_sublist; [exact Hv|apply Hsub].
  - intros i Hi. destruct (solved_at m i) eqn:Hs.
    + destruct (C i Hs) as (v & Hv & Hp). exists v.
      destruct (Hlock i Hs) as [_ ->]. split; [exact Hv|].
      intros j Hj Hin. apply (peer_frame _ _ _ _ F) in Hj.
      apply (Hp j Hj). eapply elem_of_sublist; [exact Hin|apply Hsub].
    + destruct (Hnew i Hi Hs) as (v & Hv & Hp). exists v. split; [exact Hv|].
      intros j Hj. apply (peer_frame _ _ _ _ F) in Hj. apply Hp, Hj.
Qed.

Lemma consistent_shrinks m m' :
  consistent m → related cell_shrinks m m' → consistent m'.
Proof.
  intros Hc Hrel.
  assert (Hev : related cell_evolves m m').
  { eapply related_weaken; [apply cell_shrinks_evolves|exact Hrel]. }
  apply (consistent_step m m' Hc).
  - destruct Hrel as [F _]. exact F.
  - intros j. apply evolves_items_at, Hev.
  - intros j Hs. unfold solved_at, items_at. rewrite (evolves_locked _ _ _ Hev Hs).
    split; [exact Hs|reflexivity].
  - intros i Hi Hs. rewrite (shrinks_solved_at _ _ _ Hrel) in Hi. congruence.
Qed.


(** Locking a cell that holds one item, then stripping the item from
    the unit of the cell. *)
Lemma lock_strip (s1 : SudokuMatrixSolver.t) i v :
  wf s1.1 → consistent s1.1 → items_at s1.1 i = [v] →
  ∃ s3,
    (lock i ;;
     c ← query (λ s, Ok (deref s.1 i)) ;
     strip_value (SudokuMatrixCell.get_value c)
       (SudokuMatrixCell.row c) (SudokuMatrixCell.column c)) s1 = (Ok tt, s3)
    ∧ consistent s3.1
    ∧ related cell_evolves s1.1 s3.1
    ∧ step s3.2 = step s1.2.
Proof.
  intros Hwf Hcons Hv.
  assert (El : length (items_at s1.1 i) = 1) by (rewrite Hv; reflexivity).
  destruct (lock_spec s1 i El) as (s2 & E2 & H12 & Hq & Hv2 & Hs2 & Hi2).
  rewrite bind_unfold, E2. rewrite bind_unfold. unfold query at 1. cbn [fst snd].
  assert (Hwf2 : wf s2.1).
  { apply (wf_related s1.1); [exact Hwf | destruct H12 as [R _]; exact R]. }
  destruct (wf_location s2.1 i Hwf2 Hv2) as (Hr & Hk & Href).
  set (r := SudokuMatrixCell.row (deref s2.1 i)) in *.
  set (c := SudokuMatrixCell.column (deref s2.1 i)) in *.
  assert (Hval : SudokuMatrixCell.get_value (deref s2.1 i) = PItem v).
  { unfold SudokuMatrixCell.get_value. unfold items_at in Hi2, Hv. rewrite Hi2, Hv.
    destruct Hcons as (_ & B & _). rewrite (B i v); [reflexivity|].
    unfold items_at. rewrite Hv. apply list_elem_of_here. }
  rewrite Hval.
  destruct (strip_value_locked s2 (PItem v) r c Hwf2 Hr Hk) as (s3 & E3 & H23).
  { rewrite Href. exact Hs2. }
  exists s3. split; [exact E3|].
  assert (Hev13 : evolves s1 s3).
  { eapply evolves_trans; [exact H12 | apply shrinks_evolves, H23]. }
  split; [|split; [destruct Hev13 as [R _]; exact R|]].
  2:{ destruct H23 as (_ & _ & _ & ->). rewrite Hq. reflexivity. }
  (* the cells of [s2] and of [s3] *)
  assert (Hlen12 : length (cells s2.1) = length (cells s1.1)).
  { destruct H12 as [R _]. apply (related_length _ _ _ R). }
  assert (Hd2 : ∀ j, j ≠ i → deref s2.1 j = deref s1.1 j).
  { intros j Hj. unfold lock, modify in E2. injection E2 as <-.
    unfold deref; cbn. rewrite list_lookup_alter_ne by congruence. reflexivity. }
  assert (Erun := strip_value_run elements (PItem v) r c s2.1 s2.2
                    (λ u, reflexivity _) Hwf2 Hr Hk).
  change (strip_value_in_order elements (PItem v) r c (s2.1, s2.2))
    with (strip_value (PItem v) r c (s2.1, s2.2)) in Erun.
  replace (s2.1, s2.2) with s2 in Erun by (destruct s2; reflexivity).
  rewrite E3, Href in Erun.
  set (l := elements (unit_of s2.1 r c)) in *.
  set (m3 := strip_cells (PItem v) l s2.1) in *.
  pose proof (deref_strip_cells (PItem v) l s2.1) as Hd3. fold m3 in Hd3.
  assert (Hi3 : deref m3 i = deref s2.1 i).
  { rewrite Hd3. destruct (decide _); [|reflexivity].
    apply strip_keeps_attributes, Hs2. }
  assert (Hlt3 : i < length (cells m3)).
  { unfold m3, strip_cells; cbn. rewrite length_imap. exact Hv2. }
  assert (E33 : s3.1 = m3).
  { unfold cell_call in Erun. cbn [fst snd] in Erun.
    unfold SudokuMatrixCell.set_value in Erun. rewrite Hi3 in Erun.
    unfold solved_at in Hs2. rewrite Hs2 in Erun. cbn [fst snd] in Erun.
    rewrite <- Hi3 in Erun.
    rewrite list_insert_id in Erun by (apply deref_valid, Hlt3).
    rewrite with_cells_id in Erun. injection Erun as ->. reflexivity. }
  rewrite E33.
  destruct H12 as [R12 _]. pose proof R12 as [F12 _].
  assert (F13 : same_frame s1.1 m3).
  { destruct F12 as (F1 & F2 & F3 & F4). unfold m3, strip_cells. repeat split; assumption. }
  destruct (wf_lookup _ _ _ Hwf2 (deref_valid _ _ Hv2)) as (Prow & Pcol & _).
  fold r in Prow. fold c in Pcol.
  assert (Hunit : unit_of s2.1 r c = unit_of s1.1 (i / columns s1.1) (i `mod` columns s1.1)).
  { rewrite (unit_of_frame _ _ _ _ F12), Prow, Pcol.
    destruct F12 as (_ & -> & _). reflexivity. }
  assert (Hi1 : i < length (cells s1.1)) by (rewrite <- Hlen12; exact Hv2).
  assert (Hsol2 : ∀ j, solved_at s2.1 j = if decide (j = i) then true else solved_at s1.1 j).
  { intros j. destruct (decide (j = i)) as [->|Hj]; [exact Hs2|].
    unfold solved_at. rewrite (Hd2 j Hj). reflexivity. }
  assert (Hit2 : ∀ j, items_at s2.1 j = items_at s1.1 j).
  { intros j. destruct (decide (j = i)) as [->|Hj]; [exact Hi2|].
    unfold items_at. rewrite (Hd2 j Hj). reflexivity. }
  assert (Hsol3 : ∀ j, solved_at m3 j = solved_at s2.1 j).
  { intros j. unfold solved_at. rewrite Hd3. destruct (decide _); [|reflexivity].
    apply strip_keeps_attributes. }
  apply (consistent_step s1.1 m3 Hcons F13).
  - intros j. rewrite <- Hit2. unfold items_at. rewrite Hd3.
    destruct (decide _); [|reflexivity]. apply strip_keeps_attributes.
  - intros j Hj. rewrite Hsol3, Hsol2. split; [destruct (decide _); [reflexivity|exact Hj]|].
    rewrite <- Hit2. unfold items_at. rewrite Hd3. destruct (decide _); [|reflexivity].
    f_equal. apply strip_keeps_attributes.
    fold (solved_at s2.1 j). rewrite Hsol2. destruct (decide _); [reflexivity|exact Hj].
  - intros k Hk3 Hk1. rewrite Hsol3, Hsol2 in Hk3.
    destruct (decide (k = i)) as [->|Hne]; [|congruence].
    exists v. split.
    { unfold items_at. rewrite Hi3. fold (items_at s2.1 i). rewrite Hi2. exact Hv. }
    intros j Hp. pose proof Hp as [Hji Hju].
    destruct (peer_sym s1.1 i j Hwf Hi1 Hp) as [Hpji Hj1].
    unfold items_at. rewrite Hd3. rewrite decide_True.
    2:{ split; [|rewrite Hlen12; exact Hj1].
        unfold l. apply elem_of_elements. rewrite Hunit. exact Hju. }
    rewrite (Hd2 j Hji).
    destruct (SudokuMatrixCell.solved (deref s1.1 j)) eqn:Hsj.
    + destruct (strip_keeps_attributes (PItem v) (deref s1.1 j)) as (_ & _ & _ & Hsame).
      rewrite (Hsame Hsj). destruct Hcons as (_ & _ & C).
      destruct (C j Hsj) as (w & Hw & Hpw). fold (items_at s1.1 j). rewrite Hw.
      intros Hin. apply list_elem_of_singleton in Hin as ->.
      apply (Hpw i Hpji). rewrite Hv. apply list_elem_of_here.
    + destruct (strip_value_spec (PItem v) (deref s1.1 j))
        as (b & l' & E & _ & _ & _ & _ & _ & Hnot).
      rewrite E. cbn. apply (Hnot v eq_refl Hsj). destruct Hcons as (A & _). apply A.
Qed.


(** The loop of step 2 keeps the matrix consistent, however long it
    is allowed to run. *)
Lemma drain_keeps (fuel : nat) (s s' : SudokuMatrixSolver.t) :
  wf s.1 → consistent s.1 →
  drain_cleanups pop_order fuel s = (Ok tt, s') →
  consistent s'.1 ∧ related cell_evolves s.1 s'.1 ∧ step s'.2 = step s.2.
Proof.
  revert s. induction fuel as [|fuel IH]; intros s Hwf Hcons E; [discriminate|].
  cbn [drain_cleanups] in E. rewrite bind_unfold in E. unfold query at 1 in E.
  cbn [fst snd] in E.
  destruct (pop pop_order (cleanups s.2)) as [[i X']|] eqn:Ep.
  2:{ injection E as <-. split; [exact Hcons|].
      split; [apply related_refl, cell_evolves_refl|reflexivity]. }
  rewrite bind_unfold in E. unfold modify at 1 in E. cbn [fst snd] in E.
  set (s1 := (s.1, mk_ext X' (step s.2))) in *.
  rewrite bind_unfold in E. unfold query at 1 in E. cbn [fst snd] in E.
  rewrite bind_unfold in E.
  change (length (SudokuMatrixCell.items (deref s1.1 i)))
    with (length (items_at s.1 i)) in E.
  destruct (length (items_at s.1 i) =? 1) eqn:El.
  - apply Nat.eqb_eq in El.
    destruct (items_at s.1 i) as [|v [|w l]] eqn:Ei; try discriminate.
    destruct (lock_strip s1 i v Hwf Hcons Ei) as (s3 & E3 & Hc3 & R13 & Hst).
    rewrite E3 in E.
    destruct (IH s3) as (Hc' & R' & Hst').
    + apply (wf_related s.1); [exact Hwf|exact R13].
    + exact Hc3.
    + exact E.
    + split; [exact Hc'|]. split; [|rewrite Hst', Hst; reflexivity].
      eapply related_trans; [apply cell_evolves_trans|exact R13|exact R'].
  - destruct (IH s1 Hwf Hcons E) as (Hc' & R' & Hst').
    split; [exact Hc'|]. split; [exact R'|exact Hst'].
Qed.

(** The solving loop, from step 2 on: a normal return means that the
    matrix is consistent and that every cell is locked. *)
Lemma loop_keeps (fuel : nat) (s s' : SudokuMatrixSolver.t) :
  wf s.1 → consistent s.1 → 2 ≤ step s.2 →
  solving_loop pop_order fuel s = (Ok tt, s') →
  consistent s'.1 ∧ do_finished s' = true ∧ related cell_evolves s.1 s'.1.
Proof.
  revert s. induction fuel as [|fuel IH]; intros s Hwf Hcons Hst E; [discriminate|].
  rewrite solving_loop_unfold in E.
  destruct (do_finished s) eqn:Efin.
  { injection E as <-. split; [exact Hcons|]. split; [exact Efin|].
    apply related_refl, cell_evolves_refl. }
  rewrite bind_unfold, do_step_unfold in E.
  destruct (step s.2) as [|[|[|[|n]]]] eqn:Estep; try lia.
  - unfold do_step_2 in E. rewrite bind_unfold in E.
    destruct (drain_cleanups pop_order fuel s) as [[[]|e|] s1] eqn:Ed; try discriminate.
    destruct (drain_keeps fuel s s1 Hwf Hcons Ed) as (Hc1 & R1 & Hst1).
    unfold modify in E. cbn [fst snd] in E.
    destruct (IH (s1.1, with_step (step s1.2 + 1) s1.2) (wf_related _ _ Hwf R1) Hc1
                ltac:(cbn; lia) E) as (Hc' & Hfin & R').
    split; [exact Hc'|]. split; [exact Hfin|].
    eapply related_trans; [apply cell_evolves_trans|exact R1|exact R'].
  - destruct (do_step_3_spec s Hwf) as (s1 & E1 & R1 & _ & _ & Hs1).
    rewrite E1 in E.
    assert (Rev : related cell_evolves s.1 s1.1).
    { eapply related_weaken; [apply cell_shrinks_evolves|exact R1]. }
    assert (Hst1 : 2 ≤ step s1.2).
    { rewrite Hs1, Estep. destruct (decide _); cbn; lia. }
    destruct (IH s1 (wf_related _ _ Hwf Rev) (consistent_shrinks _ _ Hcons R1) Hst1 E)
      as (Hc' & Hfin & R').
    split; [exact Hc'|]. split; [exact Hfin|].
    eapply related_trans; [apply cell_evolves_trans|exact Rev|exact R'].
  - discriminate.
Qed.

(** After step 1 a matrix without locked cells is consistent. *)
Lemma step_1_consistent m :
  wf m → NoDup (base_sequence m) → (∀ v, v ∈ base_sequence m → truthy v = true) →
  (∀ i, solved_at m i = false) → (∀ i v, items_at m i = [v] → truthy v = true) →
  consistent (with_cells (step_1_cell <$> cells m) m)
  ∧ ∀ i, i < length (cells m) →
         deref (with_cells (step_1_cell <$> cells m) m) i = step_1_cell (deref m i).
Proof.
  intros Hwf Hnd Htrue Hopen Hone.
  assert (Hd : ∀ i, i < length (cells m) →
            deref (with_cells (step_1_cell <$> cells m) m) i = step_1_cell (deref m i)).
  { intros i Hi. unfold deref; cbn. rewrite list_lookup_fmap.
    rewrite (deref_valid _ _ Hi). reflexivity. }
  split; [|exact Hd].
  assert (Hout : ∀ i, ¬ i < length (cells m) →
            deref (with_cells (step_1_cell <$> cells m) m) i
            = SudokuMatrixCell.mk 0 0 INone [] 0 false []).
  { intros i Hi. unfold deref; cbn. rewrite list_lookup_fmap.
    rewrite lookup_ge_None_2 by lia. reflexivity. }
  assert (Hcell : ∀ i, i < length (cells m) →
            SudokuMatrixCell.solved (step_1_cell (deref m i)) = false
            ∧ NoDup (SudokuMatrixCell.items (step_1_cell (deref m i)))
            ∧ ∀ v, v ∈ SudokuMatrixCell.items (step_1_cell (deref m i)) → truthy v = true).
  { intros i Hi. destruct (wf_lookup _ _ _ Hwf (deref_valid _ _ Hi)) as (_ & _ & Hb).
    unfold step_1_cell.
    destruct (length (SudokuMatrixCell.items (deref m i)) =? 1) eqn:El.
    - apply Nat.eqb_eq in El. split; [apply Hopen|].
      destruct (SudokuMatrixCell.items (deref m i)) as [|v [|w l]] eqn:Ei; try discriminate.
      split; [apply NoDup_singleton|].
      intros w Hw. apply list_elem_of_singleton in Hw as ->. apply (Hone i). exact Ei.
    - cbn. rewrite Hb. split; [reflexivity|]. split; [exact Hnd|exact Htrue]. }
  split; [|split].
  - intros i. unfold items_at. destruct (decide (i < length (cells m))) as [Hi|Hi].
    + rewrite (Hd i Hi). apply Hcell, Hi.
    + rewrite (Hout i Hi). apply NoDup_nil_2.
  - intros i v. unfold items_at. destruct (decide (i < length (cells m))) as [Hi|Hi].
    + rewrite (Hd i Hi). apply Hcell, Hi.
    + rewrite (Hout i Hi). intros Hv. apply elem_of_nil in Hv. destruct Hv.
  - intros i. unfold solved_at. destruct (decide (i < length (cells m))) as [Hi|Hi].
    + rewrite (Hd i Hi). destruct (Hcell i Hi) as [-> _]. discriminate.
    + rewrite (Hout i Hi). discriminate.
Qed.


(** When [solve] returns normally the matrix is a solution of the
    grid it was given.  For a well-formed matrix without locked cells,
    whose base sequence has no repeated item and only items that are
    true in the Python sense, as are the items given alone in a cell:
    after a normal return every cell is locked and holds exactly one
    item, which [get_value] returns; a cell that held one item holds it
    still, any other cell holds an item of the base sequence; and no
    other cell of the same row, column or box holds the same item.
    This holds whichever elements [set.pop] picks. *)
Theorem solved_matrix_is_valid (fuel : nat) (s s' : SudokuMatrixSolver.t) :
  wf s.1 →
  NoDup (base_sequence s.1) →
  Forall (λ v, truthy v = true) (base_sequence s.1) →
  Forall (λ c, SudokuMatrixCell.solved c = false
               ∧ (length (SudokuMatrixCell.items c) = 1 →
                  Forall (λ v, truthy v = true) (SudokuMatrixCell.items c)))
         (cells s.1) →
  solve pop_order fuel s = (Ok tt, s') →
  length (cells s'.1) = length (cells s.1)
  ∧ ∀ i, i < length (cells s.1) →
      ∃ v, items_at s'.1 i = [v]
           ∧ solved_at s'.1 i = true
           ∧ SudokuMatrixCell.get_value (deref s'.1 i) = PItem v
           ∧ (length (items_at s.1 i) = 1 → items_at s.1 i = [v])
           ∧ (length (items_at s.1 i) ≠ 1 → v ∈ base_sequence s.1)
           ∧ ∀ j, peer s.1 i j → items_at s'.1 j ≠ [v].
Proof.
  intros Hwf Hnd Htrue Hcells E.
  rewrite Forall_forall in Htrue. rewrite Forall_lookup in Hcells.
  assert (Hopen : ∀ i, solved_at s.1 i = false).
  { intros i. unfold solved_at, deref. destruct (cells s.1 !! i) as [c|] eqn:Ei; [|reflexivity].
    apply (Hcells i c Ei). }
  assert (Hone : ∀ i v, items_at s.1 i = [v] → truthy v = true).
  { intros i v Hv. unfold items_at, deref in Hv.
    destruct (cells s.1 !! i) as [c|] eqn:Ei; [|discriminate].
    cbn in Hv. destruct (Hcells i c Ei) as [_ Hc]. rewrite Hv in Hc.
    specialize (Hc eq_refl). rewrite Forall_forall in Hc. apply Hc, list_elem_of_here. }
  (* [solve] returned normally, so [do_solve] did *)
  unfold solve, try_except in E.
  destruct (do_solve pop_order fuel s) as [[[]|e|] s''] eqn:Ed.
  2:{ destruct (is_Exception e); discriminate. }
  2:{ discriminate. }
  injection E as ->.
  unfold do_solve in Ed. rewrite bind_unfold in Ed. unfold modify in Ed.
  cbn [fst snd] in Ed.
  set (s0 := (s.1, with_step 1 s.2)) in *.
  destruct fuel as [|fuel]; [discriminate|].
  rewrite solving_loop_unfold in Ed.
  pose proof Hwf as (Hb & HN & Hc & Hlen & _).
  assert (Hpos : 0 < length (cells s.1)) by nia.
  destruct (do_finished s0) eqn:Efin.
  { exfalso. unfold do_finished in Efin. rewrite forallb_forall in Efin.
    specialize (Efin (deref s.1 0)). specialize (Hopen 0). unfold solved_at in Hopen.
    rewrite Efin in Hopen; [discriminate|].
    apply list_elem_of_In. eapply list_elem_of_lookup_2, deref_valid, Hpos. }
  rewrite bind_unfold, do_step_unfold in Ed. cbn [s0 snd with_step step] in Ed.
  change (s.1, mk_ext (cleanups s.2) 1) with s0 in Ed.
  destruct (decide (resettable s0.1)) as [Hres|Hno].
  2:{ exfalso. apply not_Forall_Exists in Hno; [|apply _].
      apply Exists_exists in Hno as (c & Hcc & Hbad). cbn in Hbad.
      apply list_elem_of_lookup in Hcc as [i Hi].
      assert (Hraise : (do_step_1 s0).1 = Raise SudokuMatrixError).
      { apply (do_step_1_fails s0 i).
        - eapply lookup_lt_Some, Hi.
        - unfold items_at. rewrite (deref_lookup _ _ _ Hi). intros Hl. apply Hbad.
          intros Hl'. contradiction.
        - rewrite (deref_lookup _ _ _ Hi). intros Hok. apply Hbad. intros _. exact Hok. }
      destruct (do_step_1 s0) as [r1 s1]. cbn in Hraise. subst r1. discriminate. }
  destruct (do_step_1_ok s0 Hres) as (X & E1 & _). rewrite E1 in Ed.
  set (m1 := with_cells (step_1_cell <$> cells s.1) s.1) in *.
  change (with_cells (step_1_cell <$> cells s0.1) s0.1) with m1 in Ed.
  destruct (step_1_consistent s.1 Hwf Hnd Htrue Hopen Hone) as [Hc1 Hd1]. fold m1 in Hc1, Hd1.
  assert (Hwf1 : wf m1) by (apply step_1_wf, Hwf).
  destruct (loop_keeps fuel (m1, mk_ext X (step s0.2 + 1)) s' Hwf1 Hc1 ltac:(cbn; lia) Ed)
    as (Hc' & Hfin & R'). cbn [fst snd] in R'.
  assert (Hlen' : length (cells s'.1) = length (cells s.1)).
  { rewrite (related_length _ _ _ R'). unfold m1; cbn. apply length_fmap. }
  split; [exact Hlen'|].
  intros i Hi.
  assert (Hs' : solved_at s'.1 i = true).
  { unfold do_finished in Hfin. rewrite forallb_forall in Hfin. apply Hfin.
    apply list_elem_of_In. eapply list_elem_of_lookup_2, deref_valid. rewrite Hlen'. exact Hi. }
  destruct Hc' as (A' & B' & C'). destruct (C' i Hs') as (v & Hv & Hp).
  exists v. split; [exact Hv|]. split; [exact Hs'|].
  assert (Hin1 : v ∈ items_at m1 i).
  { eapply elem_of_sublist; [|apply (evolves_items_at _ _ i R')].
    rewrite Hv. apply list_elem_of_here. }
  unfold items_at in Hin1. rewrite (Hd1 i Hi) in Hin1. unfold step_1_cell in Hin1.
  split; [|split; [|split]].
  - unfold SudokuMatrixCell.get_value. unfold items_at in Hv. rewrite Hv.
    rewrite (B' i v); [reflexivity|]. unfold items_at. rewrite Hv. apply list_elem_of_here.
  - intros Hl. unfold items_at in Hl. apply Nat.eqb_eq in Hl. rewrite Hl in Hin1.
    apply Nat.eqb_eq in Hl. unfold items_at.
    destruct (SudokuMatrixCell.items (deref s.1 i)) as [|u [|w l]]; try discriminate.
    apply list_elem_of_singleton in Hin1 as ->. reflexivity.
  - intros Hl. unfold items_at in Hl. apply Nat.eqb_neq in Hl. rewrite Hl in Hin1.
    cbn in Hin1. destruct (wf_lookup _ _ _ Hwf (deref_valid _ _ Hi)) as (_ & _ & Hbase).
    rewrite Hbase in Hin1. exact Hin1.
  - intros j Hj Hjv. apply (Hp j).
    + destruct R' as [F' _]. apply (peer_frame _ _ _ _ F'). exact Hj.
    + rewrite Hjv. apply list_elem_of_here.
Qed.

End Soundness.

Lemma solved_matrix_is_valid_witness :
  let s := Examples.three_rows4 in
  let s' := (SudokuMatrixSolver.solve Examples.pop_first (Grid.bound s) s).2 in
  length (SudokuMatrix.cells s'.1) = length (SudokuMatrix.cells s.1)
  ∧ ∀ i, i < length (SudokuMatrix.cells s.1) →
      ∃ v, Grid.items_at s'.1 i = [v]
           ∧ Grid.solved_at s'.1 i = true
           ∧ SudokuMatrixCell.get_value (SudokuMatrix.deref s'.1 i) = PItem v
           ∧ (length (Grid.items_at s.1 i) = 1 → Grid.items_at s.1 i = [v])
           ∧ (length (Grid.items_at s.1 i) ≠ 1 → v ∈ SudokuMatrix.base_sequence s.1)
           ∧ ∀ j, Grid.peer s.1 i j → Grid.items_at s'.1 j ≠ [v].
Proof.
  intros s s'.
  apply (solved_matrix_is_valid Examples.pop_first (Grid.bound s) s s').
  - by_compute.
  - by_compute.
  - by_compute.
  - by_compute.
  - vm_compute. reflexivity.
Defined.

(** ** The solver: step 2 in detail *)

Section Step2Exact.
Import SudokuMatrix SudokuMatrixSolver Grid.
Variable pop_order : gset nat → nat.

Lemma strip_hooks_solver value l m (q : ext) :
  step (strip_hooks value l m q) = step q
  ∧ ∀ i, i ∈ cleanups (strip_hooks value l m q)
         ↔ i ∈ cleanups q ∨ (i ∈ l ∧ strip_fired value m i = true).
Proof.
  unfold strip_hooks. revert q. induction l as [|j l IH]; intros q.
  - cbn. split; [reflexivity|]. intros i. split; [tauto|].
    intros [Hi|[Hi _]]; [exact Hi|]. apply elem_of_nil in Hi. destruct Hi.
  - cbn [foldl].
    set (q1 := if strip_fired value m j then on_unique_value j q else q).
    destruct (IH q1) as [Hstep Hcl].
    assert (Hq1 : step q1 = step q
                  ∧ ∀ i, i ∈ cleanups q1
                         ↔ i ∈ cleanups q ∨ (i = j ∧ strip_fired value m j = true)).
    { unfold q1. destruct (strip_fired value m j).
      - split; [reflexivity|]. intros i.
        unfold on_unique_value, solver_hook, register_for_cleanups.
        cbn [cleanups]. rewrite elem_of_union, elem_of_singleton. tauto.
      - split; [reflexivity|]. intros i. split; [tauto|].
        intros [?|[_ ?]]; [assumption|discriminate]. }
    destruct Hq1 as [Hs1 Hc1]. split; [rewrite Hstep; exact Hs1|].
    intros i. rewrite Hcl, Hc1, elem_of_cons. split.
    + intros [[?|[-> ?]]|[? ?]]; tauto.
    + intros [?|[[->|?] ?]]; tauto.
Qed.

(** A cell whose items [strip_value] changed and that is left with
    one item has called its hook. *)
Lemma strip_fired_changed value m j :
  SudokuMatrixCell.items (SudokuMatrixCell.strip_value value (deref m j)).2 ≠ items_at m j →
  length (SudokuMatrixCell.items (SudokuMatrixCell.strip_value value (deref m j)).2) = 1 →
  strip_fired value m j = true.
Proof.
  unfold strip_fired, items_at, SudokuMatrixCell.strip_value.
  destruct (SudokuMatrixCell.solved (deref m j)); cbn; [congruence|].
  destruct value as [v|]; cbn; [|congruence].
  destruct (list_remove_first v (SudokuMatrixCell.items (deref m j))); cbn; [|congruence].
  intros _ ->. reflexivity.
Qed.

(** A cell that called its hook was not locked and is left with one
    item. *)
Lemma strip_fired_single value m j :
  strip_fired value m j = true →
  solved_at m j = false
  ∧ length (SudokuMatrixCell.items (SudokuMatrixCell.strip_value value (deref m j)).2) = 1.
Proof.
  unfold strip_fired, solved_at, SudokuMatrixCell.strip_value.
  destruct (SudokuMatrixCell.solved (deref m j)); cbn; [discriminate|].
  destruct value as [v|]; cbn; [|discriminate].
  destruct (list_remove_first v (SudokuMatrixCell.items (deref m j))); cbn; [|discriminate].
  destruct (length l =? 1) eqn:E; [|discriminate]. apply Nat.eqb_eq in E. auto.
Qed.

Lemma deref_locked m i j :
  deref (locked i m) j
  = if decide (j = i ∧ i < length (cells m))
    then SudokuMatrixCell.with_solved true (deref m i) else deref m j.
Proof.
  unfold deref, locked; cbn. destruct (decide (j = i)) as [->|Hne].
  - rewrite list_lookup_alter_eq. destruct (cells m !! i) as [c|] eqn:E; cbn.
    + rewrite decide_True; [reflexivity|]. split; [reflexivity|].
      eapply lookup_lt_Some, E.
    + apply lookup_ge_None in E. rewrite decide_False by lia. reflexivity.
  - rewrite list_lookup_alter_ne by congruence. rewrite decide_False by tauto. reflexivity.
Qed.

(** The body of the loop of step 2, for a cell with one item. *)
Lemma lock_strip_exact (s1 : SudokuMatrixSolver.t) i :
  wf s1.1 → length (items_at s1.1 i) = 1 →
  (lock i ;;
   c ← query (λ s, Ok (deref s.1 i)) ;
   strip_value (SudokuMatrixCell.get_value c)
     (SudokuMatrixCell.row c) (SudokuMatrixCell.column c)) s1
  = (Ok tt, after_lock_strip i s1).
Proof.
  intros Hwf El.
  destruct (lock_spec s1 i El) as (s2 & E2 & H12 & Hq & Hv2 & Hs2 & Hi2).
  rewrite bind_unfold, E2. rewrite bind_unfold. unfold query at 1. cbn [fst snd].
  assert (Es2 : s2 = (locked i s1.1, s1.2)).
  { unfold lock, modify in E2. injection E2 as <-. reflexivity. }
  assert (Hwf2 : wf s2.1).
  { apply (wf_related s1.1); [exact Hwf | destruct H12 as [R _]; exact R]. }
  destruct (wf_location s2.1 i Hwf2 Hv2) as (Hr & Hk & Href).
  set (value := SudokuMatrixCell.get_value (deref s2.1 i)).
  set (r := SudokuMatrixCell.row (deref s2.1 i)) in *.
  set (c := SudokuMatrixCell.column (deref s2.1 i)) in *.
  assert (Erun := strip_value_run elements value r c s2.1 s2.2
                    (λ u, reflexivity _) Hwf2 Hr Hk).
  change (strip_value_in_order elements value r c (s2.1, s2.2))
    with (strip_value value r c (s2.1, s2.2)) in Erun.
  replace (s2.1, s2.2) with s2 in Erun by (destruct s2; reflexivity).
  rewrite Erun, Href.
  set (l := elements (unit_of s2.1 r c)) in *.
  set (m3 := strip_cells value l s2.1) in *.
  pose proof (deref_strip_cells value l s2.1) as Hd3. fold m3 in Hd3.
  assert (Hi3 : deref m3 i = deref s2.1 i).
  { rewrite Hd3. destruct (decide _); [|reflexivity].
    apply strip_keeps_attributes, Hs2. }
  assert (Hlt3 : i < length (cells m3)).
  { unfold m3, strip_cells; cbn. rewrite length_imap. exact Hv2. }
  unfold cell_call. cbn [fst snd].
  unfold SudokuMatrixCell.set_value. rewrite Hi3.
  unfold solved_at in Hs2. rewrite Hs2. cbn [fst snd].
  rewrite <- Hi3. rewrite list_insert_id by (apply deref_valid, Hlt3).
  rewrite with_cells_id.
  unfold after_lock_strip. subst s2. reflexivity.
Qed.

(** An invariant of the loop of step 2: it is enough that the two
    ways through the body of the loop keep it. *)
Lemma drain_invariant (P : SudokuMatrixSolver.t → Prop) (fuel : nat)
    (s s' : SudokuMatrixSolver.t) :
  (∀ s i, wf s.1 → P s → i ∈ cleanups s.2 → length (items_at s.1 i) ≠ 1 →
     P (s.1, mk_ext (cleanups s.2 ∖ {[i]}) (step s.2))) →
  (∀ s i, wf s.1 → P s → i ∈ cleanups s.2 → length (items_at s.1 i) = 1 →
     P (after_lock_strip i (s.1, mk_ext (cleanups s.2 ∖ {[i]}) (step s.2)))) →
  wf s.1 → P s →
  drain_cleanups pop_order fuel s = (Ok tt, s') → P s'.
Proof.
  intros Hskip Hlock. revert s. induction fuel as [|fuel IH]; intros s Hwf HP E;
    [discriminate|].
  cbn [drain_cleanups] in E. rewrite bind_unfold in E. unfold query at 1 in E.
  cbn [fst snd] in E.
  destruct (pop pop_order (cleanups s.2)) as [[i X']|] eqn:Ep.
  2:{ injection E as <-. exact HP. }
  apply pop_Some in Ep as (Hi & -> & _).
  rewrite bind_unfold in E. unfold modify at 1 in E. cbn [fst snd] in E.
  set (s1 := (s.1, mk_ext (cleanups s.2 ∖ {[i]}) (step s.2))) in *.
  rewrite bind_unfold in E. unfold query at 1 in E. cbn [fst snd] in E.
  rewrite bind_unfold in E.
  change (length (SudokuMatrixCell.items (deref s1.1 i)))
    with (length (items_at s.1 i)) in E.
  destruct (length (items_at s.1 i) =? 1) eqn:El.
  - apply Nat.eqb_eq in El.
    rewrite (lock_strip_exact s1 i Hwf El) in E.
    apply (IH (after_lock_strip i s1)); [| apply Hlock; assumption | exact E].
    destruct (items_at s.1 i) as [|v [|w l]] eqn:Ei; try discriminate.
    pose proof (lock_strip_exact s1 i Hwf ltac:(cbn; rewrite Ei; reflexivity)) as Ex.
    destruct (lock_spec s1 i ltac:(cbn; rewrite Ei; reflexivity))
      as (s2 & E2 & H12 & Hq & Hv2 & Hs2 & Hi2).
    rewrite bind_unfold, E2 in Ex. rewrite bind_unfold in Ex. unfold query at 1 in Ex.
    cbn [fst snd] in Ex.
    assert (Hwf2 : wf s2.1).
    { apply (wf_related s1.1); [exact Hwf | destruct H12 as [R _]; exact R]. }
    destruct (wf_location s2.1 i Hwf2 Hv2) as (Hr & Hk & Href).
    destruct (strip_value_locked s2 (SudokuMatrixCell.get_value (deref s2.1 i))
                (SudokuMatrixCell.row (deref s2.1 i))
                (SudokuMatrixCell.column (deref s2.1 i)) Hwf2 Hr Hk)
      as (s3 & E3 & H23).
    { rewrite Href. exact Hs2. }
    rewrite E3 in Ex. injection Ex as <-.
    apply (shrinks_wf_solver _ _ Hwf2 H23).
  - apply Nat.eqb_neq in El. apply (IH s1); [exact Hwf | apply Hskip; assumption | exact E].
Qed.


(** What is known of the state after the body of the loop has locked
    the cell [i], which holds one item, of a well-formed matrix. *)
Lemma after_lock_strip_spec (s : SudokuMatrixSolver.t) i :
  wf s.1 → length (items_at s.1 i) = 1 →
  let s3 := after_lock_strip i s in
  i < length (cells s.1)
  ∧ length (cells s3.1) = length (cells s.1)
  ∧ same_frame s.1 s3.1
  ∧ deref s3.1 i = SudokuMatrixCell.with_solved true (deref s.1 i)
  ∧ (∀ j, j ≠ i →
       deref s3.1 j = deref s.1 j
       ∨ (j < length (cells s.1) ∧ peer s.1 i j
          ∧ deref s3.1 j
            = (SudokuMatrixCell.strip_value
                 (SudokuMatrixCell.get_value (deref s.1 i)) (deref s.1 j)).2))
  ∧ step s3.2 = step s.2
  ∧ ∀ j, j ∈ cleanups s3.2
         ↔ j ∈ cleanups s.2
           ∨ (j ≠ i ∧ peer s.1 i j ∧ j < length (cells s.1)
              ∧ strip_fired (SudokuMatrixCell.get_value (deref s.1 i)) s.1 j = true).
Proof.
  intros Hwf El s3.
  assert (Hi : i < length (cells s.1)).
  { destruct (decide (i < length (cells s.1))) as [H|H]; [exact H|].
    unfold items_at, deref in El. rewrite lookup_ge_None_2 in El by lia. discriminate. }
  pose proof (deref_locked s.1 i) as Hd2.
  assert (Hd2i : deref (locked i s.1) i = SudokuMatrixCell.with_solved true (deref s.1 i)).
  { rewrite Hd2, decide_True by tauto. reflexivity. }
  assert (Hd2j : ∀ j, j ≠ i → deref (locked i s.1) j = deref s.1 j).
  { intros j Hj. rewrite Hd2, decide_False by tauto. reflexivity. }
  assert (Hval : SudokuMatrixCell.get_value (deref (locked i s.1) i)
                 = SudokuMatrixCell.get_value (deref s.1 i)).
  { rewrite Hd2i. reflexivity. }
  destruct (wf_lookup _ _ _ Hwf (deref_valid _ _ Hi)) as (Prow & Pcol & _).
  assert (Hlen2 : length (cells (locked i s.1)) = length (cells s.1)).
  { unfold locked; cbn. apply length_alter. }
  assert (F2 : same_frame s.1 (locked i s.1)) by (repeat split).
  assert (Hunit : unit_of (locked i s.1) (SudokuMatrixCell.row (deref (locked i s.1) i))
                    (SudokuMatrixCell.column (deref (locked i s.1) i))
                  = unit_of s.1 (i / columns s.1) (i `mod` columns s.1)).
  { rewrite (unit_of_frame _ _ _ _ F2), Hd2i. cbn. rewrite Prow, Pcol. reflexivity. }
  unfold s3, after_lock_strip. cbn [fst snd]. rewrite Hunit, Hval.
  set (value := SudokuMatrixCell.get_value (deref s.1 i)).
  set (l := elements (unit_of s.1 (i / columns s.1) (i `mod` columns s.1))).
  pose proof (deref_strip_cells value l (locked i s.1)) as Hd3.
  assert (Hpeer : ∀ j, j ≠ i → (j ∈ l ↔ peer s.1 i j)).
  { intros j Hj. unfold l, peer. rewrite elem_of_elements. tauto. }
  split; [exact Hi|]. split.
  { unfold strip_cells; cbn. rewrite length_imap. apply length_alter. }
  split; [repeat split|]. split.
  { rewrite Hd3. destruct (decide _); [|exact Hd2i].
    rewrite Hd2i. apply strip_keeps_attributes. reflexivity. }
  split.
  { intros j Hj. rewrite Hd3, Hlen2. destruct (decide _) as [[Hjl Hjn]|Hno].
    - right. split; [exact Hjn|]. split; [apply Hpeer; assumption|].
      rewrite (Hd2j j Hj). reflexivity.
    - left. apply Hd2j, Hj. }
  destruct (strip_hooks_solver value l (locked i s.1) s.2) as [Hst Hcl].
  split; [exact Hst|]. intros j. rewrite Hcl. split.
  - intros [Hj|[Hjl Hf]]; [left; exact Hj|].
    destruct (decide (j = i)) as [->|Hji].
    { apply strip_fired_single in Hf as [Hf _]. unfold solved_at in Hf.
      rewrite Hd2i in Hf. discriminate. }
    right. split; [exact Hji|]. split; [apply Hpeer; assumption|].
    unfold strip_fired in Hf |- *. rewrite (Hd2j j Hji) in Hf. split; [|exact Hf].
    destruct (decide (j < length (cells s.1))) as [H|H]; [exact H|].
    unfold deref in Hf. rewrite lookup_ge_None_2 in Hf by lia.
    unfold SudokuMatrixCell.strip_value in Hf. cbn in Hf.
    destruct value as [v|]; cbn in Hf; discriminate.
  - intros [Hj|(Hji & Hp & _ & Hf)]; [left; exact Hj|]. right.
    split; [apply Hpeer; assumption|].
    unfold strip_fired in Hf |- *. rewrite (Hd2j j Hji). exact Hf.
Qed.

(** The two properties the loop of step 2 keeps, on top of those of
    [drain_cleanups_spec]: the cells with one item that are not locked
    are registered, and a cell locked since the state [s0] holds one
    item. *)
Lemma drain_registers (s0 : SudokuMatrixSolver.t) (fuel : nat)
    (s s' : SudokuMatrixSolver.t) :
  wf s.1 →
  singles_registered s
  ∧ (∀ j, solved_at s.1 j = true →
          solved_at s0.1 j = true ∨ length (items_at s.1 j) = 1) →
  drain_cleanups pop_order fuel s = (Ok tt, s') →
  singles_registered s'
  ∧ (∀ j, solved_at s'.1 j = true →
          solved_at s0.1 j = true ∨ length (items_at s'.1 j) = 1).
Proof.
  intros Hwf HP E.
  apply (drain_invariant
           (λ s, singles_registered s
                 ∧ (∀ j, solved_at s.1 j = true →
                         solved_at s0.1 j = true ∨ length (items_at s.1 j) = 1))
           fuel s s'); [| |exact Hwf|exact HP|exact E].
  - clear. intros s i Hwf [HK HL] Hi El. split; [|exact HL].
    intros j Hj Hs Hl. cbn. apply elem_of_difference. split; [apply HK; assumption|].
    intros Hx. apply elem_of_singleton_1 in Hx. subst. cbn in Hl. contradiction.
  - clear. intros s i Hwf [HK HL] Hi El.
    set (s1 := (s.1, mk_ext (cleanups s.2 ∖ {[i]}) (step s.2))).
    destruct (after_lock_strip_spec s1 i Hwf El)
      as (Hin & Hlen & F & Hdi & Hdj & Hst & Hcl).
    cbn [s1 fst snd cleanups] in *. fold s1 in Hdi, Hdj, Hcl, Hlen |- *.
    split.
    + intros j Hj Hs Hl. rewrite Hlen in Hj.
      assert (Hji : j ≠ i).
      { intros ->. unfold solved_at in Hs. rewrite Hdi in Hs. discriminate. }
      apply Hcl. unfold solved_at, items_at in Hs, Hl.
      destruct (Hdj j Hji) as [Ej|(_ & Hp & Ej)]; rewrite Ej in Hs, Hl.
      * left. apply elem_of_difference. split; [apply HK; assumption|].
        intros Hx. apply elem_of_singleton_1 in Hx. subst. congruence.
      * destruct (decide (SudokuMatrixCell.items
                            (SudokuMatrixCell.strip_value
                               (SudokuMatrixCell.get_value (deref s.1 i)) (deref s.1 j)).2
                          = items_at s.1 j)) as [Esame|Ediff].
        -- left. apply elem_of_difference. split.
           ++ apply HK; [exact Hj| |rewrite <- Esame; exact Hl].
              unfold solved_at.
              destruct (strip_keeps_attributes (SudokuMatrixCell.get_value (deref s.1 i))
                          (deref s.1 j)) as (<- & _). exact Hs.
           ++ intros Hx. apply elem_of_singleton_1 in Hx. subst. congruence.
        -- right. split; [exact Hji|]. split; [exact Hp|]. split; [exact Hj|].
           apply strip_fired_changed; assumption.
    + intros j Hs. unfold solved_at, items_at in Hs |- *.
      destruct (decide (j = i)) as [->|Hji].
      * right. rewrite Hdi. exact El.
      * destruct (Hdj j Hji) as [Ej|(_ & _ & Ej)]; rewrite Ej in Hs |- *.
        -- apply HL, Hs.
        -- destruct (strip_keeps_attributes (SudokuMatrixCell.get_value (deref s.1 i))
                       (deref s.1 j)) as (Hsol & _ & _ & Hsame).
           rewrite Hsol in Hs. rewrite (Hsame Hs). apply HL, Hs.
Qed.

(** Step 2 carries the propagation to its end.  On a well-formed
    matrix, with enough iterations allowed, [do_step_2] returns
    normally with [cleanups] empty and the step counter one higher; it
    only removes items, leaves the locked cells as they were, and locks
    only cells that hold one item.  If every cell with one item that
    was not locked was registered, as after step 1, then no such cell
    is left: every cell with exactly one item is locked. *)
Theorem step_2_reaches_fixpoint (fuel : nat) (s : SudokuMatrixSolver.t) :
  wf s.1 → measure s < fuel →
  ∃ s',
    do_step_2 pop_order fuel s = (Ok tt, s')
    ∧ cleanups s'.2 = ∅
    ∧ step s'.2 = step s.2 + 1
    ∧ wf s'.1
    ∧ (∀ j, items_at s'.1 j `sublist_of` items_at s.1 j)
    ∧ (∀ j, solved_at s.1 j = true → deref s'.1 j = deref s.1 j)
    ∧ (∀ j, solved_at s'.1 j = true → solved_at s.1 j = false →
            length (items_at s'.1 j) = 1)
    ∧ (singles_registered s →
       ∀ j, j < length (cells s'.1) → length (items_at s'.1 j) = 1 →
            solved_at s'.1 j = true).
Proof.
  intros Hwf Hm.
  destruct (drain_cleanups_spec pop_order fuel s Hwf Hm) as (s1 & E & He & Hev & Hst).
  destruct Hev as [R _].
  exists (s1.1, with_step (step s1.2 + 1) s1.2).
  split; [unfold do_step_2; rewrite bind_unfold, E; reflexivity|].
  cbn [fst snd with_step cleanups step].
  split; [exact He|]. split; [rewrite Hst; reflexivity|].
  split; [apply (wf_related _ _ Hwf R)|].
  split; [intros j; apply evolves_items_at, R|].
  split; [intros j Hj; apply (evolves_locked _ _ _ R Hj)|].
  split.
  - intros j Hs' Hs.
    assert (HL : ∀ j, solved_at s.1 j = true →
                      solved_at s.1 j = true ∨ length (items_at s.1 j) = 1) by auto.
    pose proof (drain_invariant
                  (λ s2, ∀ j, solved_at s2.1 j = true →
                              solved_at s.1 j = true ∨ length (items_at s2.1 j) = 1)
                  fuel s s1) as Hinv.
    destruct (Hinv) with (j := j) as [Hc|Hc]; try assumption; [| |congruence].
    + clear. intros s2 i _ HL _ _. exact HL.
    + clear. intros s2 i Hwf HL Hi El j Hs.
      set (s3 := (s2.1, mk_ext (cleanups s2.2 ∖ {[i]}) (step s2.2))).
      destruct (after_lock_strip_spec s3 i Hwf El) as (_ & _ & _ & Hdi & Hdj & _).
      fold s3 in Hs, Hdi, Hdj |- *. unfold solved_at, items_at in Hs |- *.
      destruct (decide (j = i)) as [->|Hji].
      * right. rewrite Hdi. exact El.
      * destruct (Hdj j Hji) as [Ej|(_ & _ & Ej)]; rewrite Ej in Hs |- *.
        -- apply HL, Hs.
        -- destruct (strip_keeps_attributes (SudokuMatrixCell.get_value (deref s3.1 i))
                       (deref s3.1 j)) as (Hsol & _ & _ & Hsame).
           rewrite Hsol in Hs. rewrite (Hsame Hs). apply HL, Hs.
  - intros HK j Hj Hl.
    destruct (drain_registers s fuel s s1 Hwf) as [HK1 _]; [|exact E|].
    { split; [exact HK|]. auto. }
    destruct (solved_at s1.1 j) eqn:Hs; [reflexivity|].
    specialize (HK1 j Hj Hs Hl). rewrite He in HK1. set_solver.
Qed.

End Step2Exact.

Lemma step_2_reaches_fixpoint_witness :
  let s := Examples.stepped4 in
  ∃ s',
    SudokuMatrixSolver.do_step_2 Examples.pop_first (S (Grid.measure s)) s = (Ok tt, s')
    ∧ SudokuMatrixSolver.cleanups s'.2 = ∅
    ∧ SudokuMatrixSolver.step s'.2 = SudokuMatrixSolver.step s.2 + 1
    ∧ Grid.wf s'.1
    ∧ (∀ j, Grid.items_at s'.1 j `sublist_of` Grid.items_at s.1 j)
    ∧ (∀ j, Grid.solved_at s.1 j = true → SudokuMatrix.deref s'.1 j = SudokuMatrix.deref s.1 j)
    ∧ (∀ j, Grid.solved_at s'.1 j = true → Grid.solved_at s.1 j = false →
            length (Grid.items_at s'.1 j) = 1)
    ∧ (Grid.singles_registered s →
       ∀ j, j < length (SudokuMatrix.cells s'.1) → length (Grid.items_at s'.1 j) = 1 →
            Grid.solved_at s'.1 j = true).
Proof.
  intros s.
  apply (step_2_reaches_fixpoint Examples.pop_first (S (Grid.measure s)) s).
  - by_compute.
  - lia.
Defined.

(** ** The solver: step 3 when there is nothing to simplify *)

Section Step3Idle.
Import SudokuMatrix SudokuMatrixSolver Grid.

Lemma simplify_cells_idle (l : list nat) (s : SudokuMatrixSolver.t) :
  wf s.1 →
  (∀ k, k ∈ l → k < length (cells s.1) ∧ (len s.1 k < 2 ∨ box_size s.1 < len s.1 k)) →
  simplify_cells l s = (Ok tt, s).
Proof.
  intros Hwf. induction l as [|k l IH]; intros Hall; [reflexivity|].
  rewrite simplify_cells_unfold.
  destruct (Hall k (list_elem_of_here _ _)) as [Hk Hlen].
  assert (IH' : simplify_cells l s = (Ok tt, s)).
  { apply IH. intros k' Hk'. apply Hall, list_elem_of_further, Hk'. }
  destruct (len s.1 k =? 1) eqn:E1; [exact IH'|].
  apply Nat.eqb_neq in E1.
  destruct (len s.1 k <=? box_size s.1) eqn:E2; [|reflexivity].
  apply Nat.leb_le in E2.
  assert (He : items_at s.1 k = []).
  { unfold len in *. unfold items_at.
    destruct (SudokuMatrixCell.items (deref s.1 k)); [reflexivity|cbn in *; lia]. }
  rewrite bind_unfold, (simplify_cell_empty s k Hwf Hk He). exact IH'.
Qed.

(** [do_step_3] changes no cell when no cell holds between two and
    [box_size] items: the loop over the sorted cells passes over the
    cells with at most one item and stops at the first of the others.
    Only the step counter, which is at least 1, moves: back by one
    when [cleanups] is not empty and on by one when it is, from 3 to
    2 or to 4 in a run of [do_solve]. *)
Theorem step_3_idle (s : SudokuMatrixSolver.t) :
  wf s.1 →
  1 ≤ step s.2 →
  (∀ k, k < length (cells s.1) → len s.1 k < 2 ∨ box_size s.1 < len s.1 k) →
  ∃ n, do_step_3 s = (Ok tt, (s.1, with_step n s.2))
       ∧ (cleanups s.2 ≠ ∅ → n + 1 = step s.2)
       ∧ (cleanups s.2 = ∅ → n = step s.2 + 1).
Proof.
  intros Hwf Hstep Hall.
  exists (if decide (cleanups s.2 ≠ ∅) then step s.2 - 1 else step s.2 + 1).
  split; [|destruct (decide (cleanups s.2 ≠ ∅)); split; intros; (contradiction || lia)].
  unfold do_step_3. rewrite bind_unfold. unfold query at 1.
  cbn [fst snd]. rewrite bind_unfold.
  rewrite simplify_cells_idle.
  - rewrite bind_unfold. unfold query at 1. cbn [fst snd].
    destruct (decide (cleanups s.2 ≠ ∅)); reflexivity.
  - exact Hwf.
  - intros k Hk. apply elem_of_sorted_by_key, elem_of_seq in Hk.
    split; [lia|]. apply Hall. lia.
Qed.

End Step3Idle.

Lemma step_3_idle_witness :
  SudokuMatrixSolver.step Examples.idle4.2 = 3
  ∧ ∃ n, SudokuMatrixSolver.do_step_3 Examples.idle4
         = (Ok tt, (Examples.idle4.1, SudokuMatrixSolver.with_step n Examples.idle4.2))
         ∧ (SudokuMatrixSolver.cleanups Examples.idle4.2 ≠ ∅
            → n + 1 = SudokuMatrixSolver.step Examples.idle4.2)
         ∧ (SudokuMatrixSolver.cleanups Examples.idle4.2 = ∅
            → n = SudokuMatrixSolver.step Examples.idle4.2 + 1).
Proof.
  split; [reflexivity|].
  apply (step_3_idle Examples.idle4).
  - by_compute.
  - vm_compute. lia.
  - intros k Hk. right.
    change (length (SudokuMatrix.cells Examples.idle4.1)) with 16 in Hk.
    do 16 (destruct k as [|k]; [vm_compute; lia|]). lia.
Defined.

(** ** [generate] *)

Section Generate.
Import SudokuMatrix SudokuMatrixSolver Grid.
Variable pop_order : gset nat → nat.

Lemma list_pop_snoc {A} (l : list A) x : list_pop (l ++ [x]) = Some (x, l).
Proof.
  unfold list_pop. rewrite last_snoc, length_app. cbn.
  replace (length l + 1 - 1) with (length l) by lia.
  rewrite take_app_length. reflexivity.
Qed.

(** The loop of [generate] gives the cells the items of the sequence
    from the last one on. *)
Lemma assign_popped_zip (cs : list nat) (seq : list item) (s : SudokuMatrixSolver.t) :
  length cs ≤ length seq →
  assign_popped cs seq s
  = for_each (zip cs (reverse seq))
      (λ p, cell_call p.1 (SudokuMatrixCell.set_value (PItem p.2))) s.
Proof.
  revert seq s. induction cs as [|c cs IH]; intros seq s Hlen; [reflexivity|].
  destruct seq as [|x seq _] using rev_ind; [cbn in Hlen; lia|].
  cbn [assign_popped]. rewrite list_pop_snoc, reverse_snoc. cbn [zip_with for_each].
  rewrite !bind_unfold. cbn [fst snd].
  destruct (cell_call c (SudokuMatrixCell.set_value (PItem x)) s) as [[[]|e|] s1];
    try reflexivity.
  apply IH. rewrite length_app in Hlen. cbn in Hlen. lia.
Qed.

Lemma filter_length_le (P Q : nat → Prop) `{∀ x, Decision (P x)} `{∀ x, Decision (Q x)}
    (l : list nat) :
  (∀ x, x ∈ l → P x → Q x) → length (filter P l) ≤ length (filter Q l).
Proof.
  intros HPQ. induction l as [|x l IH]; [reflexivity|].
  assert (IH' : length (filter P l) ≤ length (filter Q l)).
  { apply IH. intros y Hy. apply HPQ, list_elem_of_further, Hy. }
  rewrite !filter_cons. destruct (decide (P x)) as [HP|HP].
  - rewrite decide_True by (apply HPQ; [apply list_elem_of_here|exact HP]). cbn. lia.
  - destruct (decide (Q x)); cbn; lia.
Qed.

Lemma filter_ext_in (P Q : nat → Prop) `{∀ x, Decision (P x)} `{∀ x, Decision (Q x)}
    (l : list nat) :
  (∀ x, x ∈ l → (P x ↔ Q x)) → filter P l = filter Q l.
Proof.
  intros Hiff. induction l as [|x l IH]; [reflexivity|].
  rewrite !filter_cons.
  assert (IH' : filter P l = filter Q l).
  { apply IH. intros y Hy. apply Hiff, list_elem_of_further, Hy. }
  destruct (decide (P x)) as [HP|HP].
  - rewrite decide_True by (apply Hiff; [apply list_elem_of_here|exact HP]).
    rewrite IH'. reflexivity.
  - rewrite decide_False; [exact IH'|].
    intros HQ. apply HP, Hiff; [apply list_elem_of_here|exact HQ].
Qed.

Lemma filter_length_one_more (P P' : nat → Prop) `{∀ x, Decision (P x)}
    `{∀ x, Decision (P' x)} (l : list nat) i :
  NoDup l → i ∈ l → ¬ P i → (∀ x, P' x ↔ P x ∨ x = i) →
  length (filter P' l) = S (length (filter P l)).
Proof.
  intros Hnd Hi Hni Hiff. induction l as [|x l IH]; [apply elem_of_nil in Hi; destruct Hi|].
  apply NoDup_cons in Hnd as [Hx Hnd]. rewrite !filter_cons.
  apply elem_of_cons in Hi as [<-|Hi].
  - rewrite decide_True by (apply Hiff; right; reflexivity).
    rewrite decide_False by exact Hni. cbn. f_equal. f_equal.
    apply filter_ext_in. intros y Hy. rewrite Hiff. split; [|tauto].
    intros [Hy'|Hy']; [exact Hy'|]. subst y. contradiction.
  - assert (Hxi : x ≠ i) by (intros ->; contradiction).
    specialize (IH Hnd Hi).
    destruct (decide (P x)) as [HP|HP].
    + rewrite decide_True by (apply Hiff; left; exact HP). cbn. rewrite IH. reflexivity.
    + rewrite decide_False; [exact IH|]. rewrite Hiff. tauto.
Qed.


(** A cell below the first row has at most [box_size] cells of the
    first row in its column and box. *)
Lemma locked_above_le m j :
  wf m → rows m ≤ j → j < length (cells m) → locked_above m j ≤ box_size m.
Proof.
  intros Hwf Hj Hjn. pose proof Hwf as (Hb & HN & Hc & Hlen & _).
  set (b := box_size m) in *. set (c := j `mod` columns m).
  unfold locked_above.
  etransitivity.
  { apply (filter_length_le _ (λ i, i / b = c / b)). intros x Hx [_ Hp].
    apply elem_of_seq in Hx.
    apply (peer_spec m j x Hwf Hjn) in Hp as (_ & _ & Hu).
    assert (Hx0 : x / columns m = 0) by (apply Nat.div_small; lia).
    assert (Hxm : x `mod` columns m = x) by (apply Nat.mod_small; lia).
    assert (Hj1 : 1 ≤ j / columns m).
    { apply Nat.div_le_lower_bound; lia. }
    rewrite Hx0, Hxm in Hu. fold b in Hu. fold c in Hu.
    destruct Hu as [Hu|[Hu|[_ Hu]]]; [lia|rewrite Hu; reflexivity|exact Hu]. }
  transitivity (length (seq (b * (c / b)) b)); [|rewrite length_seq; reflexivity].
  apply submseteq_length, NoDup_submseteq.
  - apply NoDup_filter, NoDup_seq.
  - intros x Hx. apply list_elem_of_filter in Hx as [Hx _].
    apply elem_of_seq. pose proof (Nat.div_mod_eq x b) as Hdm.
    pose proof (Nat.mod_upper_bound x b ltac:(lia)) as Hub. rewrite Hx in Hdm. lia.
Qed.

Lemma strip_fired_two value m x :
  strip_fired value m x = true → length (items_at m x) = 2.
Proof.
  unfold strip_fired, items_at.
  destruct (strip_value_spec value (deref m x)) as (b & l' & E & _ & _ & _ & Hb & _).
  rewrite E. cbn. destruct b; [|discriminate]. intros _. apply Hb. reflexivity.
Qed.

Lemma strip_length value c :
  length (SudokuMatrixCell.items c)
  ≤ S (length (SudokuMatrixCell.items (SudokuMatrixCell.strip_value value c).2)).
Proof.
  destruct (strip_value_spec value c) as (b & l' & E & _ & _ & _ & _ & Hl & _).
  rewrite E. cbn. destruct Hl as [[-> _]|[-> _]]; lia.
Qed.

Lemma generating_skip (s : SudokuMatrixSolver.t) i :
  generating s → generating (s.1, mk_ext (cleanups s.2 ∖ {[i]}) (step s.2)).
Proof.
  intros (Hb & HA & HB & HC). split; [exact Hb|]. split; [|split; assumption].
  intros x Hx. cbn in Hx. apply elem_of_difference in Hx as [Hx _]. apply HA, Hx.
Qed.

Lemma generating_lock (s : SudokuMatrixSolver.t) i :
  wf s.1 → generating s → i ∈ cleanups s.2 → length (items_at s.1 i) = 1 →
  generating (after_lock_strip i (s.1, mk_ext (cleanups s.2 ∖ {[i]}) (step s.2))).
Proof.
  intros Hwf (Hb & HA & HB & HC) Hi El.
  set (s1 := (s.1, mk_ext (cleanups s.2 ∖ {[i]}) (step s.2))).
  destruct (after_lock_strip_spec s1 i Hwf El) as (Hin & Hlen & F & Hdi & Hdj & _ & Hcl).
  cbn [s1 fst snd cleanups] in Hin, Hlen, F, Hdi, Hdj, Hcl.
  fold s1 in Hlen, F, Hdi, Hdj, Hcl.
  set (s3 := after_lock_strip i s1) in *.
  set (value := SudokuMatrixCell.get_value (deref s.1 i)) in *.
  destruct (HA i Hi) as [HiN His].
  pose proof F as (F1 & F2 & F3 & F4).
  pose proof Hwf as (Hb0 & HN & Hcc & Hn & _).
  assert (Hsol3 : ∀ x, solved_at s3.1 x = if decide (x = i) then true else solved_at s.1 x).
  { intros x. unfold solved_at. destruct (decide (x = i)) as [->|Hx].
    - rewrite Hdi. reflexivity.
    - destruct (Hdj x Hx) as [->|(_ & _ & ->)]; [reflexivity|].
      apply strip_keeps_attributes. }
  assert (Hlen3 : ∀ x, length (items_at s3.1 x) ≤ length (items_at s.1 x)
                       ∧ length (items_at s.1 x) ≤ S (length (items_at s3.1 x))).
  { intros x. unfold items_at. destruct (decide (x = i)) as [->|Hx].
    - rewrite Hdi. cbn. lia.
    - destruct (Hdj x Hx) as [->|(_ & _ & ->)]; [lia|].
      split; [|apply strip_length].
      apply sublist_length, strip_keeps_attributes. }
  assert (Hsame3 : ∀ x, x ≠ i → ¬ peer s.1 i x → items_at s3.1 x = items_at s.1 x).
  { intros x Hx Hnp. unfold items_at.
    destruct (Hdj x Hx) as [->|(_ & Hp & _)]; [reflexivity|contradiction]. }
  split; [rewrite F4; exact Hb|]. split; [|split].
  - intros x Hx. rewrite F1, Hsol3. apply Hcl in Hx as [Hx|(Hxi & Hp & Hxn & Hf)].
    + apply elem_of_difference in Hx as [Hx Hxi].
      rewrite decide_False by (intros ->; apply Hxi, elem_of_singleton; reflexivity).
      apply HA, Hx.
    + exfalso. apply strip_fired_two in Hf.
      destruct (decide (x < rows s.1)) as [Hlt|Hge].
      * specialize (HB x Hlt). lia.
      * destruct (HC x ltac:(lia) Hxn) as [_ Hcount].
        pose proof (locked_above_le s.1 x Hwf ltac:(lia) Hxn). nia.
  - intros x Hx. rewrite F1 in Hx. specialize (HB x Hx). destruct (Hlen3 x). lia.
  - intros j Hj Hjn. rewrite F1 in Hj. rewrite Hlen in Hjn.
    destruct (HC j Hj Hjn) as [Hsj Hcount].
    assert (Hji : j ≠ i) by lia.
    rewrite Hsol3, decide_False by exact Hji. split; [exact Hsj|]. rewrite F1.
    unfold locked_above. rewrite F1.
    destruct (decide (peer s.1 j i)) as [Hp|Hnp].
    + rewrite (filter_length_one_more
                 (λ x, solved_at s.1 x = true ∧ peer s.1 j x)
                 (λ x, solved_at s3.1 x = true ∧ peer s3.1 j x) _ i).
      * fold (locked_above s.1 j). destruct (Hlen3 j). lia.
      * apply NoDup_seq.
      * apply elem_of_seq. lia.
      * intros [Hs _]. congruence.
      * intros x. rewrite Hsol3, (peer_frame _ _ _ _ F).
        destruct (decide (x = i)) as [->|Hx]; [tauto|]. tauto.
    + rewrite (filter_ext_in
                 (λ x, solved_at s3.1 x = true ∧ peer s3.1 j x)
                 (λ x, solved_at s.1 x = true ∧ peer s.1 j x)).
      * fold (locked_above s.1 j). rewrite Hsame3; [exact Hcount|exact Hji|].
        intros Hp. apply Hnp. apply (peer_sym s.1 i j Hwf Hin Hp).
      * intros x _. rewrite Hsol3, (peer_frame _ _ _ _ F).
        destruct (decide (x = i)) as [->|Hx]; [|tauto].
        split; [tauto|]. intros [Hs _]. congruence.
Qed.


Lemma not_finished (s : SudokuMatrixSolver.t) j :
  j < length (cells s.1) → solved_at s.1 j = false → do_finished s = false.
Proof.
  intros Hj Hs. unfold do_finished.
  destruct (forallb SudokuMatrixCell.solved (cells s.1)) eqn:E; [|reflexivity].
  rewrite forallb_forall in E. unfold solved_at in Hs. rewrite E in Hs; [discriminate|].
  apply list_elem_of_In. eapply list_elem_of_lookup_2, deref_valid, Hj.
Qed.

(** [solve] on a matrix of box size 3 or more whose first row holds
    one item in each cell, the other cells holding the whole base
    sequence: steps 1 and 2 run, step 3 finds nothing to simplify, and
    the loop asks for the step 4 that does not exist. *)
Lemma solve_first_row (fuel : nat) (s : SudokuMatrixSolver.t) :
  wf s.1 → 3 ≤ box_size s.1 → length (base_sequence s.1) = rows s.1 →
  (∀ i, i ∈ cleanups s.2 → i < rows s.1) →
  (∀ k, k < length (cells s.1) →
        solved_at s.1 k = false
        ∧ SudokuMatrixCell.answer (deref s.1 k) = INone
        ∧ (k < rows s.1 → length (items_at s.1 k) = 1)
        ∧ (rows s.1 ≤ k → items_at s.1 k = base_sequence s.1)) →
  generate_bound s.1 ≤ fuel →
  (solve pop_order fuel s).1 = Raise SystemExit.
Proof.
  intros Hwf Hb Hbase Hcl Hcells Hfuel.
  pose proof Hwf as (Hb0 & HN & Hcc & Hn & _).
  set (N := rows s.1) in *. set (b := box_size s.1) in *.
  set (n := length (cells s.1)) in *.
  assert (HN9 : 9 ≤ N) by nia.
  assert (HNn : N < n) by nia.
  unfold generate_bound in Hfuel. cbv zeta in Hfuel. fold N in Hfuel.
  rewrite <- Hn, Hbase in Hfuel.
  unfold solve, try_except, do_solve. rewrite bind_unfold. unfold modify. cbn [fst snd].
  set (s0 := (s.1, with_step 1 s.2)).
  (* step 1 *)
  destruct fuel as [|f1]; [lia|]. rewrite solving_loop_unfold.
  rewrite (not_finished s0 N); [|exact HNn|apply Hcells; exact HNn].
  rewrite bind_unfold, do_step_unfold. cbn [s0 snd with_step step].
  change (s.1, mk_ext (cleanups s.2) 1) with s0.
  assert (Hres : resettable s0.1).
  { apply Forall_lookup. intros k c Hk _. left.
    destruct (Hcells k (lookup_lt_Some _ _ _ Hk)) as (_ & Ha & _).
    cbn in Hk. rewrite (deref_lookup _ _ _ Hk) in Ha. exact Ha. }
  destruct (do_step_1_ok s0 Hres) as (X & E1 & HX). rewrite E1.
  cbn [s0 fst snd with_step step cleanups] in HX |- *.
  set (m1 := with_cells (step_1_cell <$> cells s.1) s.1) in *.
  set (s1 := (m1, mk_ext X (1 + 1))).
  assert (Hwf1 : wf m1) by (apply step_1_wf, Hwf).
  assert (Hd1 : ∀ k, k < n → deref m1 k = step_1_cell (deref s.1 k)).
  { intros k Hk. unfold deref at 1, m1; cbn. rewrite list_lookup_fmap.
    rewrite (deref_valid _ _ Hk). reflexivity. }
  assert (Hn1 : length (cells m1) = n) by (unfold m1; cbn; apply length_fmap).
  assert (Hrow : ∀ k, k < N → solved_at m1 k = false ∧ length (items_at m1 k) = 1).
  { intros k Hk. destruct (Hcells k ltac:(lia)) as (Hs & _ & Hl & _).
    unfold solved_at, items_at. rewrite Hd1 by lia. unfold step_1_cell.
    specialize (Hl Hk). unfold items_at in Hl. rewrite Hl. cbn. split; assumption. }
  assert (Hrest : ∀ k, N ≤ k → k < n → solved_at m1 k = false ∧ length (items_at m1 k) = N).
  { intros k Hk Hkn. destruct (Hcells k Hkn) as (Hs & _ & _ & Hl).
    specialize (Hl Hk). unfold solved_at, items_at in *. rewrite Hd1 by lia.
    unfold step_1_cell. rewrite Hl, Hbase.
    assert (E : (N =? 1) = false) by (apply Nat.eqb_neq; lia). rewrite E. cbn.
    destruct (wf_lookup _ _ _ Hwf (deref_valid _ _ Hkn)) as (_ & _ & ->).
    split; [reflexivity|exact Hbase]. }
  assert (HXN : ∀ i, i ∈ X → i < N).
  { intros i Hi. apply HX in Hi as [Hi|(Hi & Hl & _)]; [apply Hcl, Hi|].
    destruct (decide (i < N)) as [H|H]; [exact H|].
    destruct (Hcells i Hi) as (_ & _ & _ & Hit). rewrite Hit, Hbase in Hl by lia. lia. }
  assert (Hgen1 : generating s1).
  { split; [exact Hb|]. split; [|split].
    - intros i Hi. cbn [s1 fst snd cleanups] in Hi |- *. change (rows m1) with N.
      split; [apply HXN, Hi|]. apply Hrow, HXN, Hi.
    - intros i Hi. cbn [s1 fst snd] in Hi |- *. change (rows m1) with N in Hi.
      destruct (Hrow i Hi) as [_ ->]. lia.
    - intros j Hj Hjn. cbn [s1 fst snd] in Hj, Hjn |- *. change (rows m1) with N in Hj |- *.
      rewrite Hn1 in Hjn.
      destruct (Hrest j Hj Hjn) as [Hs Hl]. split; [exact Hs|].
      rewrite Hl. lia. }
  (* step 2 *)
  destruct f1 as [|f2]; [lia|]. rewrite solving_loop_unfold.
  rewrite (not_finished s1 N);
    [|cbn [s1 fst]; rewrite Hn1; exact HNn|cbn [s1 fst]; apply Hrest; lia].
  rewrite bind_unfold, do_step_unfold. cbn [s1 snd step]. change (1 + 1) with 2.
  cbv beta iota. fold s1.
  assert (Hsize : size X ≤ N).
  { transitivity (size (list_to_set (C:=gset nat) (seq 0 N))).
    - apply subseteq_size. intros i Hi. apply elem_of_list_to_set, elem_of_seq.
      specialize (HXN i Hi). lia.
    - rewrite size_list_to_set by apply NoDup_seq. rewrite length_seq. reflexivity. }
  pose proof (step_1_total s.1 Hwf) as Htot. fold m1 n in Htot. rewrite Hbase in Htot.
  replace (max 1 N) with N in Htot by lia.
  assert (Hm1 : measure s1 < f2).
  { unfold measure. cbn [s1 fst snd cleanups]. lia. }
  destruct (drain_cleanups_spec pop_order f2 s1 Hwf1 Hm1) as (s2 & E2 & He2 & Hev2 & Hst2).
  unfold do_step_2. rewrite bind_unfold, E2. unfold modify at 1. cbn [fst snd].
  assert (Hgen2 : generating s2).
  { apply (drain_invariant pop_order generating f2 s1 s2); try assumption.
    - intros s' i _ Hg _ _. apply generating_skip, Hg.
    - intros s' i Hw Hg Hi El. apply generating_lock; assumption. }
  destruct Hev2 as [R2 _]. pose proof R2 as [(G1 & G2 & G3 & G4) _].
  cbn [s1 fst] in G1, G2, G3, G4.
  assert (Hwf2 : wf s2.1) by (apply (wf_related _ _ Hwf1 R2)).
  assert (Hn2 : length (cells s2.1) = n).
  { rewrite (related_length _ _ _ R2). exact Hn1. }
  destruct Hgen2 as (_ & _ & HB2 & HC2). rewrite G1 in HB2, HC2.
  change (rows m1) with N in HB2, HC2. rewrite Hn2 in HC2.
  set (s2' := (s2.1, with_step (step s2.2 + 1) s2.2)).
  (* step 3 *)
  destruct f2 as [|f3]; [lia|]. rewrite solving_loop_unfold.
  rewrite (not_finished s2' N);
    [|cbn [s2' fst]; rewrite Hn2; exact HNn|cbn [s2' fst]; apply HC2; lia].
  rewrite bind_unfold, do_step_unfold. cbn [s2' snd with_step step].
  rewrite Hst2. cbn [s1 snd step]. change (1 + 1 + 1) with 3. cbv beta iota.
  unfold do_step_3. rewrite bind_unfold. unfold query at 1. cbn [fst snd].
  rewrite bind_unfold. rewrite simplify_cells_idle.
  2:{ exact Hwf2. }
  2:{ intros k Hk. apply elem_of_sorted_by_key, elem_of_seq in Hk.
      cbn [s2' fst] in Hk |- *.
      rewrite Hn2 in Hk. rewrite Hn2. split; [lia|].
      unfold len. fold (items_at s2.1 k). rewrite G4. change (box_size m1) with b.
      destruct (decide (k < N)) as [Hlt|Hge].
      - left. specialize (HB2 k Hlt). lia.
      - right. destruct (HC2 k ltac:(lia) ltac:(lia)) as [_ Hcount].
        pose proof (locked_above_le s2.1 k Hwf2) as Hle.
        rewrite G1, G4, Hn2 in Hle. change (rows m1) with N in Hle.
        change (box_size m1) with b in Hle.
        specialize (Hle ltac:(lia) ltac:(lia)). nia. }
  rewrite bind_unfold. unfold query at 1. cbn [fst snd cleanups with_step].
  rewrite decide_False by (intros Hne; apply Hne, He2).
  unfold modify. cbn [fst snd with_step step cleanups].
  (* step 4 *)
  destruct f3 as [|f4]; [lia|]. rewrite solving_loop_unfold.
  match goal with |- context [do_finished ?s3] =>
    rewrite (not_finished s3 N);
      [|cbn [s2' fst]; rewrite Hn2; exact HNn|cbn [s2' fst]; apply HC2; lia]
  end.
  rewrite bind_unfold, do_step_unfold. cbn [s2' fst snd with_step step].
  rewrite Hst2. cbn [s1 snd step]. reflexivity.
Qed.


(** The matrix [reset_contents] leaves. *)
Lemma fresh_wf m :
  wf m →
  let m0 := with_cells (fresh_cell (base_sequence m) <$> locations (rows m) (columns m)) m in
  wf m0
  ∧ ∀ k, k < length (cells m0) →
         solved_at m0 k = false
         ∧ SudokuMatrixCell.answer (deref m0 k) = INone
         ∧ items_at m0 k = base_sequence m.
Proof.
  intros (Hb & HN & Hc & Hlen & _) m0.
  assert (Hl0 : length (cells m0) = rows m * columns m).
  { unfold m0; cbn. rewrite length_fmap, length_locations. reflexivity. }
  split.
  - split; [exact Hb|]. split; [exact HN|]. split; [exact Hc|]. split; [exact Hl0|].
    apply Forall_lookup. intros i [j c] H.
    rewrite list_lookup_imap in H. unfold m0 in H. cbn in H.
    rewrite list_lookup_fmap in H.
    destruct (locations (rows m) (columns m) !! i) as [p|] eqn:E; [|discriminate].
    injection H as <- <-. apply locations_lookup_from in E as [-> _].
    unfold cell_placed; cbn. auto.
  - intros k Hk. unfold solved_at, items_at, deref, m0. cbn.
    rewrite list_lookup_fmap.
    destruct (locations (rows m) (columns m) !! k) as [p|] eqn:E; cbn; [auto|].
    apply lookup_ge_None in E. rewrite length_locations in E. lia.
Qed.

(** [generate] never returns.  On a well-formed matrix of box size 3
    or more (the 9 x 9 matrix of the constructor without arguments is
    one) whose base sequence has as many items as the matrix has rows
    and whose [cleanups] is empty, whatever permutation
    [random.shuffle] makes and whichever elements [set.pop] picks:
    after the first row is filled, steps 1 and 2 leave every cell
    below it unlocked with more than [box_size] items, step 3 finds
    nothing to simplify, the loop asks for [do_step_4], which does not
    exist, and [solve] ends in [exit(1)]. *)
Theorem generate_never_returns (shuffle : list item → list item) (fuel : nat)
    (s : SudokuMatrixSolver.t) :
  wf s.1 → 3 ≤ box_size s.1 → length (base_sequence s.1) = rows s.1 →
  cleanups s.2 = ∅ → (∀ l, shuffle l ≡ₚ l) →
  generate_bound s.1 ≤ fuel →
  (generate pop_order shuffle fuel s).1 = Raise SystemExit.
Proof.
  intros Hwf Hb Hbase Hcl Hperm Hfuel.
  pose proof Hwf as (Hb0 & HN & Hcc & Hn & _).
  assert (Hne : base_sequence s.1 ≠ []).
  { intros E. rewrite E in Hbase. cbn in Hbase. nia. }
  unfold generate. rewrite bind_unfold.
  replace s with (s.1, s.2) at 1 by (destruct s; reflexivity).
  rewrite (reset_contents_ok s.1 s.2 Hne).
  destruct (fresh_wf s.1 Hwf) as [Hwf0 Hfresh].
  set (m0 := with_cells (fresh_cell (base_sequence s.1) <$> locations (rows s.1) (columns s.1))
               s.1) in *.
  rewrite bind_unfold. unfold query at 1. cbn [fst snd].
  rewrite bind_unfold. unfold query at 1. cbn [fst snd].
  rewrite (get_row_cells_wf m0 0 Hwf0) by (change (rows m0) with (rows s.1); nia).
  change (base_sequence m0) with (base_sequence s.1).
  set (seq0 := shuffle (base_sequence s.1)).
  assert (Hlseq : length seq0 = rows s.1).
  { unfold seq0. rewrite (Permutation_length (Hperm _)). exact Hbase. }
  assert (Hlrow : length (row_refs m0 0) = rows s.1).
  { unfold row_refs. rewrite length_seq. exact Hcc. }
  rewrite bind_unfold.
  rewrite assign_popped_zip by (rewrite Hlrow, Hlseq; reflexivity).
  assert (Hl0 : length (cells m0) = length (cells s.1)).
  { destruct Hwf0 as (_ & _ & _ & -> & _). rewrite Hn. reflexivity. }
  destruct (assign_list (row_refs m0 0) (reverse seq0) m0 s.2 Hwf0)
    as (m' & E & [Hwf' Hlen'] & Hin & Hout & F).
  - apply NoDup_seq.
  - intros i Hi. apply (elem_of_row_refs m0 0 i Hwf0) in Hi; [tauto|].
    change (rows m0) with (rows s.1). nia.
  - intros k i v _ Hv. right. right. change (base_sequence m0) with (base_sequence s.1).
    assert (Hv' : v ∈ seq0).
    { apply elem_of_reverse. eapply list_elem_of_lookup_2. exact Hv. }
    unfold seq0 in Hv'. rewrite (Hperm _) in Hv'. exact Hv'.
  - rewrite E. cbn [fst snd].
    set (q' := assign_hooks (zip (row_refs m0 0) (reverse seq0)) m0 s.2).
    destruct (assign_hooks_solver (zip (row_refs m0 0) (reverse seq0)) m0 s.2)
      as [_ Hq']. fold q' in Hq'.
    destruct F as (F1 & F2 & F3 & F4).
    change (rows m0) with (rows s.1) in F1. change (columns m0) with (columns s.1) in F2.
    change (base_sequence m0) with (base_sequence s.1) in F3.
    change (box_size m0) with (box_size s.1) in F4.
    assert (Hrefs : ∀ k i, row_refs m0 0 !! k = Some i ↔ i = k ∧ k < rows s.1).
    { intros k i. unfold row_refs. rewrite lookup_seq.
      change (columns m0) with (columns s.1). rewrite Hcc. cbn. reflexivity. }
    apply (solve_first_row fuel (m', q')); cbn [fst snd].
    + exact Hwf'.
    + rewrite F4. exact Hb.
    + rewrite F3, F1. exact Hbase.
    + intros i Hi. apply Hq' in Hi as [Hi|(v & Hv & _)].
      { rewrite Hcl in Hi. apply elem_of_empty in Hi. destruct Hi. }
      apply elem_of_zip_l, list_elem_of_lookup in Hv as [k Hk].
      apply Hrefs in Hk as [-> Hk]. rewrite F1. exact Hk.
    + intros k Hk. rewrite Hlen' in Hk. rewrite F1, F3.
      destruct (Hfresh k Hk) as (Hs0 & Ha0 & Hi0).
      unfold solved_at, items_at.
      destruct (decide (k < rows s.1)) as [Hlt|Hge].
      * destruct (lookup_lt_is_Some_2 (reverse seq0) k) as [v Hv].
        { rewrite length_reverse, Hlseq. exact Hlt. }
        rewrite (Hin k k v); [|apply Hrefs; tauto|exact Hv].
        rewrite Hs0. cbn. unfold solved_at in Hs0.
        split; [exact Hs0|]. split; [exact Ha0|]. split; [reflexivity|lia].
      * rewrite Hout.
        -- split; [exact Hs0|]. split; [exact Ha0|]. split; [lia|]. intros _. exact Hi0.
        -- intros (k' & Hk' & _)%elem_of_take. apply Hrefs in Hk' as [-> Hk']. lia.
    + unfold generate_bound in Hfuel |- *. rewrite F1, F2, F3. exact Hfuel.
Qed.

End Generate.

Lemma generate_never_returns_witness :
  (SudokuMatrixSolver.generate Examples.pop_first reverse
     (Grid.generate_bound Examples.solver9.1) Examples.solver9).1
  = Raise SystemExit.
Proof.
  apply (generate_never_returns Examples.pop_first reverse
           (Grid.generate_bound Examples.solver9.1) Examples.solver9).
  - by_compute.
  - vm_compute. lia.
  - reflexivity.
  - reflexivity.
  - intros l. apply reverse_Permutation.
  - lia.
Defined.
